(** * The resource loader of the engine (pc.resources.ResourceLoader)

    A shallow embedding of [ResourceLoader], [ResourceRequest] and the
    [ResourceHandler] contract, together with the part of the promise
    library the loader relies on ([new Promise], [then], [all]).

    JavaScript objects used as dictionaries ([_hashes], [_canonicals],
    [_cache], [_requests], [_handlers]) are finite maps keyed by strings.
    Request objects and promises have identity and are mutated in place, so
    both live in a heap (a list indexed by allocation order) and are referred
    to by their index.  Callbacks handed to [then] are kept as first-order
    [reaction]s and run from a task queue, one at a time. *)

From stdpp Require Import base strings gmap list.

#[local] Set Warnings "-register-all".

(** ** Values *)

(** The JavaScript values the loader looks at: it only ever tests a value for
    truthiness and for [instanceof].  An object carries the names of the
    constructors on its prototype chain and a tag telling instances apart. *)
Inductive value :=
  | VUndefined
  | VNull
  | VStr (s : string)
  | VObj (classes : list string) (tag : nat)
  | VArr (items : list value).

Definition truthy_string (s : string) : bool :=
  if decide (s = "") then false else true.

Definition truthy (v : value) : bool :=
  match v with
  | VUndefined | VNull => false
  | VStr s => truthy_string s
  | VObj _ _ | VArr _ => true
  end.

(** [obj[key]] read from a dictionary of strings and used as a condition:
    a missing key gives [undefined], and the empty string is falsy too. *)
Definition truthy_entry (o : option string) : bool :=
  match o with
  | Some s => truthy_string s
  | None => false
  end.

(** [resource instanceof T] *)
Definition instanceof (v : value) (T : string) : bool :=
  match v with
  | VObj classes _ => bool_decide (T ∈ classes)
  | _ => false
  end.

(** The error raised by [undefined.open(...)] and [undefined.clone(...)]. *)
Definition TypeError : value := VObj ["TypeError"; "Error"] 0.

(** The outcome of a call that may throw. *)
Inductive completion :=
  | Return (v : value)
  | Throw (e : value).

(** ** Requests *)

(** [ResourceRequest]: the fields set by the constructor, and [type] and
    [Type], which the request classes put on their prototype
    ([PackRequest.prototype.type = "pack"], [... .Type = pc.Pack]). *)
Record ResourceRequest := mk_request {
  r_id : option nat;
  r_canonical : string;
  r_promises : list nat;
  r_children : list nat;
  r_data : value;
  r_result : value;
  r_identifier : string;
  r_type : string;
  r_Type : option string
}.

(** The arguments of [new RequestType(identifier, data, result)]. *)
Record request_spec := RequestSpec {
  s_identifier : string;
  s_type : string;
  s_Type : option string;
  s_data : value;
  s_result : value
}.

Definition new_ResourceRequest (s : request_spec) : ResourceRequest :=
  {| r_id := None;
     r_canonical := s_identifier s;
     r_promises := [];
     r_children := [];
     r_data := s_data s;
     r_result := s_result s;
     r_identifier := s_identifier s;
     r_type := s_type s;
     r_Type := s_Type s |}.

Definition set_r_id (i : option nat) (q : ResourceRequest) : ResourceRequest :=
  mk_request i (r_canonical q) (r_promises q) (r_children q) (r_data q)
    (r_result q) (r_identifier q) (r_type q) (r_Type q).
Definition set_r_canonical (c : string) (q : ResourceRequest) : ResourceRequest :=
  mk_request (r_id q) c (r_promises q) (r_children q) (r_data q)
    (r_result q) (r_identifier q) (r_type q) (r_Type q).
Definition set_r_promises (ps : list nat) (q : ResourceRequest) : ResourceRequest :=
  mk_request (r_id q) (r_canonical q) ps (r_children q) (r_data q)
    (r_result q) (r_identifier q) (r_type q) (r_Type q).
Definition set_r_children (cs : list nat) (q : ResourceRequest) : ResourceRequest :=
  mk_request (r_id q) (r_canonical q) (r_promises q) cs (r_data q)
    (r_result q) (r_identifier q) (r_type q) (r_Type q).
Definition set_r_data (d : value) (q : ResourceRequest) : ResourceRequest :=
  mk_request (r_id q) (r_canonical q) (r_promises q) (r_children q) d
    (r_result q) (r_identifier q) (r_type q) (r_Type q).

(** ** Handlers *)

(** What a handler's [open(data, request, options)] does: it may call
    [loader.request(requests, {parent: request})] any number of times with
    newly constructed requests, and then returns a resource or throws. *)
Record opened := Opened {
  o_nested : list (list request_spec);
  o_return : completion
}.

(** A [ResourceHandler].  [load] returns a promise of the raw data; its
    outcome is delivered by the environment (see [load_fulfilled] and
    [load_rejected] below), so only [open] and [clone] are functions here. *)
Record ResourceHandler := mk_handler {
  h_open : value → ResourceRequest → opened;
  h_clone : value → ResourceRequest → value
}.

(** ** Promises *)

Inductive pstate :=
  | Pending
  | Fulfilled (v : value)
  | Rejected (e : value).

Definition is_pending (s : pstate) : bool :=
  match s with Pending => true | _ => false end.

(** The callbacks the loader passes to [then], in first-order form.
    - [KDedup r target]: the follow-on of [_request] for a request that was
      already made ([request.promises[0].then(function (resource) ...)]);
    - [KAll agg i]: the i-th subscription of [all];
    - [KTop outer requested]: the two callbacks of
      [pc.promise.all(promises).then(...)] in [request];
    - [KCheck outer resources childRequests]: the two callbacks of
      [pc.promise.all(childPromises).then(...)] in [check]. *)
Inductive reaction :=
  | KDedup (r target : nat)
  | KAll (agg i : nat)
  | KTop (outer : nat) (requested : list nat)
  | KCheck (outer : nat) (resources : value) (childRequests : list nat).

(** What a promise was created for.
    - [KindPrimary r loading]: [request.promises[0]] of request [r];
      [loading] holds while the promise returned by [handler.load] is
      outstanding;
    - [KindFollow r]: a later entry of [request.promises];
    - [KindAll ps results]: made by [all] over the promises [ps], with the
      results received so far;
    - [KindOuter call]: the promise returned by [request]; once the loop of
      [request] has run, [call] holds its [requested] and [promises]. *)
Inductive pkind :=
  | KindPrimary (r : nat) (loading : bool)
  | KindFollow (r : nat)
  | KindAll (ps : list nat) (results : list (option value))
  | KindOuter (call : option (list nat * list nat)).

Record promise := Promise {
  p_state : pstate;
  p_reactions : list reaction;
  p_kind : pkind
}.

(** ** Notifications and handler calls *)

(** What an observer sees: the events fired by the loader ([this.fire]) and
    the calls made to handlers.  The most recent entry comes first. *)
Inductive event :=
  | Fire_request (r : nat)
  | Fire_error (r : nat) (msg : value)
  | Fire_progress (loaded requested : nat)
  | Fire_load (r : nat) (resource : value)
  | Fire_complete (resources : value)
  | Call_load (r : nat)
  | Call_open (r : nat) (data : value)
  | Call_clone (r : nat) (resource : value).

(** ** The loader *)

Record ResourceLoader := mk_loader {
  _handlers : gmap string ResourceHandler;
  _requests : gmap string nat;
  _cache : gmap string value;
  _hashes : gmap string string;
  _canonicals : gmap string string;
  _requested : nat;
  _loaded : nat;
  _sequence : nat;
  objects : list ResourceRequest;
  heap : list promise;
  tasks : list (reaction * pstate);
  events : list event
}.

(** [new pc.resources.ResourceLoader()] *)
Definition new_ResourceLoader : ResourceLoader :=
  {| _handlers := ∅; _requests := ∅; _cache := ∅; _hashes := ∅;
     _canonicals := ∅; _requested := 0; _loaded := 0; _sequence := 0;
     objects := []; heap := []; tasks := []; events := [] |}.

Definition set_handlers (x : gmap string ResourceHandler) (st : ResourceLoader) : ResourceLoader :=
  mk_loader x (_requests st) (_cache st) (_hashes st) (_canonicals st)
    (_requested st) (_loaded st) (_sequence st) (objects st) (heap st)
    (tasks st) (events st).
Definition set_requests (x : gmap string nat) (st : ResourceLoader) : ResourceLoader :=
  mk_loader (_handlers st) x (_cache st) (_hashes st) (_canonicals st)
    (_requested st) (_loaded st) (_sequence st) (objects st) (heap st)
    (tasks st) (events st).
Definition set_cache (x : gmap string value) (st : ResourceLoader) : ResourceLoader :=
  mk_loader (_handlers st) (_requests st) x (_hashes st) (_canonicals st)
    (_requested st) (_loaded st) (_sequence st) (objects st) (heap st)
    (tasks st) (events st).
Definition set_hashes (x : gmap string string) (st : ResourceLoader) : ResourceLoader :=
  mk_loader (_handlers st) (_requests st) (_cache st) x (_canonicals st)
    (_requested st) (_loaded st) (_sequence st) (objects st) (heap st)
    (tasks st) (events st).
Definition set_canonicals (x : gmap string string) (st : ResourceLoader) : ResourceLoader :=
  mk_loader (_handlers st) (_requests st) (_cache st) (_hashes st) x
    (_requested st) (_loaded st) (_sequence st) (objects st) (heap st)
    (tasks st) (events st).
Definition set_requested (x : nat) (st : ResourceLoader) : ResourceLoader :=
  mk_loader (_handlers st) (_requests st) (_cache st) (_hashes st)
    (_canonicals st) x (_loaded st) (_sequence st) (objects st) (heap st)
    (tasks st) (events st).
Definition set_loaded (x : nat) (st : ResourceLoader) : ResourceLoader :=
  mk_loader (_handlers st) (_requests st) (_cache st) (_hashes st)
    (_canonicals st) (_requested st) x (_sequence st) (objects st) (heap st)
    (tasks st) (events st).
Definition set_sequence (x : nat) (st : ResourceLoader) : ResourceLoader :=
  mk_loader (_handlers st) (_requests st) (_cache st) (_hashes st)
    (_canonicals st) (_requested st) (_loaded st) x (objects st) (heap st)
    (tasks st) (events st).
Definition set_objects (x : list ResourceRequest) (st : ResourceLoader) : ResourceLoader :=
  mk_loader (_handlers st) (_requests st) (_cache st) (_hashes st)
    (_canonicals st) (_requested st) (_loaded st) (_sequence st) x (heap st)
    (tasks st) (events st).
Definition set_heap (x : list promise) (st : ResourceLoader) : ResourceLoader :=
  mk_loader (_handlers st) (_requests st) (_cache st) (_hashes st)
    (_canonicals st) (_requested st) (_loaded st) (_sequence st) (objects st)
    x (tasks st) (events st).
Definition set_tasks (x : list (reaction * pstate)) (st : ResourceLoader) : ResourceLoader :=
  mk_loader (_handlers st) (_requests st) (_cache st) (_hashes st)
    (_canonicals st) (_requested st) (_loaded st) (_sequence st) (objects st)
    (heap st) x (events st).
Definition set_events (x : list event) (st : ResourceLoader) : ResourceLoader :=
  mk_loader (_handlers st) (_requests st) (_cache st) (_hashes st)
    (_canonicals st) (_requested st) (_loaded st) (_sequence st) (objects st)
    (heap st) (tasks st) x.

(** [this.fire(...)], and the record of a call to a handler. *)
Definition fire (e : event) (st : ResourceLoader) : ResourceLoader :=
  set_events (e :: events st) st.

(** ** Hash registry and cache *)

(** [registerHash(hash, identifier)] *)
Definition registerHash (hash identifier : string) (st : ResourceLoader) : ResourceLoader :=
  let st :=
    if truthy_entry (_hashes st !! identifier) then st
    else set_hashes (<[identifier := hash]> (_hashes st)) st in
  if truthy_entry (_canonicals st !! hash) then st
  else set_canonicals (<[hash := identifier]> (_canonicals st)) st.

(** [getHash(identifier)] *)
Definition getHash (st : ResourceLoader) (identifier : string) : option string :=
  _hashes st !! identifier.

(** [unregisterHash(identifier)] *)
Definition unregisterHash (identifier : string) (st : ResourceLoader) : ResourceLoader :=
  match getHash st identifier with
  | Some hash =>
      if truthy_string hash then
        set_hashes (delete identifier (_hashes st))
          (set_canonicals (delete hash (_canonicals st)) st)
      else st
  | None => st
  end.

(** [addToCache(identifier, resource)] *)
Definition addToCache (identifier : string) (resource : value) (st : ResourceLoader)
    : ResourceLoader :=
  match getHash st identifier with
  | Some hash =>
      if truthy_string hash then
        set_cache (<[hash := resource]> (_cache st)) st
      else st
  | None => st
  end.

(** [getFromCache(identifier)]: [this._cache[hash]] (possibly [undefined]),
    or [null] when the identifier has no hash. *)
Definition getFromCache (st : ResourceLoader) (identifier : string) : value :=
  match getHash st identifier with
  | Some hash =>
      if truthy_string hash then default VUndefined (_cache st !! hash)
      else VNull
  | None => VNull
  end.

(** [removeFromCache(identifier)] *)
Definition removeFromCache (identifier : string) (st : ResourceLoader) : ResourceLoader :=
  match getHash st identifier with
  | Some hash =>
      if truthy_string hash then set_cache (delete hash (_cache st)) st
      else st
  | None => st
  end.

(** [resetProgress()] *)
Definition resetProgress (st : ResourceLoader) : ResourceLoader :=
  set_loaded 0 (set_requested 0 st).

(** ** The heap of request objects *)

Definition no_request : ResourceRequest :=
  new_ResourceRequest (RequestSpec "undefined" "" None VUndefined VUndefined).

(** The request object at [r]. *)
Definition obj_at (os : list ResourceRequest) (r : nat) : ResourceRequest :=
  default no_request (os !! r).

Abbreviation obj st r := (obj_at (objects st) r).

Definition update_obj (r : nat) (f : ResourceRequest → ResourceRequest)
    (st : ResourceLoader) : ResourceLoader :=
  set_objects (alter f r (objects st)) st.

(** [new RequestType(identifier, data, result)] *)
Definition new_request (s : request_spec) (st : ResourceLoader)
    : nat * ResourceLoader :=
  (length (objects st),
   set_objects (objects st ++ [new_ResourceRequest s]) st).

Fixpoint new_requests (ss : list request_spec) (st : ResourceLoader)
    : list nat * ResourceLoader :=
  match ss with
  | [] => ([], st)
  | s :: ss =>
      let '(r, st) := new_request s st in
      let '(rs, st) := new_requests ss st in
      (r :: rs, st)
  end.

(** ** Promises *)

Definition state_at (h : list promise) (p : nat) : pstate :=
  match h !! p with
  | Some pr => p_state pr
  | None => Pending
  end.

Definition kind_at (h : list promise) (p : nat) : option pkind :=
  p_kind <$> h !! p.

Definition reactions_at (h : list promise) (p : nat) : list reaction :=
  match h !! p with
  | Some pr => p_reactions pr
  | None => []
  end.

Abbreviation state_of st p := (state_at (heap st) p).
Abbreviation kind_of st p := (kind_at (heap st) p).

(** [new Promise(...)], before its executor has run. *)
Definition new_promise (k : pkind) (st : ResourceLoader)
    : nat * ResourceLoader :=
  (length (heap st), set_heap (heap st ++ [Promise Pending [] k]) st).

Definition set_kind (p : nat) (k : pkind) (st : ResourceLoader)
    : ResourceLoader :=
  set_heap
    (alter (λ pr, Promise (p_state pr) (p_reactions pr) k) p (heap st)) st.

(** Settling a pending promise hands its callbacks to the task queue, in the
    order they were attached; settling a settled promise does nothing. *)
Definition settle_heap (p : nat) (s : pstate) (h : list promise)
    : list promise :=
  if is_pending (state_at h p) then
    alter (λ pr, Promise s [] (p_kind pr)) p h
  else h.

Definition settle_tasks (p : nat) (s : pstate) (h : list promise)
    : list (reaction * pstate) :=
  if is_pending (state_at h p) then (λ k, (k, s)) <$> reactions_at h p
  else [].

Definition settle (p : nat) (s : pstate) (st : ResourceLoader)
    : ResourceLoader :=
  set_tasks (tasks st ++ settle_tasks p s (heap st))
    (set_heap (settle_heap p s (heap st)) st).

Definition resolve (p : nat) (v : value) : ResourceLoader → ResourceLoader :=
  settle p (Fulfilled v).
Definition reject (p : nat) (e : value) : ResourceLoader → ResourceLoader :=
  settle p (Rejected e).

(** [p.then(onFulfilled, onRejected)] with the two callbacks of [k]: kept on
    the promise while it is pending, queued at once when it is settled. *)
Definition then_heap (p : nat) (k : reaction) (h : list promise)
    : list promise :=
  if is_pending (state_at h p) then
    alter (λ pr, Promise (p_state pr) (p_reactions pr ++ [k]) (p_kind pr)) p h
  else h.

Definition then_tasks (p : nat) (k : reaction) (h : list promise)
    : list (reaction * pstate) :=
  if is_pending (state_at h p) then [] else [(k, state_at h p)].

Definition then_ (p : nat) (k : reaction) (st : ResourceLoader)
    : ResourceLoader :=
  set_tasks (tasks st ++ then_tasks p k (heap st))
    (set_heap (then_heap p k (heap st)) st).

Fixpoint all_subscribe (agg i : nat) (ps : list nat) (st : ResourceLoader)
    : ResourceLoader :=
  match ps with
  | [] => st
  | p :: ps => all_subscribe agg (S i) ps (then_ p (KAll agg i) st)
  end.

(** [pc.promise.all(ps)]: fulfilled with the array of results, in the order
    of [ps], when every one is fulfilled (at once for an empty [ps]);
    rejected as soon as one of them is. *)
Definition all (ps : list nat) (st : ResourceLoader) : nat * ResourceLoader :=
  let '(agg, st) :=
    new_promise (KindAll ps (replicate (length ps) None)) st in
  let st := match ps with [] => resolve agg (VArr []) st | _ => st end in
  (agg, all_subscribe agg 0 ps st).

(** The array of results of [all], once none is missing. *)
Definition all_results (results : list (option value)) : option (list value) :=
  mapM (λ o, o) results.

(** ** Making a request *)

(** [_makeCanonical(request)] *)
Definition canonical_of (st : ResourceLoader) (identifier : string) : string :=
  match getHash st identifier with
  | Some hash =>
      if truthy_string hash && truthy_entry (_canonicals st !! hash) then
        default identifier (_canonicals st !! hash)
      else identifier
  | None => identifier
  end.

Definition _makeCanonical (r : nat) (st : ResourceLoader) : ResourceLoader :=
  update_obj r (set_r_canonical (canonical_of st (r_identifier (obj st r)))) st.

(** [_findExistingRequest(request)] *)
Definition _findExistingRequest (r : nat) (st : ResourceLoader) : nat :=
  match _requests st !! r_canonical (obj st r) with
  | Some e =>
      if negb (bool_decide (r_type (obj st e) = r_type (obj st r)))
         || truthy (r_result (obj st e)) || truthy (r_result (obj st r))
      then r
      else e
  | None => r
  end.

(** [_postOpen(resource, request)]; [undefined.clone] throws when no handler
    is registered for the type of the request. *)
Definition _postOpen (resource : value) (r : nat) (st : ResourceLoader)
    : completion * ResourceLoader :=
  let st := addToCache (r_canonical (obj st r)) resource st in
  match _handlers st !! r_type (obj st r) with
  | None => (Throw TypeError, st)
  | Some h =>
      let st := fire (Call_clone r resource) st in
      let resource := h_clone h resource (obj st r) in
      let st :=
        set_requests (delete (r_canonical (obj st r)) (_requests st)) st in
      let st := set_loaded (S (_loaded st)) st in
      let st := fire (Fire_progress (_loaded st) (_requested st)) st in
      let st := fire (Fire_load r resource) st in
      (Return resource, st)
  end.

(** [resolve(self._postOpen(resource, request))] inside a [try] or a promise
    executor: an exception rejects the promise. *)
Definition resolve_postOpen (p : nat) (resource : value) (r : nat)
    (st : ResourceLoader) : ResourceLoader :=
  match _postOpen resource r st with
  | (Return resource, st) => resolve p resource st
  | (Throw e, st) => reject p e st
  end.

(** [_request(request, options)] *)
Definition _request (r : nat) (st : ResourceLoader) : nat * ResourceLoader :=
  let st :=
    match r_id (obj st r) with
    | None =>
        set_sequence (S (_sequence st))
          (update_obj r (set_r_id (Some (_sequence st))) st)
    | Some _ => st
    end in
  let st := fire (Fire_request r) st in
  let '(p, st) :=
    match r_promises (obj st r) with
    | p0 :: _ =>
        (* the request has already been made: wait for its result *)
        let '(p, st) := new_promise (KindFollow r) st in
        let st := then_ p0 (KDedup r p) st in
        (p, update_obj r (λ q, set_r_promises (r_promises q ++ [p]) q) st)
    | [] =>
        (* check cache, load and open the requested data *)
        let '(p, st) := new_promise (KindPrimary r false) st in
        let st :=
          match _handlers st !! r_type (obj st r) with
          | None =>
              let msg :=
                VStr ("Missing handler for type: " +:+ r_type (obj st r)) in
              reject p msg (fire (Fire_error r msg) st)
          | Some _ =>
              let resource := getFromCache st (r_canonical (obj st r)) in
              if truthy resource
                 && match r_Type (obj st r) with
                    | None => true
                    | Some T => instanceof resource T
                    end
              then resolve_postOpen p resource r st
              else set_kind p (KindPrimary r true) (fire (Call_load r) st)
          end in
        (p, update_obj r (set_r_promises [p]) st)
    end in
  let st := set_requests (<[r_canonical (obj st r) := r]> (_requests st)) st in
  let st := set_requested (S (_requested st)) st in
  (p, st).

(** The loop of [request]: returns [requested] and [promises]. *)
Fixpoint request_loop (parent : option nat) (rs : list nat) (st : ResourceLoader)
    : list nat * list nat * ResourceLoader :=
  match rs with
  | [] => ([], [], st)
  | r0 :: rs =>
      let r := _findExistingRequest r0 st in
      let st :=
        if decide (r = r0) then st
        else update_obj r (set_r_data (r_data (obj st r0))) st in
      let st := _makeCanonical r st in
      let '(p, st) := _request r st in
      let st :=
        match parent with
        | Some par =>
            update_obj par (λ q, set_r_children (r_children q ++ [r]) q) st
        | None => st
        end in
      let '(requested, promises, st) := request_loop parent rs st in
      (r :: requested, p :: promises, st)
  end.

(** [request(requests, options)], with [parent] for [options.parent]; a
    single request is passed as a list of one. *)
Definition request (rs : list nat) (parent : option nat) (st : ResourceLoader)
    : nat * ResourceLoader :=
  let '(outer, st) := new_promise (KindOuter None) st in
  let '(requested, promises, st) := request_loop parent rs st in
  let st := set_kind outer (KindOuter (Some (requested, promises))) st in
  let '(agg, st) := all promises st in
  (outer, then_ agg (KTop outer requested) st).

(** The requests and promises gathered by [check]. *)
Definition child_requests (st : ResourceLoader) (requests : list nat) : list nat :=
  requests ≫= (λ r, r_children (obj st r)).

Definition child_promises (st : ResourceLoader) (requests : list nat) : list nat :=
  child_requests st requests ≫= (λ c, r_promises (obj st c)).

(** [check(resources, requests, promises)] in [request] *)
Definition check (outer : nat) (resources : value) (requests : list nat)
    (st : ResourceLoader) : ResourceLoader :=
  let childRequests := child_requests st requests in
  match child_promises st requests with
  | [] => resolve outer resources (fire (Fire_complete resources) st)
  | childPromises =>
      let '(agg, st) := all childPromises st in
      then_ agg (KCheck outer resources childRequests) st
  end.

(** ** Opening *)

(** A nested [loader.request(requests, {parent: request})] made by a
    handler while it opens [parent]; the promise it returns is dropped. *)
Definition nested_request (parent : nat) (st : ResourceLoader)
    (ss : list request_spec) : ResourceLoader :=
  let '(rs, st) := new_requests ss st in
  (request rs (Some parent) st).2.

(** [_open(data, request, options)] *)
Definition _open (data : value) (r : nat) (st : ResourceLoader)
    : completion * ResourceLoader :=
  match _handlers st !! r_type (obj st r) with
  | None => (Throw TypeError, st)
  | Some h =>
      let o := h_open h data (obj st r) in
      let st := fire (Call_open r data) st in
      (o_return o, foldl (nested_request r) st (o_nested o))
  end.

(** [open(RequestType, data, options)]: the request made by
    [new RequestType()] has no identifier. *)
Definition open (type : string) (Type_ : option string) (data : value)
    (st : ResourceLoader) : completion * ResourceLoader :=
  let '(r, st) :=
    new_request (RequestSpec "undefined" type Type_ VUndefined VUndefined) st in
  _open data r st.

(** [registerHandler(RequestType, handler)]; [None] when it throws. *)
Definition registerHandler (type : string) (h : ResourceHandler) (st : ResourceLoader)
    : option ResourceLoader :=
  if decide (type = "") then None
  else Some (set_handlers (<[type := h]> (_handlers st)) st).

(** ** Callbacks *)

(** The request whose [handler.load] promise stands behind [p]. *)
Definition loading_request (st : ResourceLoader) (p : nat) : option nat :=
  match kind_of st p with
  | Some (KindPrimary r true) => Some r
  | _ => None
  end.

(** The fulfilment callback of [handler.load(request, options).then(...)] in
    [_request], where [p] is [request.promises[0]]. *)
Definition load_fulfilled (p : nat) (data : value) (st : ResourceLoader)
    : option ResourceLoader :=
  r ← loading_request st p;
  let st := set_kind p (KindPrimary r false) st in
  Some
    match _open data r st with
    | (Return resource, st) =>
        if truthy resource then resolve_postOpen p resource r st
        else resolve p resource st
    | (Throw e, st) => reject p e st
    end.

(** The rejection callback of the same [then]. *)
Definition load_rejected (p : nat) (error : value) (st : ResourceLoader)
    : option ResourceLoader :=
  r ← loading_request st p;
  let st := set_kind p (KindPrimary r false) st in
  Some (reject p error (fire (Fire_error r error) st)).

(** [resolveAll(i, value)] of [all]. *)
Definition all_fulfilled (agg i : nat) (v : value) (st : ResourceLoader)
    : ResourceLoader :=
  match kind_of st agg with
  | Some (KindAll ps results) =>
      let results := <[i := Some v]> results in
      let st := set_kind agg (KindAll ps results) st in
      match all_results results with
      | Some vs => resolve agg (VArr vs) st
      | None => st
      end
  | _ => st
  end.

(** Running a callback of [k] on a promise settled as [s].  An exception
    thrown in the follow-on of [_request] is swallowed by the promise that
    [then] returns, which nobody holds. *)
Definition run_reaction (k : reaction) (s : pstate) (st : ResourceLoader)
    : ResourceLoader :=
  match k, s with
  | _, Pending => st
  | KDedup r target, Fulfilled resource =>
      match _postOpen resource r st with
      | (Return resource, st) => resolve target resource st
      | (Throw _, st) => st
      end
  | KDedup _ _, Rejected _ => st
  | KAll agg i, Fulfilled v => all_fulfilled agg i v st
  | KAll agg _, Rejected e => reject agg e st
  | KTop outer requested, Fulfilled resources =>
      check outer resources requested st
  | KTop outer _, Rejected e => reject outer e st
  | KCheck outer resources childRequests, Fulfilled _ =>
      check outer resources childRequests st
  | KCheck outer _ _, Rejected e => reject outer e st
  end.

(** ** The loader and its environment *)

(** What can happen to a loader: a call of its interface, the outcome of an
    outstanding [load], or the next queued callback. *)
Inductive action :=
  | Do_registerHandler (type : string) (h : ResourceHandler)
  | Do_registerHash (hash identifier : string)
  | Do_unregisterHash (identifier : string)
  | Do_addToCache (identifier : string) (resource : value)
  | Do_removeFromCache (identifier : string)
  | Do_resetProgress
  | Do_new (s : request_spec)
  | Do_request (rs : list nat) (parent : option nat)
  | Do_open (type : string) (Type_ : option string) (data : value)
  | Load_done (p : nat) (data : value)
  | Load_failed (p : nat) (error : value)
  | Tick.

Definition valid_request (st : ResourceLoader) (r : nat) : bool :=
  bool_decide (r < length (objects st)).

(** One step; [None] when the action cannot happen in [st] (a request that
    does not exist, a load that is not outstanding, an empty queue) or
    throws. *)
Definition step (a : action) (st : ResourceLoader) : option ResourceLoader :=
  match a with
  | Do_registerHandler type h => registerHandler type h st
  | Do_registerHash hash identifier => Some (registerHash hash identifier st)
  | Do_unregisterHash identifier => Some (unregisterHash identifier st)
  | Do_addToCache identifier resource =>
      Some (addToCache identifier resource st)
  | Do_removeFromCache identifier => Some (removeFromCache identifier st)
  | Do_resetProgress => Some (resetProgress st)
  | Do_new s => Some (new_request s st).2
  | Do_request rs parent =>
      if forallb (valid_request st) rs
         && from_option (valid_request st) true parent
      then Some (request rs parent st).2
      else None
  | Do_open type Type_ data =>
      match open type Type_ data st with
      | (Return _, st) => Some st
      | (Throw _, _) => None
      end
  | Load_done p data => load_fulfilled p data st
  | Load_failed p error => load_rejected p error st
  | Tick =>
      match tasks st with
      | (k, s) :: rest => Some (run_reaction k s (set_tasks rest st))
      | [] => None
      end
  end.

Fixpoint run (acts : list action) (st : ResourceLoader)
    : option ResourceLoader :=
  match acts with
  | [] => Some st
  | a :: acts => st ← step a st; run acts st
  end.

(** ** Registering hashes in sequence *)

(** A sequence of [registerHash(hash, identifier)] calls, first to last. *)
Definition register_all (later : list (string * string))
    (st : ResourceLoader) : ResourceLoader :=
  foldl (λ st hi, registerHash hi.1 hi.2 st) st later.

(** ** Settlement of a request and of the requests below it *)

(** Every canonical identifier in the registry has a hash of its own. *)
Definition canonicals_hashed (st : ResourceLoader) : Prop :=
  ∀ h c, _canonicals st !! h = Some c → c ≠ "" →
    ∃ h', getHash st c = Some h' ∧ h' ≠ "".

Section settlement.
Variables (os : list ResourceRequest) (h : list promise).

(** The primary promise of [r], [request.promises[0]], is fulfilled. *)
Definition primary_done (r : nat) : Prop :=
  ∃ p v, head (r_promises (obj_at os r)) = Some p ∧ state_at h p = Fulfilled v.

Definition all_done (R : list nat) : Prop :=
  ∀ r, r ∈ R → primary_done r.

(** [c] was pushed on [r.children]. *)
Definition child (r c : nat) : Prop := c ∈ r_children (obj_at os r).

(** [d] is one of the requests [R] or lies below one of them. *)
Definition descendant (R : list nat) (d : nat) : Prop :=
  ∃ r, r ∈ R ∧ rtc child r d.

(** Every request at or below [R] has been loaded and opened. *)
Definition subtree_settled (R : list nat) : Prop :=
  ∀ d, descendant R d → primary_done d.


(** The requests [check] looks at in its [k]-th round: the requests of the
    call, then their children, then the children of those, and so on. *)
Fixpoint level (R0 : list nat) (k : nat) : list nat :=
  match k with
  | 0 => R0
  | S k => level R0 k ≫= (λ r, r_children (obj_at os r))
  end.

(** The requests at or below [R0] that are not done yet all lie at or below
    [R]: what [check] still has to wait for when it looks at [R]; and [R]
    is a level of the call, the levels above it being done. *)
Definition frontier (R0 R : list nat) : Prop :=
  (∀ d, descendant R0 d → primary_done d ∨ descendant R d) ∧
  ∃ k, R = level R0 k ∧ ∀ j, j < k → all_done (level R0 j).

(** [v] is the array of the values the promises [ps] are fulfilled with, in
    the order of [ps]. *)
Definition results_ok (ps : list nat) (v : value) : Prop :=
  ∃ vs, v = VArr vs ∧ Forall2 (λ p x, state_at h p = Fulfilled x) ps vs.

(** The [requested] and [promises] of the [request] call that returned [o]. *)
Definition call_at (o : nat) : option (list nat * list nat) :=
  match kind_at h o with
  | Some (KindOuter c) => c
  | _ => None
  end.

(** What holds of a callback [k] while it is attached to the promise [q]. *)
Definition attachable (q : nat) (k : reaction) : Prop :=
  match k with
  | KDedup r t =>
      kind_at h t = Some (KindFollow r) ∧
      head (r_promises (obj_at os r)) = Some q
  | KAll agg i =>
      ∃ ps res, kind_at h agg = Some (KindAll ps res) ∧ ps !! i = Some q
  | KTop o R =>
      ∃ P res, call_at o = Some (R, P) ∧ kind_at h q = Some (KindAll P res)
  | KCheck o v R =>
      ∃ R0 P0 ps res,
        call_at o = Some (R0, P0) ∧ results_ok P0 v ∧ frontier R0 R ∧
        kind_at h q = Some (KindAll ps res) ∧
        ∀ c, c ∈ R → ∃ p, head (r_promises (obj_at os c)) = Some p ∧ p ∈ ps
  end.

(** What holds of a callback [k] queued for a promise settled as [s]. *)
Definition runnable (k : reaction) (s : pstate) : Prop :=
  match k with
  | KDedup r t =>
      kind_at h t = Some (KindFollow r) ∧
      ∀ v, s = Fulfilled v → primary_done r
  | KAll agg i =>
      ∃ ps res, kind_at h agg = Some (KindAll ps res) ∧
        ∀ v, s = Fulfilled v → ∃ q, ps !! i = Some q ∧ state_at h q = Fulfilled v
  | KTop o R =>
      ∃ P, call_at o = Some (R, P) ∧ ∀ v, s = Fulfilled v → results_ok P v
  | KCheck o v R =>
      ∃ R0 P0,
        call_at o = Some (R0, P0) ∧ results_ok P0 v ∧ frontier R0 R ∧
        ∀ w, s = Fulfilled w → all_done R
  end.

End settlement.

(** The invariant of the two heaps and the task queue. *)
Record Inv (os : list ResourceRequest) (h : list promise)
    (ts : list (reaction * pstate)) : Prop := {
  inv_attached : ∀ q k, k ∈ reactions_at h q → attachable os h q k;
  inv_tasks : ∀ k s, (k, s) ∈ ts → runnable os h k s;
  inv_primary : ∀ p r l, kind_at h p = Some (KindPrimary r l) →
    head (r_promises (obj_at os r)) = Some p ∧
    (l = true → state_at h p = Pending);
  inv_follow : ∀ p r, kind_at h p = Some (KindFollow r) →
    (∀ v, state_at h p = Fulfilled v → primary_done os h r) ∧
    (∀ e, state_at h p ≠ Rejected e);
  inv_head : ∀ r p, head (r_promises (obj_at os r)) = Some p →
    ∃ l, kind_at h p = Some (KindPrimary r l);
  inv_tail : ∀ r p, p ∈ tail (r_promises (obj_at os r)) →
    kind_at h p = Some (KindFollow r);
  inv_all : ∀ agg ps res, kind_at h agg = Some (KindAll ps res) →
    length res = length ps ∧
    (∀ i v, res !! i = Some (Some v) →
       ∃ q, ps !! i = Some q ∧ state_at h q = Fulfilled v) ∧
    (∀ w, state_at h agg = Fulfilled w → results_ok h ps w);
  inv_outer : ∀ o R0 P0, call_at h o = Some (R0, P0) →
    Forall2 (λ r p, p ∈ r_promises (obj_at os r)) R0 P0 ∧
    (∀ v, state_at h o = Fulfilled v →
       results_ok h P0 v ∧ subtree_settled os h R0);
  inv_unset : ∀ o, kind_at h o = Some (KindOuter None) →
    state_at h o = Pending;
  inv_children : ∀ r c, c ∈ r_children (obj_at os r) →
    r_promises (obj_at os c) ≠ []
}.

(** When the promise [p] may be settled as [s]. *)
Definition settle_ok (os : list ResourceRequest) (h : list promise)
    (p : nat) (s : pstate) : Prop :=
  s ≠ Pending ∧
  match kind_at h p with
  | Some (KindPrimary r l) => l = false
  | Some (KindFollow r) => ∃ v, s = Fulfilled v ∧ primary_done os h r
  | Some (KindAll ps res) => ∀ w, s = Fulfilled w → results_ok h ps w
  | Some (KindOuter c) =>
      ∃ R0 P0, c = Some (R0, P0) ∧
        ∀ v, s = Fulfilled v → results_ok h P0 v ∧ subtree_settled os h R0
  | None => True
  end.

(** How the two heaps evolve: settled promises stay as they are, promises
    keep what they were created for, the lists of promises and children of a
    request only grow at their end, and the children of a request whose
    primary promise is fulfilled are final. *)
Record grows (os : list ResourceRequest) (h : list promise)
    (os' : list ResourceRequest) (h' : list promise) : Prop := {
  g_state : ∀ p, state_at h p ≠ Pending → state_at h' p = state_at h p;
  g_primary : ∀ p r l, kind_at h p = Some (KindPrimary r l) →
    ∃ l', kind_at h' p = Some (KindPrimary r l');
  g_follow : ∀ p r, kind_at h p = Some (KindFollow r) →
    kind_at h' p = Some (KindFollow r);
  g_all : ∀ p ps res, kind_at h p = Some (KindAll ps res) →
    ∃ res', kind_at h' p = Some (KindAll ps res');
  g_call : ∀ o c, call_at h o = Some c → call_at h' o = Some c;
  g_promises : ∀ r,
    r_promises (obj_at os r) `prefix_of` r_promises (obj_at os' r);
  g_children : ∀ r,
    r_children (obj_at os r) `prefix_of` r_children (obj_at os' r);
  g_frozen : ∀ r, primary_done os h r →
    r_children (obj_at os' r) = r_children (obj_at os r)
}.

(** Steps that change nothing the invariant reads from the two heaps. *)
Record same_views (os : list ResourceRequest) (h : list promise)
    (os' : list ResourceRequest) (h' : list promise) : Prop := {
  sv_state : ∀ p, state_at h' p = state_at h p;
  sv_kind : ∀ p, kind_at h' p = kind_at h p;
  sv_promises : ∀ r, r_promises (obj_at os' r) = r_promises (obj_at os r);
  sv_children : ∀ r, r_children (obj_at os' r) = r_children (obj_at os r)
}.

(** Which promises [new_promise] may create on its own: the primary promise
    of a request is created together with its entry in [request.promises]. *)
Definition alloc_ok (k : pkind) : Prop :=
  match k with
  | KindPrimary _ _ => False
  | KindFollow _ => True
  | KindAll ps res => res = replicate (length ps) None
  | KindOuter c => c = None
  end.

(** When the kind of [p] may be replaced by [k]. *)
Definition set_kind_ok (h : list promise) (os : list ResourceRequest)
    (p : nat) (k : pkind) : Prop :=
  match kind_at h p, k with
  | Some (KindPrimary r _), KindPrimary r' l' =>
      r' = r ∧ (l' = true → state_at h p = Pending)
  | Some (KindAll ps res), KindAll ps' res' =>
      ps' = ps ∧ ∃ i q v, res' = <[i := Some v]> res ∧ ps !! i = Some q ∧
        state_at h q = Fulfilled v
  | Some (KindOuter None), KindOuter (Some (R0, P0)) =>
      Forall2 (λ r p, p ∈ r_promises (obj_at os r)) R0 P0
  | _, _ => False
  end.

(** Every request in the table of active requests exists and has been
    dispatched. *)
Definition table_ok (st : ResourceLoader) : Prop :=
  ∀ c e, _requests st !! c = Some e →
    e < length (objects st) ∧ r_promises (obj st e) ≠ [].

(** Actions of callers that pass no [options.parent]: nested requests are
    made by handlers only, for the request they are opening. *)
Definition top_level (a : action) : Prop :=
  match a with
  | Do_request _ (Some _) => False
  | _ => True
  end.

(** The objects after [_request] has given [r] its sequence number. *)
Definition objects_with_id (r : nat) (st : ResourceLoader)
    : list ResourceRequest :=
  match r_id (obj st r) with
  | None => alter (set_r_id (Some (_sequence st))) r (objects st)
  | Some _ => objects st
  end.

(** The request a nested [request] is made for is still being opened: its
    primary promise is pending, or it was never dispatched (the request made
    by [open]) and is not one of the requests asked for. *)
Definition parent_open (st : ResourceLoader) (parent : option nat)
    (rs : list nat) : Prop :=
  match parent with
  | None => True
  | Some par =>
      par < length (objects st) ∧
      ((∃ p l, kind_of st p = Some (KindPrimary par l) ∧
               state_of st p = Pending) ∨
       (r_promises (obj st par) = [] ∧ par ∉ rs))
  end.

(** The request [par] is being opened. *)
Definition opening (st : ResourceLoader) (par : nat) : Prop :=
  par < length (objects st) ∧
  ((∃ p l, kind_of st p = Some (KindPrimary par l) ∧ state_of st p = Pending) ∨
   r_promises (obj st par) = []).

(** The invariant of the loader. *)
Definition loader_ok (st : ResourceLoader) : Prop :=
  Inv (objects st) (heap st) (tasks st) ∧ table_ok st.

(** Nothing that existed in [st] was settled or lost on the way to [st']. *)
Definition undisturbed (st st' : ResourceLoader) : Prop :=
  length (objects st) ≤ length (objects st') ∧
  length (heap st) ≤ length (heap st') ∧
  (∀ q, q < length (heap st) →
     state_of st' q = state_of st q ∧ kind_of st' q = kind_of st q) ∧
  (∀ r, r_promises (obj st r) `prefix_of` r_promises (obj st' r)).

(** The loader [st'] is [st] but for its promises and queued callbacks. *)
Definition promises_only (st st' : ResourceLoader) : Prop :=
  st' = set_tasks (tasks st') (set_heap (heap st') st).

(** What a request keeps of the configuration of the loader and of the
    requests that exist: handlers and hashes are not touched, requests keep
    their identifier and type, and a canonical identifier only changes to
    the one the registry gives. *)
Record config_kept (st st' : ResourceLoader) : Prop := {
  ck_handlers : _handlers st' = _handlers st;
  ck_hashes : _hashes st' = _hashes st;
  ck_canonicals : _canonicals st' = _canonicals st;
  ck_length : length (objects st) ≤ length (objects st');
  ck_fields : ∀ r, r < length (objects st) →
    r_identifier (obj st' r) = r_identifier (obj st r) ∧
    r_type (obj st' r) = r_type (obj st r) ∧
    r_Type (obj st' r) = r_Type (obj st r);
  ck_canonical : ∀ r, r < length (objects st) →
    r_canonical (obj st' r) = r_canonical (obj st r) ∨
    r_canonical (obj st' r) = canonical_of st (r_identifier (obj st r))
}.

(** ** Waiting for pending promises *)


Section waiting.
Variables (os : list ResourceRequest) (h : list promise)
  (ts : list (reaction * pstate)).

(** The callback [k] is attached to a promise or queued; [E] holds of the
    callbacks that are being run or are about to be attached. *)
Definition waits (E : reaction → Prop) (k : reaction) : Prop :=
  E k ∨ (∃ q, k ∈ reactions_at h q) ∨ (∃ s, (k, s) ∈ ts).




End waiting.



(** ** What [_request] looks at *)

(** The request object [r] once [_request] has given it its sequence
    number. *)
Definition dispatched_obj (st : ResourceLoader) (r : nat) : ResourceRequest :=
  obj_at (objects_with_id r st) r.

(** [request.Type === undefined || resource instanceof request.Type] *)
Definition type_matches (resource : value) (T : option string) : bool :=
  match T with
  | None => true
  | Some T => instanceof resource T
  end.

(** The message of the rejection for a type without handler. *)
Definition missing_handler (type : string) : value :=
  VStr ("Missing handler for type: " +:+ type).


(** ** Example handlers, requests and runs *)

(** A handler for images: [open] makes an [Image] out of any data, and
    [clone] shares the instance. *)
Definition image_handler : ResourceHandler :=
  mk_handler (λ data q, Opened [] (Return (VObj ["Image"] 1))) (λ v q, v).

Definition image_request (identifier : string) : request_spec :=
  RequestSpec identifier "image" None VUndefined VUndefined.

(** A request for a texture, which expects an instance of [Texture]. *)
Definition texture_request (identifier : string) : request_spec :=
  RequestSpec identifier "image" (Some "Texture") VUndefined VUndefined.

(** A handler for packs whose [open] requests one texture as a child of the
    pack. *)
Definition pack_handler : ResourceHandler :=
  mk_handler
    (λ data q, Opened [[image_request "tex.png"]] (Return (VObj ["Pack"] 2)))
    (λ v q, v).

Definition pack_request (identifier : string) : request_spec :=
  RequestSpec identifier "pack" (Some "Pack") VUndefined VUndefined.

(** The requests [load] was called for, most recent first, and the requests
    [clone] was called for. *)
Definition loads (st : ResourceLoader) : list nat :=
  omap (λ e, match e with Call_load r => Some r | _ => None end) (events st).

Definition clones (st : ResourceLoader) : list nat :=
  omap (λ e, match e with Call_clone r _ => Some r | _ => None end)
    (events st).

(** The loader after a run from a new loader (the new loader itself when
    the run cannot happen). *)
Definition final (acts : list action) : ResourceLoader :=
  default new_ResourceLoader (run acts new_ResourceLoader).

(** Two identifiers registered against one hash: the first is requested,
    and while its load is outstanding the second is requested. *)
Definition first_identifier_run : list action :=
  [Do_registerHandler "image" image_handler;
   Do_registerHash "h1" "/a.png";
   Do_registerHash "h1" "/b.png";
   Do_new (image_request "/a.png");
   Do_request [0] None].

Definition two_identifiers_run : list action :=
  first_identifier_run ++ [Do_new (image_request "/b.png"); Do_request [1] None].


(** One identifier requested by a first caller, and again by a second one
    while the load is outstanding. *)
Definition two_callers_run : list action :=
  [Do_registerHandler "image" image_handler;
   Do_registerHash "h1" "/a.png";
   Do_new (image_request "/a.png");
   Do_new (image_request "/a.png");
   Do_request [0] None;
   Do_request [1] None].

(** ... and then the load fails, and every callback runs. *)
Definition failed_load_run : list action :=
  two_callers_run ++ [Load_failed 1 (VStr "404"); Tick; Tick; Tick].

(** A pack is requested; its data arrives and is opened, which requests a
    texture; later the texture arrives. *)
Definition pack_opened_run : list action :=
  [Do_registerHandler "pack" pack_handler;
   Do_registerHandler "image" image_handler;
   Do_new (pack_request "guid-1");
   Do_request [0] None;
   Load_done 1 (VStr "pack data");
   Tick; Tick].

Definition pack_run : list action :=
  pack_opened_run ++ [Load_done 4 (VStr "pixels"); Tick; Tick; Tick; Tick].

(** ... or the load of the texture fails. *)
Definition pack_failed_run : list action :=
  pack_opened_run ++ [Load_failed 4 (VStr "404"); Tick; Tick; Tick; Tick].

(** An image is in the cache, and a texture is requested for its
    identifier. *)
Definition cached_image_run : list action :=
  [Do_registerHandler "image" image_handler;
   Do_registerHash "h1" "/a.png";
   Do_addToCache "/a.png" (VObj ["Image"] 1);
   Do_new (texture_request "/a.png");
   Do_new (image_request "/a.png")].

(** ** Further handlers and runs *)

(** A handler whose [clone] makes a copy, told apart by its tag. *)
Definition copying_handler : ResourceHandler :=
  mk_handler (λ data q, Opened [] (Return (VObj ["Image"] 1)))
    (λ v q, match v with VObj cs t => VObj cs (S t) | _ => v end).

(** A handler whose [open] returns [undefined]. *)
Definition blank_handler : ResourceHandler :=
  mk_handler (λ data q, Opened [] (Return VUndefined)) (λ v q, v).

(** Two callers of one identifier, with a handler that copies. *)
Definition two_copies_run : list action :=
  [Do_registerHandler "image" copying_handler;
   Do_registerHash "h1" "/a.png";
   Do_new (image_request "/a.png");
   Do_new (image_request "/a.png");
   Do_request [0] None;
   Do_request [1] None].

(** A text is requested from a handler that opens nothing. *)
Definition blank_run : list action :=
  [Do_registerHandler "text" blank_handler;
   Do_new (RequestSpec "/t.txt" "text" None VUndefined VUndefined);
   Do_request [0] None].

Definition registered_run : list action :=
  [Do_registerHandler "image" copying_handler; Do_registerHash "h1" "/a.png"].

Definition one_load_run : list action :=
  [Do_new (image_request "/a.png"); Do_request [0] None;
   Load_done 1 (VStr "pixels"); Tick].

(** ** Sequence numbers and registry *)

(** Sequence numbers are below the counter of the loader, and no two
    requests have the same one. *)
Definition ids_ok (st : ResourceLoader) : Prop :=
  ∀ r i, r_id (obj st r) = Some i →
    i < _sequence st ∧ ∀ r', r_id (obj st r') = Some i → r' = r.

(** What requests, loads and callbacks leave alone: the handlers and the
    hash registry, and the sequence numbers that requests have got. *)
Record untouched (st st' : ResourceLoader) : Prop := {
  ut_handlers : _handlers st' = _handlers st;
  ut_hashes : _hashes st' = _hashes st;
  ut_canonicals : _canonicals st' = _canonicals st;
  ut_ids : ∀ r i, r_id (obj st r) = Some i → r_id (obj st' r) = Some i;
  ut_ok : ids_ok st → ids_ok st'
}.

(** The calls that change the handlers or the hash registry. *)
Definition registers (a : action) : bool :=
  match a with
  | Do_registerHandler _ _ | Do_registerHash _ _ | Do_unregisterHash _ => true
  | _ => false
  end.

(** ** Progress counters *)

(** What still stands to be counted as loaded: a load in flight, and a
    follow-on callback of a merged request that has not run yet. *)
Definition loading_weight (k : pkind) : nat :=
  match k with KindPrimary _ true => 1 | _ => 0 end.

Definition follow_weight (k : reaction) : nat :=
  match k with KDedup _ _ => 1 | _ => 0 end.

Definition promise_weight (pr : promise) : nat :=
  loading_weight (p_kind pr) + sum_list_with follow_weight (p_reactions pr).

Definition heap_weight (h : list promise) : nat :=
  sum_list_with promise_weight h.

Definition tasks_weight (ts : list (reaction * pstate)) : nat :=
  sum_list_with (λ t, follow_weight t.1) ts.

Definition outstanding (st : ResourceLoader) : nat :=
  heap_weight (heap st) + tasks_weight (tasks st).

(** From [st] to [st'], [_loaded] and what is outstanding have grown by no
    more than [_requested] has. *)
Definition spends (st st' : ResourceLoader) : Prop :=
  _loaded st' + outstanding st' + _requested st
  ≤ _loaded st + outstanding st + _requested st'.

Definition resets (a : action) : bool :=
  match a with Do_resetProgress => true | _ => false end.

(** What the [progress] events fired so far report: [_loaded] is at most
    one above [_requested]. *)
Definition progress_ok (st : ResourceLoader) : Prop :=
  ∀ l n, Fire_progress l n ∈ events st → l ≤ S n.

(** What has been counted as loaded, and what still stands to be, has been
    counted as requested. *)
Definition balanced (st : ResourceLoader) : Prop :=
  _loaded st + outstanding st ≤ _requested st.

(** From a balanced loader whose events are in order, so is [st']. *)
Definition fair (st st' : ResourceLoader) : Prop :=
  balanced st → progress_ok st → balanced st' ∧ progress_ok st'.

(** ** Nested packs *)

(** A handler for packs that nest: opening the pack ["root"] requests the
    pack ["branch"] and an image as children; opening any other pack
    requests one image. *)
Definition tree_handler : ResourceHandler :=
  mk_handler
    (λ data q,
       if decide (r_identifier q = "root") then
         Opened [[pack_request "branch"; image_request "c.png"]]
           (Return (VObj ["Pack"] 1))
       else
         Opened [[image_request "g.png"]] (Return (VObj ["Pack"] 2)))
    (λ v q, v).





(** ** Counting requests *)

(** The completions: the outcome of a load, and a queued callback. *)
Definition is_completion (a : action) : bool :=
  match a with
  | Load_done _ _ | Load_failed _ _ | Tick => true
  | _ => false
  end.

(** The number of requests the handler's [open] makes when the data [data]
    arrives for the load behind [p]. *)
Definition nested_count (st : ResourceLoader) (p : nat) (data : value) : nat :=
  match loading_request st p with
  | Some r =>
      match _handlers st !! r_type (obj st r) with
      | Some h => length (concat (o_nested (h_open h data (obj st r))))
      | None => 0
      end
  | None => 0
  end.

(** From [st] to [st'], [n] requests were counted as requested, and
    [_loaded] did not decrease. *)
Definition counted (n : nat) (st st' : ResourceLoader) : Prop :=
  _requested st' = _requested st + n ∧ _loaded st ≤ _loaded st'.

(** Two images and the pack ["root"] are requested in one call, and the
    two images arrive ... *)
Definition progress_before_run : list action :=
  [Do_registerHandler "pack" tree_handler;
   Do_registerHandler "image" image_handler;
   Do_new (image_request "/a.png");
   Do_new (image_request "/b.png");
   Do_new (pack_request "root");
   Do_request [0; 1; 2] None;
   Load_done 1 (VStr "pixels");
   Load_done 2 (VStr "pixels")].

(** ... and then the pack, whose [open] requests two children. *)
Definition progress_run : list action :=
  progress_before_run ++ [Load_done 3 (VStr "root data")].

(** ** Requests for cached resources *)

(** An image is in the cache under the hash of ["/a.png"] ... *)
Definition cached_setup_run : list action :=
  [Do_registerHandler "image" image_handler;
   Do_registerHash "h1" "/a.png";
   Do_addToCache "/a.png" (VObj ["Image"] 1)].

(** ... an image is requested for ["/a.png"], and then a texture, and
    every callback runs. *)
Definition stale_hit_run : list action :=
  cached_setup_run ++
  [Do_new (image_request "/a.png");
   Do_request [0] None;
   Do_new (texture_request "/a.png");
   Do_request [1] None;
   Tick; Tick; Tick; Tick; Tick].





(* ================================================================== *)
(** * Properties *)
(* ================================================================== *)

(** ** Truthiness *)

Lemma truthy_string_true s : truthy_string s = true ↔ s ≠ "".
Proof. unfold truthy_string. case_decide; split; congruence. Qed.

Lemma truthy_string_ne s : s ≠ "" → truthy_string s = true.
Proof. apply truthy_string_true. Qed.

Lemma truthy_entry_Some s : s ≠ "" → truthy_entry (Some s) = true.
Proof. apply truthy_string_ne. Qed.

(** ** The hash registry *)

Section registry.
Implicit Types (st : ResourceLoader) (hash identifier : string).

Lemma registerHash_hashes hash identifier st :
  _hashes (registerHash hash identifier st) =
    if truthy_entry (_hashes st !! identifier) then _hashes st
    else <[identifier := hash]> (_hashes st).
Proof.
  unfold registerHash.
  destruct (truthy_entry (_hashes st !! identifier));
    destruct (truthy_entry (_canonicals _ !! hash)); reflexivity.
Qed.

Lemma registerHash_canonicals hash identifier st :
  _canonicals (registerHash hash identifier st) =
    if truthy_entry (_canonicals st !! hash) then _canonicals st
    else <[hash := identifier]> (_canonicals st).
Proof.
  unfold registerHash.
  destruct (truthy_entry (_hashes st !! identifier)); simpl;
    destruct (truthy_entry (_canonicals st !! hash)); reflexivity.
Qed.

Lemma registerHash_keeps_hash hash identifier st i h :
  _hashes st !! i = Some h → h ≠ "" →
  _hashes (registerHash hash identifier st) !! i = Some h.
Proof.
  intros Hi Hh. rewrite registerHash_hashes.
  destruct (truthy_entry (_hashes st !! identifier)) eqn:E; [done|].
  destruct (decide (identifier = i)) as [->|Hne].
  - rewrite Hi, truthy_entry_Some in E; done.
  - by rewrite lookup_insert_ne.
Qed.

Lemma registerHash_keeps_canonical hash identifier st h a :
  _canonicals st !! h = Some a → a ≠ "" →
  _canonicals (registerHash hash identifier st) !! h = Some a.
Proof.
  intros Hh Ha. rewrite registerHash_canonicals.
  destruct (truthy_entry (_canonicals st !! hash)) eqn:E; [done|].
  destruct (decide (hash = h)) as [->|Hne].
  - rewrite Hh, truthy_entry_Some in E; done.
  - by rewrite lookup_insert_ne.
Qed.

Lemma register_all_keeps_canonical later st h a :
  _canonicals st !! h = Some a → a ≠ "" →
  _canonicals (register_all later st) !! h = Some a.
Proof.
  revert st. induction later as [|[h' i'] later IH]; intros st Hh Ha; [done|].
  simpl. apply IH; [|done]. by apply registerHash_keeps_canonical.
Qed.

Lemma loader_eq st1 st2 :
  _handlers st1 = _handlers st2 → _requests st1 = _requests st2 →
  _cache st1 = _cache st2 → _hashes st1 = _hashes st2 →
  _canonicals st1 = _canonicals st2 → _requested st1 = _requested st2 →
  _loaded st1 = _loaded st2 → _sequence st1 = _sequence st2 →
  objects st1 = objects st2 → heap st1 = heap st2 → tasks st1 = tasks st2 →
  events st1 = events st2 → st1 = st2.
Proof. destruct st1, st2; simpl; intros; subst; reflexivity. Qed.

Lemma registerHash_idempotent hash identifier st :
  registerHash hash identifier (registerHash hash identifier st) =
  registerHash hash identifier st.
Proof.
  apply loader_eq;
    try (unfold registerHash;
         repeat match goal with
                | |- context [truthy_entry ?o] => destruct (truthy_entry o)
                end; reflexivity).
  - rewrite (registerHash_hashes _ _ (registerHash _ _ _)).
    destruct (truthy_entry (_hashes (registerHash _ _ _) !! _)) eqn:E; [done|].
    rewrite registerHash_hashes in E |- *.
    destruct (truthy_entry (_hashes st !! identifier)) eqn:E'; [congruence|].
    by rewrite insert_insert_eq.
  - rewrite (registerHash_canonicals _ _ (registerHash _ _ _)).
    destruct (truthy_entry (_canonicals (registerHash _ _ _) !! _)) eqn:E;
      [done|].
    rewrite registerHash_canonicals in E |- *.
    destruct (truthy_entry (_canonicals st !! hash)) eqn:E'; [congruence|].
    by rewrite insert_insert_eq.
Qed.

(** C6.  The first identifier registered against a hash [h] that had no
    canonical identifier stays the canonical identifier of [h] through any
    later [registerHash] calls; [registerHash] is idempotent, and a call
    never changes an identifier's hash or a hash's canonical identifier
    once they are set.  Identifiers and hashes are non-empty strings: the
    empty string is falsy, and the loader treats an entry holding it as
    missing. *)
Theorem registerHash_first_writer_wins st h a :
  a ≠ "" →
  truthy_entry (_canonicals st !! h) = false →
  (∀ later,
     _canonicals (register_all later (registerHash h a st)) !! h = Some a) ∧
  (∀ st' hash identifier,
     registerHash hash identifier (registerHash hash identifier st') =
     registerHash hash identifier st') ∧
  (∀ st' hash identifier i h0,
     _hashes st' !! i = Some h0 → h0 ≠ "" →
     _hashes (registerHash hash identifier st') !! i = Some h0) ∧
  (∀ st' hash identifier h0 c,
     _canonicals st' !! h0 = Some c → c ≠ "" →
     _canonicals (registerHash hash identifier st') !! h0 = Some c).
Proof.
  intros Ha Hfree. split_and!.
  - intros later. apply register_all_keeps_canonical; [|done].
    rewrite registerHash_canonicals, Hfree. apply lookup_insert_eq.
  - intros. apply registerHash_idempotent.
  - intros. by apply registerHash_keeps_hash.
  - intros. by apply registerHash_keeps_canonical.
Qed.

Lemma registerHash_first_writer_wins_witness :
  _canonicals
    (register_all [("h1", "/b.png"); ("h2", "/a.png"); ("h1", "/c.png")]
       (registerHash "h1" "/a.png" new_ResourceLoader)) !! "h1"
  = Some "/a.png".
Proof.
  refine (proj1 (registerHash_first_writer_wins new_ResourceLoader
                   "h1" "/a.png" _ _) _).
  - discriminate.
  - reflexivity.
Defined.

(** C9.  When [i] already has a hash [h0] other than [h] and [h] has no
    canonical identifier, [registerHash(h, i)] keeps [i]'s hash and still
    makes [i] the canonical identifier of [h]: the canonical identifier of
    [h] is then an identifier whose own hash is not [h]. *)
Theorem registerHash_independent_updates st h i h0 :
  getHash st i = Some h0 → h0 ≠ "" → h0 ≠ h →
  truthy_entry (_canonicals st !! h) = false →
  getHash (registerHash h i st) i = Some h0 ∧
  _canonicals (registerHash h i st) !! h = Some i ∧
  getHash (registerHash h i st) i ≠ Some h.
Proof.
  unfold getHash. intros Hi Hh0 Hne Hfree.
  rewrite registerHash_hashes, registerHash_canonicals, Hfree, Hi.
  rewrite truthy_entry_Some by done. rewrite Hi, lookup_insert_eq.
  split_and!; congruence.
Qed.

Lemma registerHash_independent_updates_witness :
  let st := registerHash "h1" "/a.png" new_ResourceLoader in
  getHash (registerHash "h2" "/a.png" st) "/a.png" = Some "h1" ∧
  _canonicals (registerHash "h2" "/a.png" st) !! "h2" = Some "/a.png" ∧
  getHash (registerHash "h2" "/a.png" st) "/a.png" ≠ Some "h2".
Proof.
  apply (registerHash_independent_updates
           (registerHash "h1" "/a.png" new_ResourceLoader) "h2" "/a.png" "h1").
  - reflexivity.
  - discriminate.
  - discriminate.
  - reflexivity.
Defined.

(** C4 (what the code does).  [unregisterHash(i)] removes the canonical
    identifier of [i]'s hash whatever that identifier is: also when it is
    another identifier [c], which stays registered against the hash. *)
Theorem unregisterHash_drops_other_canonical st i h c :
  getHash st i = Some h → h ≠ "" →
  _canonicals st !! h = Some c → c ≠ i → getHash st c = Some h →
  getHash (unregisterHash i st) i = None ∧
  _canonicals (unregisterHash i st) !! h = None ∧
  getHash (unregisterHash i st) c = Some h.
Proof.
  intros Hi Hh Hc Hne Hch. unfold unregisterHash. rewrite Hi.
  rewrite (truthy_string_ne _ Hh). unfold getHash in *. simpl.
  rewrite !lookup_delete_eq. by rewrite lookup_delete_ne.
Qed.

Lemma unregisterHash_drops_other_canonical_witness :
  let st :=
    registerHash "h1" "/b.png" (registerHash "h1" "/a.png" new_ResourceLoader)
  in
  _canonicals st !! "h1" = Some "/a.png" ∧
  getHash (unregisterHash "/b.png" st) "/b.png" = None ∧
  _canonicals (unregisterHash "/b.png" st) !! "h1" = None ∧
  getHash (unregisterHash "/b.png" st) "/a.png" = Some "h1".
Proof.
  split; [reflexivity|].
  apply (unregisterHash_drops_other_canonical
           (registerHash "h1" "/b.png"
              (registerHash "h1" "/a.png" new_ResourceLoader))
           "/b.png" "h1" "/a.png");
    [reflexivity|discriminate|reflexivity|discriminate|reflexivity].
Defined.

End registry.

(** ** Registries built by [registerHash] *)

Section hashed.
Implicit Types (st : ResourceLoader).

Lemma canonicals_hashed_new : canonicals_hashed new_ResourceLoader.
Proof. intros h c Hc. simpl in Hc. by rewrite lookup_empty in Hc. Qed.

Lemma canonicals_hashed_frame st st' :
  _hashes st' = _hashes st → _canonicals st' = _canonicals st →
  canonicals_hashed st → canonicals_hashed st'.
Proof.
  intros Hh Hc H h c. unfold getHash. rewrite Hh, Hc. apply H.
Qed.

Lemma canonicals_hashed_registerHash hash identifier st :
  hash ≠ "" → canonicals_hashed st →
  canonicals_hashed (registerHash hash identifier st).
Proof.
  intros Hne H h c. unfold getHash.
  rewrite registerHash_hashes, registerHash_canonicals.
  assert (Hold : ∀ c', c' ≠ "" →
            (∃ h', _hashes st !! c' = Some h' ∧ h' ≠ "") →
            ∃ h',
              (if truthy_entry (_hashes st !! identifier) then _hashes st
               else <[identifier:=hash]> (_hashes st)) !! c' = Some h' ∧
              h' ≠ "").
  { intros c' _ (h' & Hh' & Hne').
    destruct (truthy_entry (_hashes st !! identifier)) eqn:E; [eauto|].
    destruct (decide (identifier = c')) as [->|Hd].
    - rewrite Hh', truthy_entry_Some in E; done.
    - exists h'. by rewrite lookup_insert_ne. }
  destruct (truthy_entry (_canonicals st !! hash)) eqn:Ec.
  - intros Hc Hcne. apply Hold; [done|]. by apply (H h c).
  - destruct (decide (hash = h)) as [->|Hd].
    + rewrite lookup_insert_eq. intros [= <-] Hine.
      destruct (truthy_entry (_hashes st !! identifier)) eqn:E.
      * destruct (_hashes st !! identifier) as [h0|] eqn:E0; [|done].
        exists h0. split; [done|]. intros ->. done.
      * exists h. by rewrite lookup_insert_eq.
    + rewrite lookup_insert_ne by done. intros Hc Hcne.
      apply Hold; [done|]. by apply (H h c).
Qed.

Lemma canonicals_hashed_register_all later st :
  Forall (λ hi, hi.1 ≠ "") later → canonicals_hashed st →
  canonicals_hashed (register_all later st).
Proof.
  revert st. induction later as [|[h i] later IH]; intros st Hl H; [done|].
  apply Forall_cons in Hl as [Hh Hl]. simpl. apply IH; [done|].
  by apply canonicals_hashed_registerHash.
Qed.

(** The canonical identifier of an identifier with a hash has a hash. *)
Lemma canonical_of_hashed st identifier hash :
  canonicals_hashed st → getHash st identifier = Some hash → hash ≠ "" →
  ∃ h', getHash st (canonical_of st identifier) = Some h' ∧ h' ≠ "".
Proof.
  intros H Hh Hne. unfold canonical_of. rewrite Hh.
  rewrite (truthy_string_ne _ Hne). simpl.
  destruct (_canonicals st !! hash) as [c|] eqn:Hc; simpl; [|eauto].
  destruct (truthy_string c) eqn:Hc'; [|eauto]. simpl.
  apply (H hash c Hc). intros ->. done.
Qed.

End hashed.

(** ** Reading the two heaps after an update *)

Section views.
Implicit Types (os : list ResourceRequest) (h : list promise).

Lemma obj_at_alter os r f r' :
  obj_at (alter f r os) r' =
    if decide (r' = r ∧ r < length os) then f (obj_at os r)
    else obj_at os r'.
Proof.
  unfold obj_at. case_decide as H.
  - destruct H as [-> H]. rewrite list_lookup_alter_eq.
    destruct (lookup_lt_is_Some_2 _ _ H) as [q ->]. done.
  - destruct (decide (r' = r)) as [->|Hne].
    + rewrite list_lookup_alter_eq. rewrite lookup_ge_None_2; [done|lia].
    + by rewrite list_lookup_alter_ne.
Qed.

Lemma obj_at_alter_eq os r f :
  r < length os → obj_at (alter f r os) r = f (obj_at os r).
Proof. intros. rewrite obj_at_alter. by rewrite decide_True. Qed.

Lemma obj_at_alter_ne os r f r' :
  r' ≠ r → obj_at (alter f r os) r' = obj_at os r'.
Proof. intros. rewrite obj_at_alter. rewrite decide_False; [done|tauto]. Qed.

(** A field that the update does not touch reads the same everywhere. *)
Lemma obj_at_alter_field {A} (g : ResourceRequest → A) os r f r' :
  (∀ q, g (f q) = g q) → g (obj_at (alter f r os) r') = g (obj_at os r').
Proof.
  intros Hg. rewrite obj_at_alter. case_decide as H; [|done].
  destruct H as [-> _]. apply Hg.
Qed.

Lemma obj_at_app_old os q r : r < length os → obj_at (os ++ [q]) r = obj_at os r.
Proof. intros. unfold obj_at. by rewrite lookup_app_l. Qed.

Lemma obj_at_app_new os q : obj_at (os ++ [q]) (length os) = q.
Proof. unfold obj_at. by rewrite lookup_app_r, Nat.sub_diag by lia. Qed.

Lemma obj_at_invalid os r : length os ≤ r → obj_at os r = no_request.
Proof. intros. unfold obj_at. by rewrite lookup_ge_None_2. Qed.

Lemma state_at_app_old h pr p : p < length h → state_at (h ++ [pr]) p = state_at h p.
Proof. intros. unfold state_at. by rewrite lookup_app_l. Qed.

Lemma state_at_app_new h pr : state_at (h ++ [pr]) (length h) = p_state pr.
Proof. unfold state_at. by rewrite lookup_app_r, Nat.sub_diag by lia. Qed.

Lemma state_at_invalid h p : length h ≤ p → state_at h p = Pending.
Proof. intros. unfold state_at. by rewrite lookup_ge_None_2. Qed.

Lemma state_at_valid h p : state_at h p ≠ Pending → p < length h.
Proof.
  intros Hs. destruct (decide (p < length h)); [done|].
  rewrite state_at_invalid in Hs by lia. done.
Qed.

Lemma kind_at_app_old h pr p : p < length h → kind_at (h ++ [pr]) p = kind_at h p.
Proof. intros. unfold kind_at. by rewrite lookup_app_l. Qed.

Lemma kind_at_app_new h pr : kind_at (h ++ [pr]) (length h) = Some (p_kind pr).
Proof. unfold kind_at. by rewrite lookup_app_r, Nat.sub_diag by lia. Qed.

Lemma kind_at_valid h p k : kind_at h p = Some k → p < length h.
Proof.
  unfold kind_at. intros Hk. apply lookup_lt_is_Some.
  destruct (h !! p); [eauto|done].
Qed.

Lemma kind_at_invalid h p : length h ≤ p → kind_at h p = None.
Proof. intros. unfold kind_at. by rewrite lookup_ge_None_2. Qed.

Lemma reactions_at_app_old h pr p :
  p < length h → reactions_at (h ++ [pr]) p = reactions_at h p.
Proof. intros. unfold reactions_at. by rewrite lookup_app_l. Qed.

Lemma reactions_at_app_new h pr : reactions_at (h ++ [pr]) (length h) = p_reactions pr.
Proof. unfold reactions_at. by rewrite lookup_app_r, Nat.sub_diag by lia. Qed.

Lemma reactions_at_invalid h p : length h ≤ p → reactions_at h p = [].
Proof. intros. unfold reactions_at. by rewrite lookup_ge_None_2. Qed.

Lemma state_at_alter h f p q :
  state_at (alter f p h) q =
    if decide (q = p ∧ p < length h) then
      p_state (f (Promise (state_at h p) (reactions_at h p)
                    (default (KindOuter None) (kind_at h p))))
    else state_at h q.
Proof.
  unfold state_at, reactions_at, kind_at. case_decide as H.
  - destruct H as [-> H]. rewrite list_lookup_alter_eq.
    destruct (lookup_lt_is_Some_2 _ _ H) as [[] ->]. done.
  - destruct (decide (q = p)) as [->|Hne].
    + rewrite list_lookup_alter_eq. rewrite lookup_ge_None_2; [done|lia].
    + by rewrite list_lookup_alter_ne.
Qed.

Lemma kind_at_alter h f p q :
  kind_at (alter f p h) q =
    if decide (q = p ∧ p < length h) then
      Some (p_kind (f (Promise (state_at h p) (reactions_at h p)
                         (default (KindOuter None) (kind_at h p)))))
    else kind_at h q.
Proof.
  unfold state_at, reactions_at, kind_at. case_decide as H.
  - destruct H as [-> H]. rewrite list_lookup_alter_eq.
    destruct (lookup_lt_is_Some_2 _ _ H) as [[] ->]. done.
  - destruct (decide (q = p)) as [->|Hne].
    + rewrite list_lookup_alter_eq. rewrite lookup_ge_None_2; [done|lia].
    + by rewrite list_lookup_alter_ne.
Qed.

Lemma reactions_at_alter h f p q :
  reactions_at (alter f p h) q =
    if decide (q = p ∧ p < length h) then
      p_reactions (f (Promise (state_at h p) (reactions_at h p)
                        (default (KindOuter None) (kind_at h p))))
    else reactions_at h q.
Proof.
  unfold state_at, reactions_at, kind_at. case_decide as H.
  - destruct H as [-> H]. rewrite list_lookup_alter_eq.
    destruct (lookup_lt_is_Some_2 _ _ H) as [[] ->]. done.
  - destruct (decide (q = p)) as [->|Hne].
    + rewrite list_lookup_alter_eq. rewrite lookup_ge_None_2; [done|lia].
    + by rewrite list_lookup_alter_ne.
Qed.

(** Settling. *)
Lemma is_pending_true s : is_pending s = true ↔ s = Pending.
Proof. destruct s; simpl; split; congruence. Qed.


Lemma state_at_settle h p s q :
  state_at (settle_heap p s h) q =
    if decide (q = p ∧ p < length h ∧ is_pending (state_at h p)) then s
    else state_at h q.
Proof.
  unfold settle_heap. destruct (is_pending (state_at h p)) eqn:E; simpl.
  - rewrite state_at_alter. simpl.
    repeat case_decide; try done; tauto.
  - rewrite decide_False; [done|]. intros (_ & _ & ?). done.
Qed.

Lemma kind_at_settle h p s q : kind_at (settle_heap p s h) q = kind_at h q.
Proof.
  unfold settle_heap. destruct (is_pending _); [|done].
  rewrite kind_at_alter. case_decide as H; [|done]. destruct H as [-> H].
  simpl. unfold kind_at.
  destruct (lookup_lt_is_Some_2 _ _ H) as [pr ->]. done.
Qed.

Lemma length_settle h p s : length (settle_heap p s h) = length h.
Proof.
  unfold settle_heap. destruct (is_pending _); [|done]. apply length_alter.
Qed.

Lemma reactions_at_settle h p s q :
  reactions_at (settle_heap p s h) q =
    if decide (q = p ∧ is_pending (state_at h p)) then []
    else reactions_at h q.
Proof.
  unfold settle_heap. destruct (is_pending (state_at h p)) eqn:E; simpl.
  - rewrite reactions_at_alter. simpl.
    repeat case_decide; try done; try tauto.
    destruct (decide (q = p)) as [->|]; [|tauto].
    apply reactions_at_invalid. lia.
  - rewrite decide_False; [done|]. intros (_ & ?). done.
Qed.

(** Subscribing. *)
Lemma state_at_then h p k q : state_at (then_heap p k h) q = state_at h q.
Proof.
  unfold then_heap. destruct (is_pending _); [|done].
  rewrite state_at_alter. case_decide as H; [|done]. by destruct H as [-> H].
Qed.

Lemma kind_at_then h p k q : kind_at (then_heap p k h) q = kind_at h q.
Proof.
  unfold then_heap. destruct (is_pending _); [|done].
  rewrite kind_at_alter. case_decide as H; [|done]. destruct H as [-> H].
  simpl. unfold kind_at.
  destruct (lookup_lt_is_Some_2 _ _ H) as [pr ->]. done.
Qed.

Lemma length_then h p k : length (then_heap p k h) = length h.
Proof.
  unfold then_heap. destruct (is_pending _); [|done]. apply length_alter.
Qed.

Lemma reactions_at_then h p k q :
  reactions_at (then_heap p k h) q =
    if decide (q = p ∧ p < length h ∧ is_pending (state_at h p))
    then reactions_at h p ++ [k]
    else reactions_at h q.
Proof.
  unfold then_heap. destruct (is_pending (state_at h p)) eqn:E; simpl.
  - rewrite reactions_at_alter. simpl.
    repeat case_decide; try done; tauto.
  - rewrite decide_False; [done|]. intros (_ & _ & ?). done.
Qed.

(** Changing the kind. *)
Lemma state_at_set_kind h p k q :
  state_at (alter (λ pr, Promise (p_state pr) (p_reactions pr) k) p h) q
  = state_at h q.
Proof.
  rewrite state_at_alter. case_decide as H; [|done]. by destruct H as [-> H].
Qed.

Lemma reactions_at_set_kind h p k q :
  reactions_at (alter (λ pr, Promise (p_state pr) (p_reactions pr) k) p h) q
  = reactions_at h q.
Proof.
  rewrite reactions_at_alter. case_decide as H; [|done]. by destruct H as [-> H].
Qed.

Lemma kind_at_set_kind h p k q :
  kind_at (alter (λ pr, Promise (p_state pr) (p_reactions pr) k) p h) q
  = if decide (q = p ∧ p < length h) then Some k else kind_at h q.
Proof. by rewrite kind_at_alter. Qed.

End views.

(** ** Monotonicity along [grows] *)

Section monotone.
Context {os h os' h'} (G : grows os h os' h').

Lemma grows_fulfilled p v : state_at h p = Fulfilled v → state_at h' p = Fulfilled v.
Proof. intros H. rewrite (g_state _ _ _ _ G); [done|]. by rewrite H. Qed.

Lemma grows_head r p :
  head (r_promises (obj_at os r)) = Some p →
  head (r_promises (obj_at os' r)) = Some p.
Proof.
  intros H. destruct (g_promises _ _ _ _ G r) as [k ->].
  destruct (r_promises (obj_at os r)); [done|]. done.
Qed.

Lemma grows_primary_done r : primary_done os h r → primary_done os' h' r.
Proof.
  intros (p & v & Hp & Hv). exists p, v. split.
  - by apply grows_head.
  - by apply grows_fulfilled.
Qed.

Lemma grows_all_done R : all_done os h R → all_done os' h' R.
Proof. intros H r Hr. apply grows_primary_done, H, Hr. Qed.

Lemma grows_child r c : child os r c → child os' r c.
Proof.
  unfold child. intros H. destruct (g_children _ _ _ _ G r) as [k ->].
  apply elem_of_app. by left.
Qed.

Lemma grows_rtc r d : rtc (child os) r d → rtc (child os') r d.
Proof.
  induction 1 as [|x y z Hxy _ IH]; [constructor|].
  econstructor; [|exact IH]. by apply grows_child.
Qed.

Lemma grows_descendant R d : descendant os R d → descendant os' R d.
Proof. intros (r & Hr & Hd). exists r. split; [done|]. by apply grows_rtc. Qed.

Lemma grows_results_ok ps v : results_ok h ps v → results_ok h' ps v.
Proof.
  intros (vs & -> & H). exists vs. split; [done|].
  eapply Forall2_impl; [exact H|]. intros p x. apply grows_fulfilled.
Qed.

Lemma primary_done_dec r : primary_done os h r ∨ ¬ primary_done os h r.
Proof.
  unfold primary_done.
  destruct (head (r_promises (obj_at os r))) as [p|] eqn:Hp.
  - destruct (state_at h p) as [|v|e] eqn:Hs.
    + right. intros (p' & v & [= <-] & ?). congruence.
    + left. eauto.
    + right. intros (p' & v & [= <-] & ?). congruence.
  - right. intros (p' & v & ? & ?). done.
Qed.

(** A path below [r] in the later heap either existed already, or leaves the
    earlier one at a request that was not done yet. *)
Lemma grows_path r d :
  rtc (child os') r d →
  rtc (child os) r d ∨
  ∃ x, rtc (child os) r x ∧ ¬ primary_done os h x ∧ rtc (child os') x d.
Proof.
  induction 1 as [|x y z Hxy Hyz IH]; [left; constructor|].
  destruct (primary_done_dec x) as [Hx|Hx].
  - assert (child os x y) as Hxy'.
    { unfold child in *. by rewrite <- (g_frozen _ _ _ _ G x Hx). }
    destruct IH as [IH|(w & Hw & Hnd & Hwz)].
    + left. by econstructor.
    + right. exists w. split_and!; [by econstructor|done|done].
  - right. exists x. split_and!; [constructor|done|by econstructor].
Qed.

Lemma bind_children_frozen R :
  all_done os h R →
  R ≫= (λ r, r_children (obj_at os' r)) = R ≫= (λ r, r_children (obj_at os r)).
Proof.
  induction R as [|r R IH]; intros HD; [done|].
  rewrite !bind_cons. f_equal.
  - apply (g_frozen _ _ _ _ G), HD. by left.
  - apply IH. intros x Hx. apply HD. by right.
Qed.

(** The levels of a call are final down to the first one that is not
    done. *)
Lemma grows_level R0 k :
  (∀ j, j < k → all_done os h (level os R0 j)) →
  level os' R0 k = level os R0 k.
Proof.
  induction k as [|k IH]; intros HD; [done|].
  cbn [level]. rewrite IH by (intros j Hj; apply HD; lia).
  apply bind_children_frozen, HD. lia.
Qed.

Lemma grows_frontier R0 R : frontier os h R0 R → frontier os' h' R0 R.
Proof.
  intros [HF (k & HR & HD)]. split.
  - intros d (r0 & Hr0 & Hd).
    destruct (grows_path _ _ Hd) as [Hd'|(x & Hx & Hnd & Hxd)].
    + destruct (HF d) as [?|?]; [by exists r0| |].
      * left. by apply grows_primary_done.
      * right. by apply grows_descendant.
    + destruct (HF x) as [?|(r & Hr & Hrx)]; [by exists r0|done|].
      right. exists r. split; [done|].
      etrans; [by apply grows_rtc|done].
  - exists k. split.
    + rewrite grows_level; [done|]. intros j Hj. by apply HD.
    + intros j Hj. rewrite grows_level.
      * by apply grows_all_done, HD.
      * intros i Hi. apply HD. lia.
Qed.

Lemma grows_subtree_settled R : subtree_settled os h R → subtree_settled os' h' R.
Proof.
  intros HS d (r0 & Hr0 & Hd).
  destruct (grows_path _ _ Hd) as [Hd'|(x & Hx & Hnd & Hxd)].
  - apply grows_primary_done, HS. by exists r0.
  - destruct Hnd. apply HS. by exists r0.
Qed.

Lemma grows_attachable q k : attachable os h q k → attachable os' h' q k.
Proof.
  pose proof (g_all _ _ _ _ G q) as Hq. destruct k as [r t|agg i|o R|o v R]; simpl.
  - intros [Ht Hh]. split; [by apply (g_follow _ _ _ _ G)|by apply grows_head].
  - intros (ps & res & Hk & Hi).
    destruct (g_all _ _ _ _ G _ _ _ Hk) as [res' Hk']. eauto.
  - intros (P & res & Hc & Hk).
    destruct (Hq _ _ Hk) as [res' Hk'].
    exists P, res'. split; [by apply (g_call _ _ _ _ G)|done].
  - intros (R0 & P0 & ps & res & Hc & Hres & HF & Hk & Hheads).
    destruct (Hq _ _ Hk) as [res' Hk'].
    exists R0, P0, ps, res'. split_and!.
    + by apply (g_call _ _ _ _ G).
    + by apply grows_results_ok.
    + by apply grows_frontier.
    + done.
    + intros c Hc'. destruct (Hheads c Hc') as (p & Hp & Hin).
      exists p. split; [by apply grows_head|done].
Qed.

Lemma grows_runnable k s : runnable os h k s → runnable os' h' k s.
Proof.
  destruct k as [r t|agg i|o R|o v R]; simpl.
  - intros [Ht Hd]. split; [by apply (g_follow _ _ _ _ G)|].
    intros v Hv. by apply grows_primary_done, (Hd v).
  - intros (ps & res & Hk & Hi).
    destruct (g_all _ _ _ _ G _ _ _ Hk) as [res' Hk'].
    exists ps, res'. split; [done|]. intros v Hv.
    destruct (Hi v Hv) as (q & Hq & Hs). exists q. split; [done|].
    by apply grows_fulfilled.
  - intros (P & Hc & Hres). exists P. split; [by apply (g_call _ _ _ _ G)|].
    intros v Hv. by apply grows_results_ok, Hres.
  - intros (R0 & P0 & Hc & Hres & HF & Hd).
    exists R0, P0. split_and!.
    + by apply (g_call _ _ _ _ G).
    + by apply grows_results_ok.
    + by apply grows_frontier.
    + intros w Hw. by apply grows_all_done, (Hd w).
Qed.

End monotone.

Lemma same_views_grows os h os' h' :
  same_views os h os' h' → grows os h os' h'.
Proof.
  intros [Hs Hk Hp Hc]. split.
  - intros p _. apply Hs.
  - intros p r l H. exists l. by rewrite Hk.
  - intros p r H. by rewrite Hk.
  - intros p ps res H. exists res. by rewrite Hk.
  - intros o c. unfold call_at. by rewrite Hk.
  - intros r. by rewrite Hp.
  - intros r. by rewrite Hc.
  - intros r _. apply Hc.
Qed.

Lemma same_views_sym os h os' h' :
  same_views os h os' h' → same_views os' h' os h.
Proof. intros [Hs Hk Hp Hc]. split; intros; symmetry; auto. Qed.

Lemma Inv_same_views os h ts os' h' ts' :
  same_views os h os' h' →
  (∀ q k, k ∈ reactions_at h' q → k ∈ reactions_at h q ∨ attachable os' h' q k) →
  (∀ k s, (k, s) ∈ ts' → (k, s) ∈ ts ∨ runnable os' h' k s) →
  Inv os h ts → Inv os' h' ts'.
Proof.
  intros SV Hre Hts I.
  pose proof (same_views_grows _ _ _ _ SV) as G.
  destruct SV as [Hs Hk Hp Hc].
  split.
  - intros q k Hin. destruct (Hre q k Hin) as [Hold|Hnew]; [|done].
    eapply grows_attachable; [exact G|]. by apply (inv_attached _ _ _ I).
  - intros k s Hin. destruct (Hts k s Hin) as [Hold|Hnew]; [|done].
    eapply grows_runnable; [exact G|]. by apply (inv_tasks _ _ _ I).
  - intros p r l. rewrite Hk, Hp, Hs. apply (inv_primary _ _ _ I).
  - intros p r. rewrite Hk, Hs. intros H.
    destruct (inv_follow _ _ _ I p r H) as [H1 H2]. split; [|done].
    intros v Hv. eapply grows_primary_done; [exact G|]. by eapply H1.
  - intros r p. rewrite Hp. setoid_rewrite Hk. apply (inv_head _ _ _ I).
  - intros r p. rewrite Hp, Hk. apply (inv_tail _ _ _ I).
  - intros agg ps res. rewrite Hk. intros H.
    destruct (inv_all _ _ _ I agg ps res H) as (H1 & H2 & H3).
    split_and!; [done| |].
    + intros i v Hi. destruct (H2 i v Hi) as (q & ? & ?).
      exists q. by rewrite Hs.
    + rewrite Hs. intros w Hw. eapply grows_results_ok; [exact G|]. auto.
  - intros o R0 P0. unfold call_at. rewrite Hk. intros H.
    destruct (inv_outer _ _ _ I o R0 P0 H) as [H1 H2]. split.
    + eapply Forall2_impl; [exact H1|]. intros r p. simpl. by rewrite Hp.
    + rewrite Hs. intros v Hv. destruct (H2 v Hv) as [H3 H4]. split.
      * eapply grows_results_ok; [exact G|]. auto.
      * eapply grows_subtree_settled; [exact G|]. auto.
  - intros o. rewrite Hk, Hs. apply (inv_unset _ _ _ I).
  - intros r c. rewrite Hc, Hp. apply (inv_children _ _ _ I).
Qed.

(** ** The invariant, step by step *)

Section primitives.
Implicit Types (os : list ResourceRequest) (h : list promise)
  (ts : list (reaction * pstate)).

(** From attached to queued, when the promise settles. *)
Lemma attach_run os h q k s :
  attachable os h q k → state_at h q = s →
  (∀ ps res w, kind_at h q = Some (KindAll ps res) → s = Fulfilled w →
     results_ok h ps w) →
  runnable os h k s.
Proof.
  intros Ha Hs Hall. destruct k as [r t|agg i|o R|o v R]; simpl in *.
  - destruct Ha as [Ht Hh]. split; [done|]. intros v ->. by exists q, v.
  - destruct Ha as (ps & res & Hk & Hi). exists ps, res. split; [done|].
    intros v ->. by exists q.
  - destruct Ha as (P & res & Hc & Hk). exists P. split; [done|].
    intros v ->. by eapply Hall.
  - destruct Ha as (R0 & P0 & ps & res & Hc & Hres & HF & Hk & Hheads).
    exists R0, P0. split_and!; [done..|]. intros w ->.
    destruct (Hall _ _ _ Hk eq_refl) as (vs & _ & Hvs).
    intros c Hc'. destruct (Hheads c Hc') as (p & Hp & Hin).
    apply list_elem_of_lookup in Hin as [i Hi].
    destruct (Forall2_lookup_l _ _ _ _ _ Hvs Hi) as (x & _ & Hx).
    by exists p, x.
Qed.

Lemma Inv_then os h ts q k :
  Inv os h ts → attachable os h q k →
  Inv os (then_heap q k h) (ts ++ then_tasks q k h).
Proof.
  intros I Ha.
  assert (SV : same_views os h os (then_heap q k h)).
  { split; intros; rewrite ?state_at_then, ?kind_at_then; done. }
  pose proof (same_views_grows _ _ _ _ SV) as G.
  eapply Inv_same_views; [exact SV| | |exact I].
  - intros q' k'. rewrite reactions_at_then. case_decide as Hd; [|auto].
    destruct Hd as (-> & _ & _). rewrite elem_of_app, list_elem_of_singleton.
    intros [?| ->]; [auto|]. right. by eapply grows_attachable.
  - intros k' s. rewrite elem_of_app. intros [?|Hin]; [auto|]. right.
    unfold then_tasks in Hin.
    destruct (is_pending (state_at h q)) eqn:Hp; [by apply elem_of_nil in Hin|].
    apply list_elem_of_singleton in Hin as [= -> ->].
    eapply grows_runnable; [exact G|].
    eapply attach_run; [exact Ha|done|].
    intros ps res w Hk Hw. by eapply (inv_all _ _ _ I).
Qed.

Lemma Inv_pop os h ts k s : Inv os h ((k, s) :: ts) → Inv os h ts ∧ runnable os h k s.
Proof.
  intros I. split.
  - destruct I as [I1 I2 I3 I4 I5 I6 I7 I8 I9 I10]. split; try done.
    intros k' s' Hin. apply I2. by right.
  - apply (inv_tasks _ _ _ I). by left.
Qed.

Lemma Inv_tasks_app os h ts ts' :
  Inv os h ts → (∀ k s, (k, s) ∈ ts' → runnable os h k s) → Inv os h (ts ++ ts').
Proof.
  intros I H. destruct I as [I1 I2 I3 I4 I5 I6 I7 I8 I9 I10]. split; try done.
  intros k s [?|?]%elem_of_app; auto.
Qed.

(** Objects: fields other than [promises] and [children], and new objects. *)
Lemma Inv_alter_other os h ts r f :
  (∀ q, r_promises (f q) = r_promises q) →
  (∀ q, r_children (f q) = r_children q) →
  Inv os h ts → Inv (alter f r os) h ts.
Proof.
  intros Hp Hc. apply Inv_same_views; [|auto..].
  split; intros; try done.
  - by apply (obj_at_alter_field r_promises).
  - by apply (obj_at_alter_field r_children).
Qed.

Lemma obj_at_app_fields os s r :
  r_promises (obj_at (os ++ [new_ResourceRequest s]) r) = r_promises (obj_at os r) ∧
  r_children (obj_at (os ++ [new_ResourceRequest s]) r) = r_children (obj_at os r).
Proof.
  destruct (decide (r < length os)).
  - by rewrite obj_at_app_old.
  - rewrite (obj_at_invalid os) by lia.
    destruct (decide (r = length os)) as [->|].
    + by rewrite obj_at_app_new.
    + rewrite obj_at_invalid; [done|]. rewrite length_app. simpl. lia.
Qed.

Lemma Inv_new_object os h ts s :
  Inv os h ts → Inv (os ++ [new_ResourceRequest s]) h ts.
Proof.
  apply Inv_same_views; [|auto..].
  split; intros; try done; apply obj_at_app_fields.
Qed.


(** Settling a promise. *)
Lemma call_at_settle h p s o : call_at (settle_heap p s h) o = call_at h o.
Proof. unfold call_at. by rewrite kind_at_settle. Qed.

Lemma grows_settle os h p s : grows os h os (settle_heap p s h).
Proof.
  split; intros; rewrite ?kind_at_settle, ?call_at_settle; eauto.
  rewrite state_at_settle. case_decide as Hd; [|done].
  destruct Hd as (-> & _ & Hp). apply Is_true_true, is_pending_true in Hp. done.
Qed.

Lemma Inv_settle os h ts p s :
  Inv os h ts → settle_ok os h p s →
  Inv os (settle_heap p s h) (ts ++ settle_tasks p s h).
Proof.
  intros I [Hs Hok].
  pose proof (grows_settle os h p s) as G.
  assert (Hst : ∀ q v, state_at (settle_heap p s h) q = Fulfilled v →
            state_at h q = Fulfilled v ∨ (q = p ∧ s = Fulfilled v)).
  { intros q v. rewrite state_at_settle. case_decide as Hd; [|auto].
    destruct Hd as (-> & _). auto. }
  split.
  - intros q k. rewrite reactions_at_settle. case_decide; [by intros ?%elem_of_nil|].
    intros Hin. eapply grows_attachable; [exact G|]. by apply (inv_attached _ _ _ I).
  - intros k s' [Hin|Hin]%elem_of_app.
    + eapply grows_runnable; [exact G|]. by apply (inv_tasks _ _ _ I).
    + unfold settle_tasks in Hin.
      destruct (is_pending (state_at h p)) eqn:Hp; [|by apply elem_of_nil in Hin].
      apply list_elem_of_fmap in Hin as (k' & [= -> ->] & Hin).
      assert (p < length h) as Hv.
      { destruct (decide (p < length h)); [done|].
        rewrite reactions_at_invalid in Hin by lia. by apply elem_of_nil in Hin. }
      eapply attach_run.
      * eapply grows_attachable; [exact G|]. by apply (inv_attached _ _ _ I).
      * rewrite state_at_settle. rewrite decide_True; [done|].
        split_and!; [done..|]. by apply Is_true_true.
      * intros ps res w. rewrite kind_at_settle. intros Hk Hw.
        rewrite Hk in Hok. eapply grows_results_ok; [exact G|]. auto.
  - intros p' r l. rewrite kind_at_settle. intros Hk.
    destruct (inv_primary _ _ _ I p' r l Hk) as [H1 H2]. split; [done|].
    intros ->. rewrite state_at_settle. case_decide as Hd; [|auto].
    destruct Hd as (-> & _). rewrite Hk in Hok. done.
  - intros p' r. rewrite kind_at_settle. intros Hk.
    destruct (inv_follow _ _ _ I p' r Hk) as [H1 H2]. split.
    + intros v [Hv|[-> ->]]%Hst.
      * eapply grows_primary_done; [exact G|]. eauto.
      * rewrite Hk in Hok. destruct Hok as (v' & _ & Hd).
        eapply grows_primary_done; [exact G|]. done.
    + intros e. rewrite state_at_settle. case_decide as Hd; [|auto].
      destruct Hd as (-> & _). rewrite Hk in Hok.
      destruct Hok as (v' & -> & _). done.
  - intros r p'. setoid_rewrite kind_at_settle. apply (inv_head _ _ _ I).
  - intros r p'. rewrite kind_at_settle. apply (inv_tail _ _ _ I).
  - intros agg ps res. rewrite kind_at_settle. intros Hk.
    destruct (inv_all _ _ _ I agg ps res Hk) as (H1 & H2 & H3).
    split_and!; [done| |].
    + intros i v Hi. destruct (H2 i v Hi) as (q & ? & ?). exists q.
      split; [done|]. by eapply grows_fulfilled.
    + intros w [Hw|[-> ->]]%Hst.
      * eapply grows_results_ok; [exact G|]. auto.
      * rewrite Hk in Hok. eapply grows_results_ok; [exact G|]. auto.
  - intros o R0 P0. rewrite call_at_settle. intros Hc.
    destruct (inv_outer _ _ _ I o R0 P0 Hc) as [H1 H2]. split; [done|].
    intros v [Hv|[-> ->]]%Hst.
    + destruct (H2 v Hv) as [H3 H4]. split.
      * eapply grows_results_ok; [exact G|]. auto.
      * eapply grows_subtree_settled; [exact G|]. auto.
    + unfold call_at in Hc. destruct (kind_at h p) as [[| | |c]|]; try done.
      destruct Hok as (R0' & P0' & -> & Hok). simplify_eq.
      destruct (Hok v eq_refl) as [H3 H4]. split.
      * eapply grows_results_ok; [exact G|]. auto.
      * eapply grows_subtree_settled; [exact G|]. auto.
  - intros o. rewrite kind_at_settle. intros Hk.
    rewrite state_at_settle. case_decide as Hd; [|by apply (inv_unset _ _ _ I)].
    destruct Hd as (-> & _). rewrite Hk in Hok.
    by destruct Hok as (? & ? & ? & _).
  - apply (inv_children _ _ _ I).
Qed.

(** A new pending promise that is not the primary promise of a request. *)
Lemma grows_alloc os h pr : grows os h os (h ++ [pr]).
Proof.
  split; intros; eauto.
  - rewrite state_at_app_old; [done|]. by apply state_at_valid.
  - exists l. rewrite kind_at_app_old; [done|]. by eapply kind_at_valid.
  - rewrite kind_at_app_old; [done|]. by eapply kind_at_valid.
  - exists res. rewrite kind_at_app_old; [done|]. by eapply kind_at_valid.
  - unfold call_at in *. destruct (kind_at h o) eqn:Hk; [|done].
    rewrite kind_at_app_old; [by rewrite Hk|]. by eapply kind_at_valid.
Qed.

Lemma kind_at_app_inv h pr p k :
  kind_at (h ++ [pr]) p = Some k →
  kind_at h p = Some k ∨ (p = length h ∧ k = p_kind pr).
Proof.
  intros Hk. destruct (decide (p < length h)).
  - left. by rewrite kind_at_app_old in Hk.
  - right. assert (p = length h) as ->.
    { apply kind_at_valid in Hk. rewrite length_app in Hk. simpl in Hk. lia. }
    rewrite kind_at_app_new in Hk. by simplify_eq.
Qed.

Lemma state_at_app_inv h pr p v :
  state_at (h ++ [pr]) p = Fulfilled v →
  state_at h p = Fulfilled v ∨ (p = length h ∧ p_state pr = Fulfilled v).
Proof.
  intros Hk. destruct (decide (p < length h)).
  - left. by rewrite state_at_app_old in Hk.
  - right. assert (p = length h) as ->.
    { assert (state_at (h ++ [pr]) p ≠ Pending) as Hv by by rewrite Hk.
      apply state_at_valid in Hv. rewrite length_app in Hv. simpl in Hv. lia. }
    by rewrite state_at_app_new in Hk.
Qed.

Lemma reactions_at_app_inv h st k p q :
  q ∈ reactions_at (h ++ [Promise st [] k]) p → q ∈ reactions_at h p.
Proof.
  intros Hin. destruct (decide (p < length h)).
  - by rewrite reactions_at_app_old in Hin.
  - destruct (decide (p = length h)) as [->|].
    + rewrite reactions_at_app_new in Hin. by apply elem_of_nil in Hin.
    + rewrite reactions_at_invalid in Hin; [by apply elem_of_nil in Hin|].
      rewrite length_app. simpl. lia.
Qed.


Lemma Inv_alloc os h ts k :
  Inv os h ts → alloc_ok k → Inv os (h ++ [Promise Pending [] k]) ts.
Proof.
  intros I Hok.
  pose proof (grows_alloc os h (Promise Pending [] k)) as G.
  split.
  - intros q k' Hin%reactions_at_app_inv.
    eapply grows_attachable; [exact G|]. by apply (inv_attached _ _ _ I).
  - intros k' s Hin. eapply grows_runnable; [exact G|].
    by apply (inv_tasks _ _ _ I).
  - intros p r l [Hk|[-> Hk]]%kind_at_app_inv.
    + destruct (inv_primary _ _ _ I p r l Hk) as [H1 H2]. split; [done|].
      intros Hl. rewrite state_at_app_old; [auto|]. by eapply kind_at_valid.
    + simpl in Hk. by subst k.
  - intros p r [Hk|[-> Hk]]%kind_at_app_inv.
    + destruct (inv_follow _ _ _ I p r Hk) as [H1 H2]. split.
      * intros v Hv. rewrite state_at_app_old in Hv by by eapply kind_at_valid.
        eapply grows_primary_done; [exact G|]. eauto.
      * intros e. rewrite state_at_app_old by by eapply kind_at_valid. done.
    + rewrite state_at_app_new. done.
  - intros r p Hh. destruct (inv_head _ _ _ I r p Hh) as [l Hl].
    by apply (g_primary _ _ _ _ G) in Hl.
  - intros r p Hh. by apply (g_follow _ _ _ _ G), (inv_tail _ _ _ I).
  - intros agg ps res [Hk|[-> Hk]]%kind_at_app_inv.
    + destruct (inv_all _ _ _ I agg ps res Hk) as (H1 & H2 & H3).
      split_and!; [done| |].
      * intros i v Hi. destruct (H2 i v Hi) as (q & ? & ?). exists q.
        split; [done|]. by eapply grows_fulfilled.
      * intros w Hw. rewrite state_at_app_old in Hw by by eapply kind_at_valid.
        eapply grows_results_ok; [exact G|]. auto.
    + simpl in Hk. subst k. simpl in Hok. subst res. split_and!.
      * by rewrite length_replicate.
      * intros i v Hi. apply lookup_replicate in Hi as [? _]. done.
      * rewrite state_at_app_new. done.
  - intros o R0 P0 Hc.
    assert (call_at h o = Some (R0, P0)) as Hc'.
    { unfold call_at in *.
      destruct (kind_at (h ++ _) o) as [k'|] eqn:Hk; [|done].
      apply kind_at_app_inv in Hk as [->|[-> ->]]; [done|].
      simpl in Hc. destruct k; try done. simpl in Hok. by subst. }
    destruct (inv_outer _ _ _ I o R0 P0 Hc') as [H1 H2]. split; [done|].
    intros v Hv. rewrite state_at_app_old in Hv.
    2:{ unfold call_at in Hc'. destruct (kind_at h o) eqn:Hk; [|done].
        by eapply kind_at_valid. }
    destruct (H2 v Hv) as [H3 H4]. split.
    + eapply grows_results_ok; [exact G|]. auto.
    + eapply grows_subtree_settled; [exact G|]. auto.
  - intros o [Hk|[-> Hk]]%kind_at_app_inv.
    + rewrite state_at_app_old by by eapply kind_at_valid.
      by apply (inv_unset _ _ _ I).
    + by rewrite state_at_app_new.
  - apply (inv_children _ _ _ I).
Qed.


(** Changing what a promise records. *)
Lemma call_at_set_kind h p k o :
  (∀ c, k ≠ KindOuter c) →
  (∀ c, kind_at h p ≠ Some (KindOuter c)) →
  call_at (alter (λ pr, Promise (p_state pr) (p_reactions pr) k) p h) o
  = call_at h o.
Proof.
  intros Hk Hp. unfold call_at. rewrite kind_at_set_kind.
  case_decide as Hd; [|done]. destruct Hd as [-> _].
  destruct k; try done; try by destruct (kind_at h p) as [[]|]; try done;
    exfalso; eapply Hp.
  by destruct (Hk call).
Qed.

Lemma Inv_set_kind os h ts p k :
  Inv os h ts → set_kind_ok h os p k →
  Inv os (alter (λ pr, Promise (p_state pr) (p_reactions pr) k) p h) ts.
Proof.
  intros I Hok. set (h' := alter _ p h).
  assert (Hvalid : p < length h).
  { unfold set_kind_ok in Hok. destruct (kind_at h p) eqn:Hk; [|done].
    by eapply kind_at_valid. }
  assert (Hkp : kind_at h' p = Some k).
  { subst h'. rewrite kind_at_set_kind. by rewrite decide_True. }
  assert (Hko : ∀ q, q ≠ p → kind_at h' q = kind_at h q).
  { intros q Hq. subst h'. rewrite kind_at_set_kind.
    rewrite decide_False; [done|]. tauto. }
  assert (Hs : ∀ q, state_at h' q = state_at h q).
  { intros q. apply state_at_set_kind. }
  assert (Hr : ∀ q, reactions_at h' q = reactions_at h q).
  { intros q. apply reactions_at_set_kind. }
  assert (G : grows os h os h').
  { split; try done.
    - intros q r l Hk. destruct (decide (q = p)) as [->|].
      + unfold set_kind_ok in Hok. rewrite Hk in Hok.
        destruct k; try done. destruct Hok as [-> _]. eauto.
      + exists l. by rewrite Hko.
    - intros q r Hk. destruct (decide (q = p)) as [->|].
      + unfold set_kind_ok in Hok. rewrite Hk in Hok. done.
      + by rewrite Hko.
    - intros q ps res Hk. destruct (decide (q = p)) as [->|].
      + unfold set_kind_ok in Hok. rewrite Hk in Hok.
        destruct k; try done. destruct Hok as [-> _]. eauto.
      + exists res. by rewrite Hko.
    - intros o c. unfold call_at. destruct (decide (o = p)) as [->|].
      + unfold set_kind_ok in Hok.
        destruct (kind_at h p) as [[| | |[]]|]; try done.
      + by rewrite Hko. }
  clearbody h'. split.
  - intros q k'. rewrite Hr. intros Hin.
    eapply grows_attachable; [exact G|]. by apply (inv_attached _ _ _ I).
  - intros k' s Hin. eapply grows_runnable; [exact G|].
    by apply (inv_tasks _ _ _ I).
  - intros q r l Hk. rewrite Hs. destruct (decide (q = p)) as [->|].
    + rewrite Hkp in Hk. simplify_eq. unfold set_kind_ok in Hok.
      destruct (kind_at h p) as [[r0 l0| | |[]]|] eqn:Hk0; try done.
      destruct Hok as [-> Hok].
      destruct (inv_primary _ _ _ I p r0 l0 Hk0) as [H1 H2]. done.
    + rewrite Hko in Hk by done. by apply (inv_primary _ _ _ I).
  - intros q r Hk. rewrite Hs. destruct (decide (q = p)) as [->|].
    + rewrite Hkp in Hk. simplify_eq. unfold set_kind_ok in Hok.
      destruct (kind_at h p) as [[| | |[]]|]; done.
    + rewrite Hko in Hk by done.
      destruct (inv_follow _ _ _ I q r Hk) as [H1 H2]. split; [|done].
      intros v Hv. eapply grows_primary_done; [exact G|]. eauto.
  - intros r q Hh. destruct (inv_head _ _ _ I r q Hh) as [l Hl].
    by apply (g_primary _ _ _ _ G) in Hl.
  - intros r q Hh. by apply (g_follow _ _ _ _ G), (inv_tail _ _ _ I).
  - intros agg ps res Hk. rewrite Hs. destruct (decide (agg = p)) as [->|].
    + rewrite Hkp in Hk. simplify_eq. unfold set_kind_ok in Hok.
      destruct (kind_at h p) as [[| |ps0 res0|[]]|] eqn:Hk0; try done.
      destruct Hok as (-> & i & q & v & -> & Hi & Hq).
      destruct (inv_all _ _ _ I p ps0 res0 Hk0) as (H1 & H2 & H3).
      split_and!.
      * by rewrite length_insert.
      * intros j w Hj. destruct (decide (j = i)) as [->|].
        -- rewrite list_lookup_insert_eq in Hj.
           2:{ rewrite H1. by eapply lookup_lt_Some. }
           simplify_eq. exists q. by rewrite Hs.
        -- rewrite list_lookup_insert_ne in Hj by done.
           destruct (H2 j w Hj) as (q' & ? & ?). exists q'. by rewrite Hs.
      * intros w Hw. eapply grows_results_ok; [exact G|]. auto.
    + rewrite Hko in Hk by done.
      destruct (inv_all _ _ _ I agg ps res Hk) as (H1 & H2 & H3).
      split_and!; [done| |].
      * intros i v Hi. destruct (H2 i v Hi) as (q & ? & ?). exists q.
        by rewrite Hs.
      * intros w Hw. eapply grows_results_ok; [exact G|]. auto.
  - intros o R0 P0 Hc. rewrite Hs. destruct (decide (o = p)) as [->|].
    + unfold call_at in Hc. rewrite Hkp in Hc. unfold set_kind_ok in Hok.
      destruct (kind_at h p) as [[| | |[]]|] eqn:Hk0; try done;
        destruct k as [| | |[[]|]]; try done; try by destruct Hok.
      simplify_eq. split; [done|].
      rewrite (inv_unset _ _ _ I p Hk0). done.
    + assert (call_at h o = Some (R0, P0)) as Hc'.
      { unfold call_at in *. by rewrite Hko in Hc. }
      destruct (inv_outer _ _ _ I o R0 P0 Hc') as [H1 H2]. split; [done|].
      intros v Hv. destruct (H2 v Hv) as [H3 H4]. split.
      * eapply grows_results_ok; [exact G|]. auto.
      * eapply grows_subtree_settled; [exact G|]. auto.
  - intros o Hk. rewrite Hs. destruct (decide (o = p)) as [->|].
    + rewrite Hkp in Hk. simplify_eq. unfold set_kind_ok in Hok.
      destruct (kind_at h p) as [[| | |[]]|]; done.
    + rewrite Hko in Hk by done. by apply (inv_unset _ _ _ I).
  - apply (inv_children _ _ _ I).
Qed.


(** Pushing on [request.promises] and on [request.children]. *)
Lemma prefix_ne_nil {A} (l k : list A) : l `prefix_of` k → l ≠ [] → k ≠ [].
Proof. intros [m ->] Hl. by destruct l. Qed.

Lemma Inv_objects_grow os os' h ts :
  Inv os h ts → grows os h os' h →
  (∀ r p, head (r_promises (obj_at os' r)) = Some p →
     head (r_promises (obj_at os r)) = Some p) →
  (∀ r p, p ∈ tail (r_promises (obj_at os' r)) →
     p ∈ tail (r_promises (obj_at os r)) ∨ kind_at h p = Some (KindFollow r)) →
  (∀ r c, c ∈ r_children (obj_at os' r) →
     c ∈ r_children (obj_at os r) ∨ r_promises (obj_at os c) ≠ []) →
  Inv os' h ts.
Proof.
  intros I G Hhead Htail Hch. split.
  - intros q k Hin. eapply grows_attachable; [exact G|].
    by apply (inv_attached _ _ _ I).
  - intros k s Hin. eapply grows_runnable; [exact G|].
    by apply (inv_tasks _ _ _ I).
  - intros p r l Hk. destruct (inv_primary _ _ _ I p r l Hk) as [H1 H2].
    split; [|done]. by eapply grows_head.
  - intros p r Hk. destruct (inv_follow _ _ _ I p r Hk) as [H1 H2].
    split; [|done]. intros v Hv. eapply grows_primary_done; [exact G|]. eauto.
  - intros r p Hh. by apply (inv_head _ _ _ I), Hhead.
  - intros r p Hin. destruct (Htail r p Hin) as [?|?]; [|done].
    by apply (inv_tail _ _ _ I).
  - apply (inv_all _ _ _ I).
  - intros o R0 P0 Hc. destruct (inv_outer _ _ _ I o R0 P0 Hc) as [H1 H2].
    split.
    + eapply Forall2_impl; [exact H1|]. intros r p Hin. simpl in *.
      destruct (g_promises _ _ _ _ G r) as [k ->]. apply elem_of_app. auto.
    + intros v Hv. destruct (H2 v Hv) as [H3 H4]. split; [done|].
      eapply grows_subtree_settled; [exact G|]. auto.
  - apply (inv_unset _ _ _ I).
  - intros r c Hin. eapply prefix_ne_nil; [apply (g_promises _ _ _ _ G)|].
    destruct (Hch r c Hin) as [?|?]; [|done]. by eapply (inv_children _ _ _ I).
Qed.

Lemma Inv_push_promise os h ts r p :
  Inv os h ts → kind_at h p = Some (KindFollow r) →
  r_promises (obj_at os r) ≠ [] →
  Inv (alter (λ q, set_r_promises (r_promises q ++ [p]) q) r os) h ts.
Proof.
  intros I Hk Hne. set (os' := alter _ r os).
  assert (Hc : ∀ r', r_children (obj_at os' r') = r_children (obj_at os r')).
  { intros r'. by apply (obj_at_alter_field r_children). }
  assert (Hp : ∀ r', r_promises (obj_at os' r') = r_promises (obj_at os r') ∨
            (r' = r ∧ r_promises (obj_at os' r') = r_promises (obj_at os r) ++ [p])).
  { intros r'. subst os'. rewrite obj_at_alter. case_decide as Hd; [|auto].
    destruct Hd as [-> _]. auto. }
  clearbody os'.
  eapply Inv_objects_grow; [exact I| | | |].
  - split; try done; eauto.
    + intros r'. destruct (Hp r') as [->|[-> ->]]; [done|]. by apply prefix_app_r.
    + intros r'. by rewrite Hc.
  - intros r' q. destruct (Hp r') as [->|[-> ->]]; [done|].
    by destruct (r_promises (obj_at os r)).
  - intros r' q. destruct (Hp r') as [->|[-> ->]]; [auto|].
    destruct (r_promises (obj_at os r)) as [|p0 l]; [done|]. simpl.
    rewrite elem_of_app, list_elem_of_singleton. intros [?| ->]; auto.
  - intros r' c. rewrite Hc. auto.
Qed.

Lemma Inv_push_child os h ts par c :
  Inv os h ts → r_promises (obj_at os c) ≠ [] → ¬ primary_done os h par →
  Inv (alter (λ q, set_r_children (r_children q ++ [c]) q) par os) h ts.
Proof.
  intros I Hne Hnd. set (os' := alter _ par os).
  assert (Hp : ∀ r', r_promises (obj_at os' r') = r_promises (obj_at os r')).
  { intros r'. by apply (obj_at_alter_field r_promises). }
  assert (Hc : ∀ r', r_children (obj_at os' r') = r_children (obj_at os r') ∨
            (r' = par ∧ r_children (obj_at os' r') = r_children (obj_at os par) ++ [c])).
  { intros r'. subst os'. rewrite obj_at_alter. case_decide as Hd; [|auto].
    destruct Hd as [-> _]. auto. }
  clearbody os'.
  eapply Inv_objects_grow; [exact I| | | |].
  - split; try done; eauto.
    + intros r'. by rewrite Hp.
    + intros r'. destruct (Hc r') as [->|[-> ->]]; [done|]. by apply prefix_app_r.
    + intros r' Hd. destruct (Hc r') as [->|[-> ->]]; [done|]. done.
  - intros r' q. by rewrite Hp.
  - intros r' q. rewrite Hp. auto.
  - intros r' c'. destruct (Hc r') as [->|[-> ->]]; [auto|].
    rewrite elem_of_app, list_elem_of_singleton. intros [?| ->]; auto.
Qed.

(** The primary promise of a request dispatched for the first time. *)
Lemma Inv_primary_new os h ts r s l :
  Inv os h ts → r < length os → r_promises (obj_at os r) = [] →
  (l = true → s = Pending) →
  Inv (alter (set_r_promises [length h]) r os)
      (h ++ [Promise s [] (KindPrimary r l)]) ts.
Proof.
  intros I Hr Hnew Hl.
  set (os' := alter _ r os). set (h' := h ++ _).
  assert (Hc : ∀ r', r_children (obj_at os' r') = r_children (obj_at os r')).
  { intros r'. by apply (obj_at_alter_field r_children). }
  assert (Hpr : r_promises (obj_at os' r) = [length h]).
  { subst os'. by rewrite obj_at_alter_eq. }
  assert (Hpo : ∀ r', r' ≠ r → r_promises (obj_at os' r') = r_promises (obj_at os r')).
  { intros r' Hne. subst os'. by rewrite obj_at_alter_ne. }
  assert (G : grows os h os' h').
  { destruct (grows_alloc os h (Promise s [] (KindPrimary r l))) as [].
    split; try done.
    - intros r'. destruct (decide (r' = r)) as [->|].
      + rewrite Hnew. apply prefix_nil.
      + by rewrite Hpo.
    - intros r'. by rewrite Hc. }
  clearbody os'. subst h'. split.
  - intros q k Hin%reactions_at_app_inv.
    eapply grows_attachable; [exact G|]. by apply (inv_attached _ _ _ I).
  - intros k s' Hin. eapply grows_runnable; [exact G|].
    by apply (inv_tasks _ _ _ I).
  - intros p r' l' [Hk|[-> Hk]]%kind_at_app_inv.
    + destruct (inv_primary _ _ _ I p r' l' Hk) as [H1 H2]. split.
      * by eapply grows_head.
      * intros Hl'. rewrite state_at_app_old; [auto|]. by eapply kind_at_valid.
    + simpl in Hk. simplify_eq. rewrite Hpr, state_at_app_new. auto.
  - intros p r' [Hk|[-> Hk]]%kind_at_app_inv; [|done].
    destruct (inv_follow _ _ _ I p r' Hk) as [H1 H2]. split.
    + intros v Hv. rewrite state_at_app_old in Hv by by eapply kind_at_valid.
      eapply grows_primary_done; [exact G|]. eauto.
    + intros e. rewrite state_at_app_old by by eapply kind_at_valid. done.
  - intros r' p. destruct (decide (r' = r)) as [->|].
    + rewrite Hpr. intros [= <-]. exists l. by rewrite kind_at_app_new.
    + rewrite Hpo by done. intros Hh.
      destruct (inv_head _ _ _ I r' p Hh) as [l' Hl'].
      by apply (g_primary _ _ _ _ G) in Hl'.
  - intros r' p. destruct (decide (r' = r)) as [->|].
    + rewrite Hpr. by intros ?%elem_of_nil.
    + rewrite Hpo by done. intros Hh.
      by apply (g_follow _ _ _ _ G), (inv_tail _ _ _ I).
  - intros agg ps res [Hk|[-> Hk]]%kind_at_app_inv; [|done].
    destruct (inv_all _ _ _ I agg ps res Hk) as (H1 & H2 & H3).
    split_and!; [done| |].
    + intros i v Hi. destruct (H2 i v Hi) as (q & ? & ?). exists q.
      split; [done|]. by eapply grows_fulfilled.
    + intros w Hw. rewrite state_at_app_old in Hw by by eapply kind_at_valid.
      eapply grows_results_ok; [exact G|]. auto.
  - intros o R0 P0 Hc0.
    assert (call_at h o = Some (R0, P0)) as Hc'.
    { unfold call_at in *.
      destruct (kind_at (h ++ _) o) as [k'|] eqn:Hk; [|done].
      apply kind_at_app_inv in Hk as [->|[-> ->]]; done. }
    destruct (inv_outer _ _ _ I o R0 P0 Hc') as [H1 H2]. split.
    + eapply Forall2_impl; [exact H1|]. intros r' p Hin. simpl in *.
      destruct (g_promises _ _ _ _ G r') as [k ->]. apply elem_of_app. auto.
    + intros v Hv. rewrite state_at_app_old in Hv.
      2:{ unfold call_at in Hc'. destruct (kind_at h o) eqn:Hk; [|done].
          by eapply kind_at_valid. }
      destruct (H2 v Hv) as [H3 H4]. split.
      * eapply grows_results_ok; [exact G|]. auto.
      * eapply grows_subtree_settled; [exact G|]. auto.
  - intros o [Hk|[-> Hk]]%kind_at_app_inv; [|done].
    rewrite state_at_app_old by by eapply kind_at_valid.
    by apply (inv_unset _ _ _ I).
  - intros r' c. rewrite Hc. intros Hin.
    eapply prefix_ne_nil; [apply (g_promises _ _ _ _ G)|].
    by eapply (inv_children _ _ _ I).
Qed.

End primitives.

(** ** The operations of the loader keep the invariant *)

Ltac proj :=
  cbn [objects heap tasks events _handlers _requests _cache _hashes
       _canonicals _requested _loaded _sequence
       set_objects set_heap set_tasks set_events set_handlers set_requests
       set_cache set_hashes set_canonicals set_requested set_loaded
       set_sequence fire update_obj new_promise set_kind settle resolve
       reject then_ fst snd new_request] in *.


Section composite.
Implicit Types (st : ResourceLoader).

Lemma addToCache_eq identifier resource st :
  addToCache identifier resource st =
  set_cache (_cache (addToCache identifier resource st)) st.
Proof.
  unfold addToCache. destruct (getHash st identifier); [|by destruct st].
  destruct (truthy_string _); by destruct st.
Qed.

Lemma _postOpen_frame resource r st :
  let st' := (_postOpen resource r st).2 in
  objects st' = objects st ∧ heap st' = heap st ∧ tasks st' = tasks st ∧
  _handlers st' = _handlers st ∧ _hashes st' = _hashes st ∧
  _canonicals st' = _canonicals st ∧ _requested st' = _requested st ∧
  _sequence st' = _sequence st.
Proof.
  unfold _postOpen. rewrite addToCache_eq. proj.
  destruct (_handlers st !! _); proj; done.
Qed.

Lemma alter_app_new {A} (f : A → A) (l : list A) x :
  alter f (length l) (l ++ [x]) = l ++ [f x].
Proof.
  replace (length l) with (length l + 0) at 1 by lia.
  by rewrite alter_app_r.
Qed.

Lemma settle_heap_new h s k :
  s ≠ Pending →
  settle_heap (length h) s (h ++ [Promise Pending [] k]) = h ++ [Promise s [] k].
Proof.
  intros Hs. unfold settle_heap. rewrite state_at_app_new. simpl.
  by rewrite alter_app_new.
Qed.

Lemma settle_tasks_new h s k :
  settle_tasks (length h) s (h ++ [Promise Pending [] k]) = [].
Proof.
  unfold settle_tasks. rewrite state_at_app_new, reactions_at_app_new. done.
Qed.

Lemma resolve_postOpen_new resource r st k :
  let st0 := set_heap (heap st ++ [Promise Pending [] k]) st in
  let st' := resolve_postOpen (length (heap st)) resource r st0 in
  objects st' = objects st ∧ tasks st' = tasks st ∧
  ∃ s, s ≠ Pending ∧ heap st' = heap st ++ [Promise s [] k].
Proof.
  intros st0 st'. subst st'. unfold resolve_postOpen.
  pose proof (_postOpen_frame resource r st0) as (Ho & Hh & Ht & _).
  destruct (_postOpen resource r st0) as [[v|e] st1]; proj; simpl in *;
    rewrite Ho, Hh, Ht; subst st0; proj;
    rewrite settle_tasks_new, app_nil_r, settle_heap_new by done;
    (split_and!; [done..|eexists; split; [|reflexivity]; done]).
Qed.

Lemma _request_spec r st :
  let p := length (heap st) in
  let st' := (_request r st).2 in
  (_request r st).1 = p ∧
  match r_promises (obj st r) with
  | [] =>
      ∃ s l, (l = true → s = Pending) ∧
        heap st' = heap st ++ [Promise s [] (KindPrimary r l)] ∧
        tasks st' = tasks st ∧
        objects st' = alter (set_r_promises [p]) r (objects_with_id r st)
  | p0 :: _ =>
      let h1 := heap st ++ [Promise Pending [] (KindFollow r)] in
      heap st' = then_heap p0 (KDedup r p) h1 ∧
      tasks st' = tasks st ++ then_tasks p0 (KDedup r p) h1 ∧
      objects st' =
        alter (λ q, set_r_promises (r_promises q ++ [p]) q) r
          (objects_with_id r st)
  end.
Proof.
  unfold _request, objects_with_id.
  set (st1 := fire _ _).
  assert (H1 : objects st1 = objects_with_id r st ∧ heap st1 = heap st ∧
               tasks st1 = tasks st).
  { subst st1. unfold objects_with_id. by destruct (r_id (obj st r)). }
  destruct H1 as (Ho & Hh & Ht).
  assert (Hp : r_promises (obj st1 r) = r_promises (obj st r)).
  { rewrite Ho. unfold objects_with_id. destruct (r_id _); [done|].
    by apply (obj_at_alter_field r_promises). }
  fold (objects_with_id r st). rewrite Hp. clearbody st1.
  destruct (r_promises (obj st r)) as [|p0 ps]; proj.
  - destruct (_handlers st1 !! _); [destruct (_ && _)|].
    + pose proof (resolve_postOpen_new (getFromCache
         (set_heap (heap st1 ++ [Promise Pending [] (KindPrimary r false)]) st1)
         (r_canonical (obj st1 r))) r st1 (KindPrimary r false)) as (Ho' & Ht' & s & Hs & Hh').
      simpl in *. proj. rewrite Ho', Ht', Hh', Ho, Hh, Ht. split; [done|].
      by exists s, false.
    + proj. rewrite Hh. split; [done|]. exists Pending, true.
      rewrite Ho, Ht, alter_app_new. done.
    + proj. rewrite Hh. split; [done|]. eexists _, false.
      rewrite settle_tasks_new, app_nil_r, settle_heap_new, Ho, Ht by done.
      split; [|split; [reflexivity|done]]. done.
  - rewrite Hh, Ho, Ht. done.
Qed.


Lemma _postOpen_requests resource r st c e :
  _requests (_postOpen resource r st).2 !! c = Some e →
  _requests st !! c = Some e.
Proof.
  unfold _postOpen. rewrite addToCache_eq. proj.
  destruct (_handlers st !! _); proj; [|done].
  intros H. apply lookup_delete_Some in H. tauto.
Qed.

Lemma _request_requests r st c e :
  _requests (_request r st).2 !! c = Some e →
  e = r ∨ _requests st !! c = Some e.
Proof.
  unfold _request.
  set (st1 := fire _ _).
  assert (H1 : _requests st1 = _requests st).
  { subst st1. by destruct (r_id (obj st r)). }
  clearbody st1. rewrite <- H1.
  destruct (r_promises (obj st1 r)) as [|p0 ps]; proj.
  - destruct (_handlers st1 !! _); [destruct (_ && _)|]; proj.
    + intros [[_ <-]|[_ H]]%lookup_insert_Some; [auto|]. right.
      unfold resolve_postOpen in H.
      match type of H with
      | context [_postOpen ?a ?b ?c] =>
          pose proof (_postOpen_requests a b c) as HP;
          destruct (_postOpen a b c) as [[v|e'] st2]
      end; proj; by apply HP.
    + intros [[_ <-]|[_ H]]%lookup_insert_Some; auto.
    + intros [[_ <-]|[_ H]]%lookup_insert_Some; auto.
  - intros [[_ <-]|[_ H]]%lookup_insert_Some; auto.
Qed.

Lemma length_objects_with_id r st :
  length (objects_with_id r st) = length (objects st).
Proof.
  unfold objects_with_id. destruct (r_id _); [done|]. apply length_alter.
Qed.

Lemma obj_at_objects_with_id {A} (g : ResourceRequest → A) r st r' :
  (∀ i q, g (set_r_id i q) = g q) →
  g (obj_at (objects_with_id r st) r') = g (obj st r').
Proof.
  intros Hg. unfold objects_with_id. destruct (r_id _); [done|].
  by apply obj_at_alter_field.
Qed.

Lemma Inv_objects_with_id r st :
  Inv (objects st) (heap st) (tasks st) →
  Inv (objects_with_id r st) (heap st) (tasks st).
Proof.
  intros I. unfold objects_with_id. destruct (r_id _); [done|].
  by apply Inv_alter_other.
Qed.

(** What [_request] does to the two heaps. *)
Lemma _request_effects r st :
  Inv (objects st) (heap st) (tasks st) → table_ok st →
  r < length (objects st) →
  let st' := (_request r st).2 in
  Inv (objects st') (heap st') (tasks st') ∧ table_ok st' ∧
  length (objects st') = length (objects st) ∧
  (_request r st).1 ∈ r_promises (obj st' r) ∧
  (∀ r', r' ≠ r → r_promises (obj st' r') = r_promises (obj st r')) ∧
  (∀ r', r_promises (obj st r') `prefix_of` r_promises (obj st' r')) ∧
  (∀ r', r_children (obj st' r') = r_children (obj st r')) ∧
  length (heap st) ≤ length (heap st') ∧
  (∀ q, q < length (heap st) →
     state_of st' q = state_of st q ∧ kind_of st' q = kind_of st q).
Proof.
  intros I T Hr st'.
  pose proof (_request_spec r st) as [Hp Hspec]. simpl in Hspec.
  fold st' in Hspec. rewrite Hp.
  pose proof (Inv_objects_with_id r st I) as I1.
  assert (Hr1 : r < length (objects_with_id r st))
    by (by rewrite length_objects_with_id).
  assert (Hpr : r_promises (obj_at (objects_with_id r st) r) = r_promises (obj st r))
    by (by apply (obj_at_objects_with_id r_promises)).
  assert (HT : ∀ os', objects st' = os' → length os' = length (objects st) →
            r_promises (obj_at os' r) ≠ [] →
            (∀ r', r_promises (obj st r') `prefix_of` r_promises (obj_at os' r')) →
            table_ok st').
  { intros os' Ho Hlen Hne Hpre c e He.
    apply _request_requests in He as [->|He].
    - rewrite Ho. split; [lia|done].
    - destruct (T c e He) as [H1 H2]. rewrite Ho. split; [lia|].
      eapply prefix_ne_nil; [apply Hpre|done]. }
  destruct (r_promises (obj st r)) as [|p0 ps] eqn:Hnew.
  - destruct Hspec as (s & l & Hl & Hh & Ht & Ho).
    assert (Hpo : ∀ r', r' ≠ r →
              r_promises (obj_at (objects st') r') = r_promises (obj st r')).
    { intros r' Hne. rewrite Ho, obj_at_alter_ne by done.
      by apply (obj_at_objects_with_id r_promises). }
    assert (Hpr' : r_promises (obj_at (objects st') r) = [length (heap st)]).
    { rewrite Ho. by rewrite obj_at_alter_eq. }
    assert (Hpre : ∀ r', r_promises (obj st r') `prefix_of`
                         r_promises (obj_at (objects st') r')).
    { intros r'. destruct (decide (r' = r)) as [->|].
      - rewrite Hnew. apply prefix_nil.
      - by rewrite Hpo. }
    split_and!.
    + rewrite Hh, Ht, Ho. by apply Inv_primary_new.
    + eapply (HT (objects st')); [reflexivity| |by rewrite Hpr'|done].
      by rewrite Ho, length_alter, length_objects_with_id.
    + by rewrite Ho, length_alter, length_objects_with_id.
    + rewrite Hpr'. by apply list_elem_of_singleton.
    + done.
    + done.
    + intros r'. rewrite Ho, (obj_at_alter_field r_children) by done.
      by apply (obj_at_objects_with_id r_children).
    + rewrite Hh, length_app. lia.
    + intros q Hq. rewrite Hh. by rewrite state_at_app_old, kind_at_app_old.
  - destruct Hspec as (Hh & Ht & Ho).
    assert (Hpo : ∀ r', r' ≠ r →
              r_promises (obj_at (objects st') r') = r_promises (obj st r')).
    { intros r' Hne. rewrite Ho, obj_at_alter_ne by done.
      by apply (obj_at_objects_with_id r_promises). }
    assert (Hpr' : r_promises (obj_at (objects st') r) =
                   (p0 :: ps) ++ [length (heap st)]).
    { rewrite Ho. rewrite obj_at_alter_eq by done. simpl. by rewrite Hpr. }
    assert (Hpre : ∀ r', r_promises (obj st r') `prefix_of`
                         r_promises (obj_at (objects st') r')).
    { intros r'. destruct (decide (r' = r)) as [->|].
      - rewrite Hnew, Hpr'. by apply prefix_app_r.
      - by rewrite Hpo. }
    split_and!.
    + rewrite Hh, Ht, Ho. apply Inv_push_promise.
      * apply Inv_then.
        -- by apply Inv_alloc.
        -- simpl. split; [by rewrite kind_at_app_new|]. by rewrite Hpr.
      * by rewrite kind_at_then, kind_at_app_new.
      * by rewrite Hpr.
    + eapply (HT (objects st')); [reflexivity| |by rewrite Hpr'|done].
      by rewrite Ho, length_alter, length_objects_with_id.
    + by rewrite Ho, length_alter, length_objects_with_id.
    + rewrite Hpr'. rewrite elem_of_app, list_elem_of_singleton. auto.
    + done.
    + done.
    + intros r'. rewrite Ho, (obj_at_alter_field r_children) by done.
      by apply (obj_at_objects_with_id r_children).
    + rewrite Hh, length_then, length_app. lia.
    + intros q Hq. rewrite Hh, state_at_then, kind_at_then.
      by rewrite state_at_app_old, kind_at_app_old.
Qed.


(** [all]: the subscriptions leave everything but callbacks and tasks. *)
Lemma all_subscribe_effects agg i ps st :
  Inv (objects st) (heap st) (tasks st) →
  (∀ j q, ps !! j = Some q →
     ∃ ps0 res, kind_of st agg = Some (KindAll ps0 res) ∧
       ps0 !! (i + j) = Some q) →
  let st' := all_subscribe agg i ps st in
  Inv (objects st') (heap st') (tasks st') ∧
  objects st' = objects st ∧ _requests st' = _requests st ∧
  length (heap st') = length (heap st) ∧
  (∀ q, state_of st' q = state_of st q ∧ kind_of st' q = kind_of st q).
Proof.
  revert i st. induction ps as [|p ps IH]; intros i st I Hps; simpl.
  { done. }
  specialize (IH (S i) (then_ p (KAll agg i) st)).
  destruct IH as (I' & Ho & Hrq & Hl & Hq).
  - proj. apply Inv_then; [done|]. simpl.
    destruct (Hps 0 p eq_refl) as (ps0 & res & Hk & Hi).
    rewrite Nat.add_0_r in Hi. eauto.
  - intros j q Hj. proj.
    destruct (Hps (S j) q Hj) as (ps0 & res & Hk & Hi).
    exists ps0, res. rewrite kind_at_then.
    by replace (S i + j) with (i + S j) by lia.
  - split_and!; [done| | | |].
    + by rewrite Ho.
    + by rewrite Hrq.
    + rewrite Hl. proj. apply length_then.
    + intros q. destruct (Hq q) as [-> ->]. proj.
      by rewrite state_at_then, kind_at_then.
Qed.

Lemma results_ok_nil h : results_ok h [] (VArr []).
Proof. exists []. split; [done|]. constructor. Qed.

Lemma all_effects ps st :
  Inv (objects st) (heap st) (tasks st) →
  let agg := length (heap st) in
  let st' := (all ps st).2 in
  (all ps st).1 = agg ∧
  Inv (objects st') (heap st') (tasks st') ∧
  objects st' = objects st ∧ _requests st' = _requests st ∧
  length (heap st') = S (length (heap st)) ∧
  (∃ res, kind_of st' agg = Some (KindAll ps res)) ∧
  (∀ q, q < length (heap st) →
     state_of st' q = state_of st q ∧ kind_of st' q = kind_of st q).
Proof.
  intros I agg st'. subst st'. unfold all. proj.
  set (n := length (heap st)) in *. subst agg.
  set (k := KindAll ps (replicate (length ps) None)).
  set (st1 := match ps with [] => _ | _ => _ end).
  assert (H1 : Inv (objects st1) (heap st1) (tasks st1) ∧
               objects st1 = objects st ∧ _requests st1 = _requests st ∧
               length (heap st1) = S (length (heap st)) ∧
               kind_of st1 n = Some k ∧
               (∀ q, q < length (heap st) →
                  state_of st1 q = state_of st q ∧ kind_of st1 q = kind_of st q)).
  { assert (I1 : Inv (objects st) (heap st ++ [Promise Pending [] k]) (tasks st))
      by (by apply Inv_alloc).
    subst st1. destruct ps as [|p ps]; proj.
    - split_and!; try done.
      + apply Inv_settle; [done|]. split; [done|].
        rewrite kind_at_app_new. simpl. intros w [= <-]. apply results_ok_nil.
      + rewrite length_settle, length_app. simpl. lia.
      + by rewrite kind_at_settle, kind_at_app_new.
      + intros q Hq. rewrite state_at_settle, kind_at_settle.
        rewrite decide_False by (intros (-> & _); subst n; lia).
        by rewrite state_at_app_old, kind_at_app_old.
    - split_and!; try done.
      + rewrite length_app. simpl. lia.
      + by rewrite kind_at_app_new.
      + intros q Hq. by rewrite state_at_app_old, kind_at_app_old. }
  clearbody st1. destruct H1 as (I1 & Ho & Hrq & Hl & Hk & Hq).
  destruct (all_subscribe_effects n 0 ps st1 I1) as (I2 & Ho2 & Hrq2 & Hl2 & Hq2).
  { intros j q Hj. exists ps, (replicate (length ps) None). done. }
  split_and!.
  - done.
  - done.
  - by rewrite Ho2.
  - by rewrite Hrq2.
  - by rewrite Hl2.
  - exists (replicate (length ps) None). by destruct (Hq2 n) as [_ ->].
  - intros q Hl'. destruct (Hq2 q) as [-> ->]. auto.
Qed.


(** ** The loop of [request] *)


Lemma _findExistingRequest_valid r st :
  table_ok st → r < length (objects st) →
  _findExistingRequest r st < length (objects st).
Proof.
  intros T Hr. unfold _findExistingRequest.
  destruct (_requests st !! _) as [e|] eqn:He; [|done].
  destruct (_ || _); [done|]. by destruct (T _ _ He).
Qed.

Lemma _findExistingRequest_cases r st :
  table_ok st →
  _findExistingRequest r st = r ∨
  r_promises (obj st (_findExistingRequest r st)) ≠ [].
Proof.
  intros T. unfold _findExistingRequest.
  destruct (_requests st !! _) as [e|] eqn:He; [|auto].
  destruct (_ || _); [auto|]. right. by destruct (T _ _ He).
Qed.

Lemma update_obj_other_effects r f st :
  (∀ q, r_promises (f q) = r_promises q) →
  (∀ q, r_children (f q) = r_children q) →
  Inv (objects st) (heap st) (tasks st) → table_ok st →
  let st' := update_obj r f st in
  Inv (objects st') (heap st') (tasks st') ∧ table_ok st' ∧
  length (objects st') = length (objects st) ∧
  (∀ r', r_promises (obj st' r') = r_promises (obj st r')) ∧
  (∀ r', r_children (obj st' r') = r_children (obj st r')).
Proof.
  intros Hp Hc I T st'. subst st'. proj.
  assert (Hp' : ∀ r', r_promises (obj_at (alter f r (objects st)) r') =
                      r_promises (obj st r'))
    by (intros; by apply (obj_at_alter_field r_promises)).
  split_and!.
  - by apply Inv_alter_other.
  - intros c e He. proj. destruct (T c e He) as [H1 H2].
    rewrite length_alter, Hp'. done.
  - apply length_alter.
  - done.
  - intros; by apply (obj_at_alter_field r_children).
Qed.

Lemma parent_open_not_done st par rs :
  Inv (objects st) (heap st) (tasks st) →
  parent_open st (Some par) rs →
  ¬ primary_done (objects st) (heap st) par.
Proof.
  intros I [_ [(p & l & Hk & Hs)|[Hnil _]]] (p' & v & Hh & Hv).
  - destruct (inv_primary _ _ _ I p par l Hk) as [Hh' _].
    rewrite Hh in Hh'. simplify_eq. congruence.
  - by rewrite Hnil in Hh.
Qed.

Lemma request_loop_effects parent rs st :
  Inv (objects st) (heap st) (tasks st) → table_ok st →
  Forall (λ r, r < length (objects st)) rs →
  parent_open st parent rs →
  let requested := (request_loop parent rs st).1.1 in
  let promises := (request_loop parent rs st).1.2 in
  let st' := (request_loop parent rs st).2 in
  Inv (objects st') (heap st') (tasks st') ∧ table_ok st' ∧
  length (objects st') = length (objects st) ∧
  Forall2 (λ r p, p ∈ r_promises (obj st' r)) requested promises ∧
  length (heap st) ≤ length (heap st') ∧
  (∀ q, q < length (heap st) →
     state_of st' q = state_of st q ∧ kind_of st' q = kind_of st q) ∧
  (∀ r', r_promises (obj st r') `prefix_of` r_promises (obj st' r')) ∧
  (∀ par, parent = Some par → r_promises (obj st par) = [] → par ∉ rs →
     r_promises (obj st' par) = []).
Proof.
  revert st. induction rs as [|r0 rs IH]; intros st I T Hrs Hpar.
  { simpl. split_and!; first [done|constructor]. }
  apply Forall_cons in Hrs as [Hr0 Hrs].
  cbn [request_loop].
  set (r := _findExistingRequest r0 st).
  assert (Hr : r < length (objects st)) by (by apply _findExistingRequest_valid).
  set (sta := if decide (r = r0) then st else _).
  assert (Ha : Inv (objects sta) (heap sta) (tasks sta) ∧ table_ok sta ∧
               length (objects sta) = length (objects st) ∧
               heap sta = heap st ∧
               (∀ r', r_promises (obj sta r') = r_promises (obj st r')) ∧
               (∀ r', r_children (obj sta r') = r_children (obj st r'))).
  { subst sta. case_decide; [done|].
    destruct (update_obj_other_effects r (set_r_data (r_data (obj st r0))) st)
      as (? & ? & ? & ? & ?); done. }
  clearbody sta. destruct Ha as (Ia & Ta & Hla & Hha & Hpa & Hca).
  set (stb := _makeCanonical r sta).
  assert (Hb : Inv (objects stb) (heap stb) (tasks stb) ∧ table_ok stb ∧
               length (objects stb) = length (objects st) ∧
               heap stb = heap st ∧
               (∀ r', r_promises (obj stb r') = r_promises (obj st r')) ∧
               (∀ r', r_children (obj stb r') = r_children (obj st r'))).
  { subst stb. unfold _makeCanonical.
    destruct (update_obj_other_effects r
      (set_r_canonical (canonical_of sta (r_identifier (obj sta r)))) sta)
      as (? & ? & ? & Hp & Hc); try done.
    split_and!; try done; [congruence| |].
    - intros r'. by rewrite Hp.
    - intros r'. by rewrite Hc. }
  clearbody stb. destruct Hb as (Ib & Tb & Hlb & Hhb & Hpb & Hcb).
  clear sta Ia Ta Hla Hha Hpa Hca.
  pose proof (_request_effects r stb Ib Tb) as Hc. simpl in Hc.
  destruct Hc as (Ic & Tc & Hlc & Hin & Hpo & Hpre & Hch & Hhl & Hold);
    [by rewrite Hlb|].
  destruct (_request r stb) as [p stc]. proj.
  (* the parent is not this request, unless it has been dispatched *)
  assert (Hparc : parent_open stc parent rs ∧
            ∀ par, parent = Some par → r_promises (obj st par) = [] →
              par ∉ r0 :: rs → r_promises (obj stc par) = []).
  { destruct parent as [par|]; [|done].
    destruct Hpar as [Hv [(q & l & Hk & Hs)|[Hnil Hnot]]].
    - split.
      + split; [by rewrite Hlc, Hlb|]. left. exists q, l.
        assert (q < length (heap stb)) as Hq.
        { rewrite Hhb. by eapply kind_at_valid. }
        destruct (Hold q Hq) as [-> ->]. by rewrite Hhb.
      + intros par' [= <-] Hnil.
        destruct (inv_primary _ _ _ I q par l Hk) as [Hh _].
        by rewrite Hnil in Hh.
    - assert (r ≠ par) as Hne.
      { intros Heq.
        destruct (_findExistingRequest_cases r0 st T) as [Hc|Hc]; fold r in Hc.
        - apply Hnot. rewrite <- Heq, Hc. by left.
        - apply Hc. by rewrite Heq. }
      assert (r_promises (obj stc par) = []) as Hnil'.
      { by rewrite Hpo, Hpb. }
      split.
      + split; [by rewrite Hlc, Hlb|]. right. split; [done|].
        by apply not_elem_of_cons in Hnot as [_ ?].
      + by intros par' [= <-] _ _. }
  destruct Hparc as [Hparc Hnilc].
  set (std := match parent with Some par => _ | None => stc end).
  assert (Hd : Inv (objects std) (heap std) (tasks std) ∧ table_ok std ∧
               length (objects std) = length (objects st) ∧
               heap std = heap stc ∧
               (∀ r', r_promises (obj std r') = r_promises (obj stc r')) ∧
               parent_open std parent rs).
  { subst std. destruct parent as [par|].
    - proj.
      assert (Hp' : ∀ r', r_promises (obj_at (alter (λ q,
                 set_r_children (r_children q ++ [r]) q) par (objects stc)) r') =
                 r_promises (obj stc r'))
        by (intros; by apply (obj_at_alter_field r_promises)).
      split_and!.
      + apply Inv_push_child; [done| |by eapply parent_open_not_done].
        intros Hnil. rewrite Hnil in Hin. by apply elem_of_nil in Hin.
      + intros c e He. proj. destruct (Tc c e He) as [H1 H2].
        by rewrite length_alter, Hp'.
      + rewrite length_alter. by rewrite Hlc, Hlb.
      + done.
      + done.
      + destruct Hparc as [Hv Hcase]. unfold parent_open. proj.
        split; [by rewrite length_alter|]. by rewrite Hp'.
    - split_and!; try done. by rewrite Hlc, Hlb. }
  clearbody std. destruct Hd as (Id & Td & Hld & Hhd & Hpd & Hpard).
  specialize (IH std Id Td).
  destruct IH as (I' & T' & Hl' & HF & Hhl' & Hold' & Hpre' & Hnil').
  { by rewrite Hld. }
  { done. }
  destruct (request_loop parent rs std) as [[requested promises] st'].
  proj. simpl in *.
  split_and!.
  - done.
  - done.
  - by rewrite Hl', Hld.
  - constructor; [|done].
    destruct (Hpre' r) as [k ->]. rewrite Hpd. apply elem_of_app. auto.
  - rewrite Hhd in Hhl'. rewrite Hhb in Hhl. lia.
  - intros q Hq.
    assert (q < length (heap std)) as Hq2 by (rewrite Hhd; rewrite Hhb in Hhl; lia).
    destruct (Hold' q Hq2) as [-> ->]. rewrite Hhd.
    assert (q < length (heap stb)) as Hq3 by (by rewrite Hhb).
    destruct (Hold q Hq3) as [-> ->]. by rewrite Hhb.
  - intros r'. etrans; [|apply Hpre'].
    rewrite Hpd. rewrite <- Hpb. apply Hpre.
  - intros par Hp Hnil Hnot. apply Hnil'; [done| |].
    + rewrite Hpd. by apply Hnilc.
    + by apply not_elem_of_cons in Hnot as [_ ?].
Qed.


Lemma request_loop_length parent rs st :
  length (request_loop parent rs st).1.1 = length rs ∧
  length (request_loop parent rs st).1.2 = length rs.
Proof.
  revert st. induction rs as [|r0 rs IH]; intros st; [done|].
  cbn [request_loop].
  destruct (_request _ _) as [p stc].
  match goal with |- context [request_loop parent rs ?s] =>
    specialize (IH s); destruct (request_loop parent rs s) as [[R P] st']
  end. simpl in *. destruct IH as [-> ->]. done.
Qed.

Lemma request_effects rs parent st :
  Inv (objects st) (heap st) (tasks st) → table_ok st →
  Forall (λ r, r < length (objects st)) rs →
  parent_open st parent rs →
  let o := length (heap st) in
  let st' := (request rs parent st).2 in
  (request rs parent st).1 = o ∧
  Inv (objects st') (heap st') (tasks st') ∧ table_ok st' ∧
  length (objects st') = length (objects st) ∧
  (∃ R P, call_at (heap st') o = Some (R, P) ∧ length R = length rs) ∧
  length (heap st) ≤ length (heap st') ∧
  (∀ q, q < length (heap st) →
     state_of st' q = state_of st q ∧ kind_of st' q = kind_of st q) ∧
  (∀ r', r_promises (obj st r') `prefix_of` r_promises (obj st' r')) ∧
  (∀ par, parent = Some par → r_promises (obj st par) = [] → par ∉ rs →
     r_promises (obj st' par) = []).
Proof.
  intros I T Hrs Hpar. unfold request. proj.
  set (st0 := set_heap _ st).
  assert (I0 : Inv (objects st0) (heap st0) (tasks st0)).
  { subst st0. proj. by apply Inv_alloc. }
  assert (T0 : table_ok st0) by done.
  assert (Hpar0 : parent_open st0 parent rs).
  { destruct parent as [par|]; [|done].
    destruct Hpar as [Hv [(q & l & Hk & Hs)|?]]; (split; [done|]); [|by right].
    left. exists q, l. subst st0. proj.
    rewrite kind_at_app_old, state_at_app_old; [done|..]; by eapply kind_at_valid. }
  pose proof (request_loop_effects parent rs st0 I0 T0 Hrs Hpar0) as HL.
  cbv zeta in HL.
  destruct HL as (I1 & T1 & Hl1 & HF & Hhl1 & Hold1 & Hpre1 & Hnil1).
  pose proof (request_loop_length parent rs st0) as [HlenR _].
  destruct (request_loop parent rs st0) as [[R P] st1]. cbn [fst snd] in *.
  cbn [set_kind].
  assert (Ho : length (heap st) < length (heap st0)).
  { subst st0. proj. rewrite length_app. simpl. lia. }
  destruct (Hold1 _ Ho) as [Hso Hko].
  assert (Hko0 : kind_of st0 (length (heap st)) = Some (KindOuter None)).
  { subst st0. proj. by rewrite kind_at_app_new. }
  set (st2 := set_kind _ _ st1).
  assert (I2 : Inv (objects st2) (heap st2) (tasks st2)).
  { subst st2. unfold set_kind. proj. apply Inv_set_kind; [done|].
    unfold set_kind_ok. by rewrite Hko, Hko0. }
  assert (Hk2 : kind_of st2 (length (heap st)) = Some (KindOuter (Some (R, P)))).
  { subst st2. unfold set_kind. proj. rewrite kind_at_set_kind. rewrite decide_True; [done|].
    split; [done|]. lia. }
  assert (Hold2 : ∀ q, q < length (heap st) →
            state_of st2 q = state_of st q ∧ kind_of st2 q = kind_of st q).
  { intros q Hq. subst st2. unfold set_kind. proj.
    rewrite state_at_set_kind, kind_at_set_kind.
    rewrite decide_False by lia.
    assert (q < length (heap st0)) as Hq0 by lia.
    destruct (Hold1 q Hq0) as [-> ->]. subst st0. proj.
    by rewrite state_at_app_old, kind_at_app_old. }
  assert (Hl2 : length (heap st2) = length (heap st1)).
  { subst st2. unfold set_kind. proj. apply length_alter. }
  assert (Hob2 : objects st2 = objects st1) by done.
  assert (T2 : table_ok st2) by done.
  clearbody st2.
  pose proof (all_effects P st2 I2) as HA. cbv zeta in HA.
  destruct HA as (Hagg & I3 & Ho3 & Hrq3 & Hl3 & (res & Hk3) & Hold3).
  destruct (all P st2) as [agg st3]. cbn [fst snd] in *. subst agg.
  cbn [then_ heap tasks objects _requests set_heap set_tasks].
  assert (Ho2 : length (heap st) < length (heap st2)) by lia.
  destruct (Hold3 _ Ho2) as [Hso3 Hko3].
  split_and!.
  - done.
  - apply Inv_then; [done|]. simpl. exists P, res. split; [|done].
    unfold call_at. by rewrite Hko3, Hk2.
  - intros c e He. proj. rewrite Hrq3 in He. rewrite Ho3. by apply (T2 c e).
  - by rewrite Ho3, Hob2.
  - exists R, P. split; [|done]. unfold call_at.
    by rewrite kind_at_then, Hko3, Hk2.
  - rewrite length_then. lia.
  - intros q Hq. rewrite state_at_then, kind_at_then.
    assert (q < length (heap st2)) as Hq2 by lia.
    destruct (Hold3 q Hq2) as [-> ->]. auto.
  - intros r'. rewrite Ho3, Hob2. apply Hpre1.
  - intros par Hp Hnil Hnot. rewrite Ho3, Hob2. by apply Hnil1.
Qed.

End composite.

(** ** Running the callbacks *)

Section reactions.
Implicit Types (st : ResourceLoader).

Lemma descendant_refl os R r : r ∈ R → descendant os R r.
Proof. intros. exists r. split; [done|constructor]. Qed.

Lemma frontier_refl os h R : frontier os h R R.
Proof.
  split; [intros d Hd; by right|]. exists 0. split; [done|]. lia.
Qed.

Lemma elem_of_child_requests st R c :
  c ∈ child_requests st R ↔ ∃ r, r ∈ R ∧ child (objects st) r c.
Proof.
  unfold child_requests, child. rewrite list_elem_of_bind. split; [intros (y & Hy & Hr); eauto|intros (r & Hr & Hy); eauto].
Qed.

(** [check] moves on to the children once the requests at hand are done. *)
Lemma frontier_advance st R0 R :
  frontier (objects st) (heap st) R0 R →
  all_done (objects st) (heap st) R →
  frontier (objects st) (heap st) R0 (child_requests st R).
Proof.
  intros [HF (k & HR & HL)] HD. split.
  - intros d Hd. destruct (HF d Hd) as [?|(r & Hr & Hrd)]; [by left|].
    destruct Hrd as [|x y z Hxy Hyz].
    + left. by apply HD.
    + right. exists y. split; [|done]. apply elem_of_child_requests. eauto.
  - exists (S k). split; [by rewrite HR|]. intros j Hj.
    destruct (decide (j = k)) as [->|Hne]; [by rewrite <- HR|].
    apply HL. lia.
Qed.

Lemma child_promises_nil st R :
  Inv (objects st) (heap st) (tasks st) →
  child_promises st R = [] → child_requests st R = [].
Proof.
  intros I Hnil. destruct (child_requests st R) as [|c cs] eqn:E; [done|].
  assert (c ∈ child_requests st R) as Hc by (rewrite E; by left).
  apply elem_of_child_requests in Hc as (r & Hr & Hc).
  pose proof (inv_children _ _ _ I r c Hc) as Hne.
  unfold child_promises in Hnil. rewrite E in Hnil. simpl in Hnil.
  apply app_eq_nil in Hnil as [Hnil _]. done.
Qed.

Lemma frontier_settled st R0 R :
  frontier (objects st) (heap st) R0 R →
  all_done (objects st) (heap st) R →
  child_requests st R = [] →
  subtree_settled (objects st) (heap st) R0.
Proof.
  intros [HF _] HD Hnil d Hd. destruct (HF d Hd) as [?|(r & Hr & Hrd)]; [done|].
  destruct Hrd as [|x y z Hxy Hyz]; [by apply HD|].
  assert (y ∈ child_requests st R) as Hy.
  { apply elem_of_child_requests. eauto. }
  rewrite Hnil in Hy. by apply elem_of_nil in Hy.
Qed.

Lemma check_effects o v R st R0 P0 :
  Inv (objects st) (heap st) (tasks st) →
  call_at (heap st) o = Some (R0, P0) →
  results_ok (heap st) P0 v →
  frontier (objects st) (heap st) R0 R →
  all_done (objects st) (heap st) R →
  let st' := check o v R st in
  Inv (objects st') (heap st') (tasks st') ∧
  objects st' = objects st ∧ _requests st' = _requests st.
Proof.
  intros I Hc Hres HF HD. unfold check. cbv zeta.
  destruct (child_promises st R) as [|p ps] eqn:E.
  - proj. split; [|done]. apply Inv_settle; [done|]. split; [done|].
    unfold call_at in Hc. destruct (kind_at (heap st) o) as [[| | |c]|]; try done.
    subst c. exists R0, P0. split; [done|]. intros w [= <-]. split; [done|].
    eapply frontier_settled; [done..|]. by apply child_promises_nil.
  - rewrite <- E. clear p ps E.
    pose proof (all_effects (child_promises st R) st I) as HA. cbv zeta in HA.
    destruct HA as (Hagg & I3 & Ho3 & Hrq3 & Hl3 & (res & Hk3) & Hold3).
    destruct (all (child_promises st R) st) as [agg st3]. cbn [fst snd] in *.
    subst agg. proj. split; [|done].
    assert (G : grows (objects st) (heap st) (objects st3) (heap st3)).
    { rewrite Ho3. split; try done.
      - intros q Hq. apply Hold3. by apply state_at_valid.
      - intros q r l Hk. exists l.
        destruct (Hold3 q) as [_ ->]; [by eapply kind_at_valid|done].
      - intros q r Hk.
        destruct (Hold3 q) as [_ ->]; [by eapply kind_at_valid|done].
      - intros q ps' res' Hk. exists res'.
        destruct (Hold3 q) as [_ ->]; [by eapply kind_at_valid|done].
      - intros q c. unfold call_at. intros Hq.
        destruct (kind_at (heap st) q) eqn:Hk; [|done].
        destruct (Hold3 q) as [_ ->]; [by eapply kind_at_valid|].
        by rewrite Hk. }
    apply Inv_then; [done|]. simpl.
    exists R0, P0, (child_promises st R), res. split_and!.
    + by apply (g_call _ _ _ _ G).
    + by eapply grows_results_ok.
    + eapply grows_frontier; [exact G|]. by apply frontier_advance.
    + done.
    + intros c Hin. apply elem_of_child_requests in Hin as (r & Hr & Hin).
      pose proof (inv_children _ _ _ I r c Hin) as Hne.
      destruct (r_promises (obj st c)) as [|p0 ps0] eqn:Hps; [done|].
      exists p0. rewrite Ho3, Hps. split; [done|].
      unfold child_promises. apply list_elem_of_bind. exists c. split.
      * rewrite Hps. by left.
      * apply elem_of_child_requests. eauto.
Qed.


(** A fulfilled promise of a request means its primary promise is. *)
Lemma promise_done os h ts r p v :
  Inv os h ts → p ∈ r_promises (obj_at os r) → state_at h p = Fulfilled v →
  primary_done os h r.
Proof.
  intros I Hin Hv. destruct (r_promises (obj_at os r)) as [|p0 tl] eqn:E.
  { by apply elem_of_nil in Hin. }
  apply elem_of_cons in Hin as [->|Hin].
  - exists p0, v. by rewrite E.
  - assert (kind_at h p = Some (KindFollow r)) as Hk.
    { apply (inv_tail _ _ _ I). by rewrite E. }
    by apply (inv_follow _ _ _ I p r Hk) in Hv.
Qed.

Lemma outer_all_done os h ts o R0 P0 v :
  Inv os h ts → call_at h o = Some (R0, P0) → results_ok h P0 v →
  all_done os h R0.
Proof.
  intros I Hc (vs & _ & Hvs) r Hr.
  destruct (inv_outer _ _ _ I o R0 P0 Hc) as [HF _].
  apply list_elem_of_lookup in Hr as [i Hi].
  destruct (Forall2_lookup_l _ _ _ _ _ HF Hi) as (p & Hp & Hin).
  destruct (Forall2_lookup_l _ _ _ _ _ Hvs Hp) as (x & _ & Hx).
  by eapply promise_done.
Qed.

Lemma _postOpen_table resource r st :
  table_ok st → table_ok (_postOpen resource r st).2.
Proof.
  intros T c e He. apply _postOpen_requests in He.
  destruct (_postOpen_frame resource r st) as (-> & _). by apply (T c e).
Qed.

Lemma all_results_Some (results : list (option value)) vs :
  all_results results = Some vs → results = Some <$> vs.
Proof.
  unfold all_results. intros H. apply mapM_Some in H.
  induction H as [|o x l k Ho _ IH]; [done|]. simpl. by rewrite Ho, IH.
Qed.

Lemma all_fulfilled_effects agg i v st ps res q :
  Inv (objects st) (heap st) (tasks st) →
  kind_of st agg = Some (KindAll ps res) →
  ps !! i = Some q → state_of st q = Fulfilled v →
  let st' := all_fulfilled agg i v st in
  Inv (objects st') (heap st') (tasks st') ∧
  objects st' = objects st ∧ _requests st' = _requests st.
Proof.
  intros I Hk Hi Hq. unfold all_fulfilled. rewrite Hk.
  set (res' := <[i := Some v]> res).
  assert (Hvalid : agg < length (heap st)) by by eapply kind_at_valid.
  assert (I1 : Inv (objects st)
            (alter (λ pr, Promise (p_state pr) (p_reactions pr) (KindAll ps res'))
               agg (heap st)) (tasks st)).
  { apply Inv_set_kind; [done|]. unfold set_kind_ok. rewrite Hk.
    split; [done|]. by exists i, q, v. }
  destruct (all_results res') as [vs|] eqn:E; proj; [|done].
  split; [|done]. apply Inv_settle; [done|]. split; [done|].
  rewrite kind_at_set_kind, decide_True by done.
  intros w [= <-]. exists vs. split; [done|].
  destruct (inv_all _ _ _ I1 agg ps res') as (Hlen & Hent & _).
  { by rewrite kind_at_set_kind, decide_True. }
  apply all_results_Some in E.
  apply Forall2_same_length_lookup. split.
  { rewrite <- Hlen, E. by rewrite length_fmap. }
  intros j p x Hp Hx.
  assert (res' !! j = Some (Some x)) as Hj.
  { rewrite E, list_lookup_fmap, Hx. done. }
  destruct (Hent j x Hj) as (q' & Hq' & Hs). by simplify_eq.
Qed.

Lemma run_reaction_effects k s st :
  Inv (objects st) (heap st) (tasks st) → table_ok st →
  runnable (objects st) (heap st) k s →
  let st' := run_reaction k s st in
  Inv (objects st') (heap st') (tasks st') ∧ table_ok st' ∧
  objects st' = objects st.
Proof.
  intros I T Hrun.
  destruct k as [r t|agg i|o R|o v R], s as [|w|e]; simpl in *;
    try (split_and!; done).
  - (* follow-on, fulfilled *)
    destruct Hrun as [Hk Hd].
    pose proof (_postOpen_frame w r st) as (Ho & Hh & Ht & _).
    pose proof (_postOpen_table w r st T) as T1.
    destruct (_postOpen w r st) as [[x|x] st1]; cbn [fst snd] in *; proj.
    + rewrite Ho, Hh, Ht. split_and!; [|done..].
      apply Inv_settle; [done|]. split; [done|]. rewrite Hk. eauto.
    + rewrite Ho, Hh, Ht. done.
  - (* all, fulfilled *)
    destruct Hrun as (ps & res & Hk & Hq).
    destruct (Hq w eq_refl) as (q & Hi & Hs).
    destruct (all_fulfilled_effects agg i w st ps res q I Hk Hi Hs)
      as (I1 & Ho & Hrq).
    split_and!; [done| |done].
    intros c e' He. rewrite Hrq in He. rewrite Ho. by apply (T c e').
  - (* all, rejected *)
    destruct Hrun as (ps & res & Hk & _). unfold reject. proj.
    split_and!; [|done..]. apply Inv_settle; [done|]. split; [done|].
    by rewrite Hk.
  - (* top, fulfilled *)
    destruct Hrun as (P & Hc & Hres). specialize (Hres w eq_refl).
    destruct (check_effects o w R st R P I Hc Hres) as (I1 & Ho & Hrq).
    { apply frontier_refl. }
    { by eapply outer_all_done. }
    split_and!; [done| |done].
    intros c e' He. rewrite Hrq in He. rewrite Ho. by apply (T c e').
  - (* top, rejected *)
    destruct Hrun as (P & Hc & _). unfold reject. proj.
    split_and!; [|done..]. apply Inv_settle; [done|]. split; [done|].
    unfold call_at in Hc. destruct (kind_at (heap st) o) as [[| | |c]|]; try done.
    subst c. exists R, P. done.
  - (* check, fulfilled *)
    destruct Hrun as (R0 & P0 & Hc & Hres & HF & HD).
    destruct (check_effects o v R st R0 P0 I Hc Hres HF) as (I1 & Ho & Hrq).
    { by eapply HD. }
    split_and!; [done| |done].
    intros c e' He. rewrite Hrq in He. rewrite Ho. by apply (T c e').
  - (* check, rejected *)
    destruct Hrun as (R0 & P0 & Hc & _). unfold reject. proj.
    split_and!; [|done..]. apply Inv_settle; [done|]. split; [done|].
    unfold call_at in Hc. destruct (kind_at (heap st) o) as [[| | |c]|]; try done.
    subst c. exists R0, P0. done.
Qed.

End reactions.

(** ** Opening, and the callbacks of a load *)

Section opening.
Implicit Types (st : ResourceLoader).

Lemma undisturbed_refl st : undisturbed st st.
Proof. unfold undisturbed. split_and!; [lia|lia|done|done]. Qed.

Lemma undisturbed_trans st1 st2 st3 :
  undisturbed st1 st2 → undisturbed st2 st3 → undisturbed st1 st3.
Proof.
  intros (Ho1 & Hh1 & Hq1 & Hp1) (Ho2 & Hh2 & Hq2 & Hp2). split_and!.
  - lia.
  - lia.
  - intros q Hq. destruct (Hq2 q) as [-> ->]; [lia|]. by apply Hq1.
  - intros r. etrans; [apply Hp1|apply Hp2].
Qed.

Lemma new_requests_effects ss st :
  loader_ok st →
  let rs := (new_requests ss st).1 in
  let st' := (new_requests ss st).2 in
  loader_ok st' ∧
  heap st' = heap st ∧ tasks st' = tasks st ∧
  _handlers st' = _handlers st ∧
  length (objects st) ≤ length (objects st') ∧
  Forall (λ r, length (objects st) ≤ r < length (objects st')) rs ∧
  (∀ r, r_promises (obj st' r) = r_promises (obj st r)).
Proof.
  revert st. induction ss as [|s ss IH]; intros st [I T].
  { simpl. split_and!; try done. }
  cbn [new_requests new_request].
  set (st1 := set_objects _ st).
  assert (Hp1 : ∀ r, r_promises (obj st1 r) = r_promises (obj st r)).
  { intros r. subst st1. cbn [objects set_objects]. apply obj_at_app_fields. }
  assert (OK1 : loader_ok st1).
  { split.
    - subst st1. cbn [objects set_objects heap tasks set_heap]. by apply Inv_new_object.
    - intros c e He. destruct (T c e He) as [H1 H2]. rewrite Hp1. split; [|done].
      subst st1. cbn [objects set_objects]. rewrite length_app. lia. }
  assert (Hl1 : length (objects st1) = S (length (objects st))).
  { subst st1. cbn [objects set_objects]. rewrite length_app. simpl. lia. }
  assert (Hh1 : heap st1 = heap st ∧ tasks st1 = tasks st ∧
                _handlers st1 = _handlers st) by done.
  clearbody st1. specialize (IH st1 OK1). cbv zeta in IH.
  destruct (new_requests ss st1) as [rs st'].
  cbn [fst snd] in *. destruct IH as (OK' & Hh & Ht & Hha & Hl & HF & Hp).
  destruct Hh1 as (Hh1 & Ht1 & Hha1).
  split_and!; try congruence.
  - lia.
  - constructor; [lia|]. eapply Forall_impl; [exact HF|]. simpl. lia.
Qed.

Lemma opening_not_in st par rs :
  opening st par → Forall (λ r, length (objects st) ≤ r) rs →
  ∀ st', length (objects st) ≤ length (objects st') →
    (∀ q, q < length (heap st) →
       state_of st' q = state_of st q ∧ kind_of st' q = kind_of st q) →
    (∀ r, r_promises (obj st' r) = r_promises (obj st r)) →
    parent_open st' (Some par) rs.
Proof.
  intros [Hv Hcase] Hrs st' Hl Hq Hp. split; [lia|].
  destruct Hcase as [(p & l & Hk & Hs)|Hnil].
  - left. exists p, l.
    destruct (Hq p) as [-> ->]; [by eapply kind_at_valid|done].
  - right. split; [by rewrite Hp|]. intros Hin.
    rewrite Forall_forall in Hrs. specialize (Hrs _ Hin). lia.
Qed.

Lemma nested_request_effects par ss st :
  loader_ok st → opening st par →
  let st' := nested_request par st ss in
  loader_ok st' ∧ opening st' par ∧ undisturbed st st'.
Proof.
  intros OK Hop. unfold nested_request.
  pose proof (new_requests_effects ss st OK) as HN. cbv zeta in HN.
  destruct (new_requests ss st) as [rs st1]. cbn [fst snd] in *.
  destruct HN as ([I1 T1] & Hh1 & Ht1 & Hha1 & Hl1 & HF1 & Hp1).
  assert (Hpar : parent_open st1 (Some par) rs).
  { eapply opening_not_in; [exact Hop| |done| |done].
    - eapply Forall_impl; [exact HF1|]. simpl. lia.
    - intros q _. by rewrite Hh1. }
  destruct (request_effects rs (Some par) st1 I1 T1) as
    (_ & I2 & T2 & Hl2 & _ & Hhl2 & Hold2 & Hpre2 & Hnil2); [|done|].
  { eapply Forall_impl; [exact HF1|]. simpl. lia. }
  set (st2 := (request rs (Some par) st1).2) in *. clearbody st2.
  split_and!.
  - done.
  - destruct Hop as [Hv Hcase]. split; [lia|].
    destruct Hcase as [(p & l & Hk & Hs)|Hnil].
    + left. exists p, l.
      destruct (Hold2 p) as [-> ->];
        [rewrite Hh1; by eapply kind_at_valid|by rewrite Hh1].
    + right. apply Hnil2; [done|by rewrite Hp1|].
      intros Hin. rewrite Forall_forall in HF1. specialize (HF1 _ Hin). lia.
  - split_and!.
    + lia.
    + rewrite <- Hh1. lia.
    + intros q Hq. rewrite <- Hh1. apply Hold2. by rewrite Hh1.
    + intros r. rewrite <- Hp1. apply Hpre2.
Qed.

Lemma nested_requests_effects par nested st :
  loader_ok st → opening st par →
  let st' := foldl (nested_request par) st nested in
  loader_ok st' ∧ opening st' par ∧ undisturbed st st'.
Proof.
  revert st. induction nested as [|ss nested IH]; intros st OK Hop; simpl.
  { split_and!; [done..|apply undisturbed_refl]. }
  destruct (nested_request_effects par ss st OK Hop) as (OK1 & Hop1 & U1).
  destruct (IH _ OK1 Hop1) as (OK2 & Hop2 & U2).
  split_and!; [done..|]. by eapply undisturbed_trans.
Qed.

Lemma _open_effects data r st :
  loader_ok st → opening st r →
  let st' := (_open data r st).2 in
  loader_ok st' ∧ undisturbed st st'.
Proof.
  intros OK Hop. unfold _open.
  destruct (_handlers st !! _) as [h|]; cbn [fst snd].
  - destruct (nested_requests_effects r (o_nested (h_open h data (obj st r)))
                (fire (Call_open r data) st) OK Hop) as (? & ? & ?).
    done.
  - split; [done|apply undisturbed_refl].
Qed.

Lemma obj_at_valid os r : r_promises (obj_at os r) ≠ [] → r < length os.
Proof.
  intros Hne. destruct (decide (r < length os)); [done|].
  rewrite obj_at_invalid in Hne by lia. done.
Qed.

Lemma settle_primary_effects p s st r :
  loader_ok st → kind_of st p = Some (KindPrimary r false) → s ≠ Pending →
  loader_ok (settle p s st).
Proof.
  intros [I T] Hk Hs. split; [|done]. unfold settle. proj.
  apply Inv_settle; [done|]. split; [done|]. by rewrite Hk.
Qed.

Lemma resolve_postOpen_effects p resource r st r' :
  loader_ok st → kind_of st p = Some (KindPrimary r' false) →
  loader_ok (resolve_postOpen p resource r st).
Proof.
  intros [I T] Hk. unfold resolve_postOpen.
  pose proof (_postOpen_frame resource r st) as (Ho & Hh & Ht & _).
  pose proof (_postOpen_table resource r st T) as T1.
  destruct (_postOpen resource r st) as [[x|x] st1]; cbn [fst snd] in *;
    (eapply settle_primary_effects; [|by rewrite Hh|done]);
    (split; [by rewrite Ho, Hh, Ht|done]).
Qed.

Lemma set_kind_primary_effects p r l l' st :
  loader_ok st → kind_of st p = Some (KindPrimary r l) →
  (l' = true → state_of st p = Pending) →
  let st' := set_kind p (KindPrimary r l') st in
  loader_ok st' ∧ kind_of st' p = Some (KindPrimary r l') ∧
  state_of st' p = state_of st p ∧ objects st' = objects st.
Proof.
  intros [I T] Hk Hl. unfold set_kind. proj. split_and!.
  - split; [|done]. proj. apply Inv_set_kind; [done|].
    unfold set_kind_ok. by rewrite Hk.
  - rewrite kind_at_set_kind, decide_True; [done|].
    split; [done|]. by eapply kind_at_valid.
  - apply state_at_set_kind.
  - done.
Qed.

Lemma loading_request_Some st p r :
  loading_request st p = Some r → kind_of st p = Some (KindPrimary r true).
Proof.
  unfold loading_request.
  destruct (kind_of st p) as [[r' [|]| | |]|]; try done. by intros [= ->].
Qed.

Lemma load_fulfilled_effects p data st st' :
  loader_ok st → load_fulfilled p data st = Some st' → loader_ok st'.
Proof.
  intros OK. unfold load_fulfilled.
  destruct (loading_request st p) as [r|] eqn:E; [|done]. simpl.
  apply loading_request_Some in E.
  destruct OK as [I T].
  destruct (inv_primary _ _ _ I p r true E) as [Hhead Hpend].
  assert (Hr : r < length (objects st)).
  { apply obj_at_valid. by destruct (r_promises (obj st r)). }
  destruct (set_kind_primary_effects p r true false st) as (OK1 & Hk1 & Hs1 & Ho1);
    [done..|].
  set (st1 := set_kind p (KindPrimary r false) st) in *. clearbody st1.
  assert (Hop : opening st1 r).
  { split; [by rewrite Ho1|]. left. exists p, false. split; [done|].
    rewrite Hs1. auto. }
  destruct (_open_effects data r st1 OK1 Hop) as (OK2 & _ & _ & Hq & _).
  destruct (Hq p) as [Hs2 Hk2]; [by eapply kind_at_valid|].
  rewrite Hk1 in Hk2.
  destruct (_open data r st1) as [[resource|e] st2]; cbn [fst snd] in *;
    intros [= <-].
  - destruct (truthy resource).
    + by eapply resolve_postOpen_effects.
    + by eapply settle_primary_effects.
  - by eapply settle_primary_effects.
Qed.

Lemma load_rejected_effects p error st st' :
  loader_ok st → load_rejected p error st = Some st' → loader_ok st'.
Proof.
  intros OK. unfold load_rejected.
  destruct (loading_request st p) as [r|] eqn:E; [|done]. simpl.
  apply loading_request_Some in E.
  destruct (set_kind_primary_effects p r true false st) as (OK1 & Hk1 & Hs1 & Ho1);
    [done..|].
  intros [= <-]. by eapply (settle_primary_effects _ _ (fire _ _)).
Qed.

Lemma open_effects type Type_ data st :
  loader_ok st → loader_ok (open type Type_ data st).2.
Proof.
  intros [I T]. unfold open. cbn [new_request].
  set (st1 := set_objects _ st).
  assert (Hp1 : ∀ r, r_promises (obj st1 r) = r_promises (obj st r)).
  { intros r. subst st1. cbn [objects set_objects]. apply obj_at_app_fields. }
  assert (OK1 : loader_ok st1).
  { split.
    - subst st1. cbn [objects set_objects heap tasks set_heap]. by apply Inv_new_object.
    - intros c e He. destruct (T c e He) as [H1 H2]. rewrite Hp1. split; [|done].
      subst st1. cbn [objects set_objects]. rewrite length_app. lia. }
  assert (Hop : opening st1 (length (objects st))).
  { split.
    - subst st1. cbn [objects set_objects]. rewrite length_app. simpl. lia.
    - right. rewrite Hp1. by rewrite obj_at_invalid. }
  by destruct (_open_effects data (length (objects st)) st1 OK1 Hop).
Qed.

End opening.

(** ** Every step keeps the invariant *)

Section steps.
Implicit Types (st : ResourceLoader).

Lemma loader_ok_frame st st' :
  objects st' = objects st → heap st' = heap st → tasks st' = tasks st →
  _requests st' = _requests st → loader_ok st → loader_ok st'.
Proof.
  intros Ho Hh Ht Hr [I T]. split; [by rewrite Ho, Hh, Ht|].
  intros c e. rewrite Hr, Ho. apply T.
Qed.

Lemma loader_ok_new : loader_ok new_ResourceLoader.
Proof.
  split; [split|]; unfold reactions_at, kind_at, call_at, obj_at, kind_at;
    simpl; intros; try done;
    try (by match goal with H : _ ∈ [] |- _ => apply elem_of_nil in H end).
Qed.

Lemma step_ok a st st' :
  top_level a → loader_ok st → step a st = Some st' → loader_ok st'.
Proof.
  intros Htop OK. destruct a; simpl.
  - unfold registerHandler. case_decide; [done|]. intros [= <-].
    by eapply loader_ok_frame; [..|exact OK].
  - intros [= <-]. eapply loader_ok_frame; [..|exact OK];
      unfold registerHash;
      repeat match goal with
             | |- context [truthy_entry ?o] => destruct (truthy_entry o)
             end; reflexivity.
  - intros [= <-]. unfold unregisterHash. destruct (getHash _ _); [|done].
    destruct (truthy_string _); [|done].
    by eapply loader_ok_frame; [..|exact OK].
  - intros [= <-]. rewrite addToCache_eq.
    by eapply loader_ok_frame; [..|exact OK].
  - intros [= <-]. unfold removeFromCache. destruct (getHash _ _); [|done].
    destruct (truthy_string _); [|done].
    by eapply loader_ok_frame; [..|exact OK].
  - intros [= <-]. by eapply loader_ok_frame; [..|exact OK].
  - intros [= <-]. by destruct (new_requests_effects [s] st OK) as [? _].
  - destruct parent as [par|]; [done|].
    destruct (forallb _ _) eqn:E; [|done]. simpl. intros [= <-].
    destruct OK as [I T].
    destruct (request_effects rs None st I T) as (_ & I' & T' & _); [|done|done].
    apply Forall_forall. intros r Hr.
    rewrite forallb_forall in E. specialize (E r).
    unfold valid_request in E. simpl. eapply bool_decide_eq_true_1.
    apply E. by apply list_elem_of_In.
  - pose proof (open_effects type Type_ data st OK) as OK'.
    destruct (open type Type_ data st) as [[v|e] st1]; [|done].
    by intros [= <-].
  - by apply load_fulfilled_effects.
  - by apply load_rejected_effects.
  - destruct (tasks st) as [|[k s] rest] eqn:E; [done|]. intros [= <-].
    destruct OK as [I T]. rewrite E in I. apply Inv_pop in I as [I Hrun].
    by destruct (run_reaction_effects k s (set_tasks rest st) I T Hrun)
      as (? & ? & _).
Qed.

Lemma run_ok acts st st' :
  Forall top_level acts → loader_ok st → run acts st = Some st' →
  loader_ok st'.
Proof.
  revert st. induction acts as [|a acts IH]; intros st Htop OK; simpl.
  { by intros [= <-]. }
  apply Forall_cons in Htop as [Ha Htop].
  destruct (step a st) as [st1|] eqn:E; [|done]. simpl.
  apply IH; [done|]. by eapply step_ok.
Qed.


End steps.

(** ** The branches of [_request] *)

Section dispatch.
Implicit Types (st : ResourceLoader).

(** The state in which [_request] looks at [request.promises]. *)
Lemma _request_begin r st :
  let st1 :=
    fire (Fire_request r)
      match r_id (obj st r) with
      | None =>
          set_sequence (S (_sequence st))
            (update_obj r (set_r_id (Some (_sequence st))) st)
      | Some _ => st
      end in
  objects st1 = objects_with_id r st ∧ heap st1 = heap st ∧
  tasks st1 = tasks st ∧ _handlers st1 = _handlers st ∧
  _requests st1 = _requests st ∧ _cache st1 = _cache st ∧
  _hashes st1 = _hashes st ∧ _canonicals st1 = _canonicals st ∧
  _requested st1 = _requested st ∧ _loaded st1 = _loaded st ∧
  events st1 = Fire_request r :: events st.
Proof. unfold objects_with_id. by destruct (r_id (obj st r)). Qed.

Lemma dispatched_obj_field {A} (g : ResourceRequest → A) st r :
  (∀ i q, g (set_r_id i q) = g q) → g (dispatched_obj st r) = g (obj st r).
Proof. apply obj_at_objects_with_id. Qed.

Ltac request_begin r st :=
  unfold _request;
  let H := fresh in
  pose proof (_request_begin r st) as H; cbv zeta in H;
  match type of H with
  | objects ?s = _ ∧ _ =>
      let st1 := fresh "st1" in
      set (st1 := s) in *; clearbody st1;
      destruct H as (Ho & Hh & Ht & Hha & Hrq & Hca & Hhs & Hcn & Hrd & Hld & Hev)
  end.

Lemma _request_missing_handler r st :
  r_promises (obj st r) = [] →
  _handlers st !! r_type (obj st r) = None →
  let st' := (_request r st).2 in
  let msg := missing_handler (r_type (obj st r)) in
  (_request r st).1 = length (heap st) ∧
  heap st' = heap st ++ [Promise (Rejected msg) [] (KindPrimary r false)] ∧
  events st' = Fire_error r msg :: Fire_request r :: events st ∧
  _requested st' = S (_requested st) ∧ _loaded st' = _loaded st.
Proof.
  intros Hnew Hnone. request_begin r st.
  assert (Hpr : r_promises (obj st1 r) = r_promises (obj st r))
    by (rewrite Ho; by apply (obj_at_objects_with_id r_promises)).
  assert (Hty : r_type (obj st1 r) = r_type (obj st r))
    by (rewrite Ho; by apply (obj_at_objects_with_id r_type)).
  assert (Hcan : r_canonical (obj st1 r) = r_canonical (obj st r))
    by (rewrite Ho; by apply (obj_at_objects_with_id r_canonical)).
  assert (HTy : r_Type (obj st1 r) = r_Type (obj st r))
    by (rewrite Ho; by apply (obj_at_objects_with_id r_Type)).
  rewrite Hpr, Hnew. proj.
  rewrite Hty, Hha, Hnone. proj.
  rewrite ?Hty, Hh, Hev, Hrd, Hld.
  rewrite settle_heap_new by done. done.
Qed.

Lemma getFromCache_frame st st' :
  _hashes st' = _hashes st → _cache st' = _cache st →
  ∀ i, getFromCache st' i = getFromCache st i.
Proof. intros Hh Hc i. unfold getFromCache, getHash. by rewrite Hh, Hc. Qed.

Lemma _request_load r st h :
  r_promises (obj st r) = [] →
  _handlers st !! r_type (obj st r) = Some h →
  truthy (getFromCache st (r_canonical (obj st r)))
  && type_matches (getFromCache st (r_canonical (obj st r)))
       (r_Type (obj st r)) = false →
  let st' := (_request r st).2 in
  (_request r st).1 = length (heap st) ∧
  heap st' = heap st ++ [Promise Pending [] (KindPrimary r true)] ∧
  events st' = Call_load r :: Fire_request r :: events st ∧
  _requested st' = S (_requested st) ∧ _loaded st' = _loaded st ∧
  _cache st' = _cache st.
Proof.
  intros Hnew Hsome Hmiss. request_begin r st.
  assert (Hpr : r_promises (obj st1 r) = r_promises (obj st r))
    by (rewrite Ho; by apply (obj_at_objects_with_id r_promises)).
  assert (Hty : r_type (obj st1 r) = r_type (obj st r))
    by (rewrite Ho; by apply (obj_at_objects_with_id r_type)).
  assert (Hcan : r_canonical (obj st1 r) = r_canonical (obj st r))
    by (rewrite Ho; by apply (obj_at_objects_with_id r_canonical)).
  assert (HTy : r_Type (obj st1 r) = r_Type (obj st r))
    by (rewrite Ho; by apply (obj_at_objects_with_id r_Type)).
  rewrite Hpr, Hnew. proj.
  rewrite Hty, Hha, Hsome.
  rewrite Hcan, HTy.
  rewrite (getFromCache_frame st) by done.
  unfold type_matches in Hmiss. rewrite Hmiss. proj.
  rewrite alter_app_new, Hh, Hev, Hrd, Hld, Hca. done.
Qed.

Lemma _postOpen_Return resource r st h :
  _handlers st !! r_type (obj st r) = Some h →
  let v := h_clone h resource (obj st r) in
  let st' := (_postOpen resource r st).2 in
  (_postOpen resource r st).1 = Return v ∧
  events st' =
    Fire_load r v :: Fire_progress (S (_loaded st)) (_requested st)
    :: Call_clone r resource :: events st ∧
  _loaded st' = S (_loaded st) ∧ _requested st' = _requested st ∧
  _cache st' = _cache (addToCache (r_canonical (obj st r)) resource st) ∧
  _requests st' = delete (r_canonical (obj st r)) (_requests st).
Proof.
  intros Hsome. unfold _postOpen. rewrite addToCache_eq. proj.
  rewrite Hsome. proj. done.
Qed.

Lemma _request_cache_hit r st h :
  r_promises (obj st r) = [] →
  _handlers st !! r_type (obj st r) = Some h →
  truthy (getFromCache st (r_canonical (obj st r)))
  && type_matches (getFromCache st (r_canonical (obj st r)))
       (r_Type (obj st r)) = true →
  let st' := (_request r st).2 in
  let resource := getFromCache st (r_canonical (obj st r)) in
  let v := h_clone h resource (dispatched_obj st r) in
  (_request r st).1 = length (heap st) ∧
  heap st' = heap st ++ [Promise (Fulfilled v) [] (KindPrimary r false)] ∧
  events st' =
    Fire_load r v :: Fire_progress (S (_loaded st)) (_requested st)
    :: Call_clone r resource :: Fire_request r :: events st ∧
  _requested st' = S (_requested st) ∧ _loaded st' = S (_loaded st).
Proof.
  intros Hnew Hsome Hhit. request_begin r st.
  assert (Hpr : r_promises (obj st1 r) = r_promises (obj st r))
    by (rewrite Ho; by apply (obj_at_objects_with_id r_promises)).
  assert (Hty : r_type (obj st1 r) = r_type (obj st r))
    by (rewrite Ho; by apply (obj_at_objects_with_id r_type)).
  assert (Hcan : r_canonical (obj st1 r) = r_canonical (obj st r))
    by (rewrite Ho; by apply (obj_at_objects_with_id r_canonical)).
  assert (HTy : r_Type (obj st1 r) = r_Type (obj st r))
    by (rewrite Ho; by apply (obj_at_objects_with_id r_Type)).
  rewrite Hpr, Hnew. proj.
  rewrite Hty, Hha, Hsome.
  rewrite Hcan, HTy.
  rewrite (getFromCache_frame st) by done.
  unfold type_matches in Hhit. rewrite Hhit.
  unfold resolve_postOpen.
  match goal with |- context [_postOpen ?a ?b ?c] =>
    pose proof (_postOpen_Return a b c h) as HP;
    pose proof (_postOpen_frame a b c) as HF
  end.
  cbv zeta in HP, HF. proj.
  rewrite Hty, Hha in HP. specialize (HP Hsome).
  destruct HP as (HP1 & HP2 & HP3 & HP4 & _).
  destruct HF as (HF1 & HF2 & HF3 & _).
  destruct (_postOpen _ _ _) as [c st2]. cbn [fst snd] in *. subst c. proj.
  rewrite HF2, HP2, HP3, HP4, settle_heap_new, Hh, Hev, Hrd, Hld by done.
  unfold dispatched_obj. rewrite <- Ho. done.
Qed.


Lemma state_at_last h pr : state_at (h ++ [pr]) (length h) = p_state pr.
Proof. apply state_at_app_new. Qed.

(** C10.  With no handler registered for [type], [open] throws the
    [TypeError] of reading [open] from [undefined] (so the call fails),
    whereas [_request] rejects the promise of a new request of that type
    with the message "Missing handler for type: ..." after firing an
    [error] event. *)
Theorem open_unguarded_handler_lookup st type :
  _handlers st !! type = None →
  (∀ Type_ data,
     (open type Type_ data st).1 = Throw TypeError ∧
     step (Do_open type Type_ data) st = None) ∧
  (∀ r, r_type (obj st r) = type → r_promises (obj st r) = [] →
     state_of (_request r st).2 (_request r st).1 =
       Rejected (VStr ("Missing handler for type: " +:+ type)) ∧
     events (_request r st).2 =
       Fire_error r (VStr ("Missing handler for type: " +:+ type))
       :: Fire_request r :: events st).
Proof.
  intros Hnone. split.
  - intros Type_ data.
    assert ((open type Type_ data st).1 = Throw TypeError) as H.
    { unfold open, _open. proj. rewrite obj_at_app_new. simpl. by rewrite Hnone. }
    split; [done|]. simpl. by destruct (open type Type_ data st) as [[] ?].
  - intros r Htype Hnew. rewrite <- Htype in Hnone.
    destruct (_request_missing_handler r st Hnew Hnone) as (-> & -> & -> & _).
    rewrite state_at_last. unfold missing_handler. by rewrite Htype.
Qed.

Lemma open_unguarded_handler_lookup_witness :
  let st := (new_request (RequestSpec "tex.png" "image" None VUndefined VUndefined)
               new_ResourceLoader).2 in
  (open "image" None (VStr "data") st).1 = Throw TypeError ∧
  state_of (_request 0 st).2 (_request 0 st).1 =
    Rejected (VStr "Missing handler for type: image").
Proof.
  intros st.
  destruct (open_unguarded_handler_lookup st "image") as [H1 H2].
  - reflexivity.
  - split.
    + apply (H1 None (VStr "data")).
    + apply (H2 0); reflexivity.
Defined.

(** A new request whose canonical identifier has a truthy resource in
    the cache, for a type with a handler: when the request declares a
    [Type] the cached resource is not an instance of, [_request] calls the
    handler's [load] and leaves the promise pending, without a post-open
    pass; when the request declares no [Type], or one the resource is an
    instance of, [_request] does not call [load] and fulfils the promise
    with the clone of the cached resource. *)
Lemma cache_type_mismatch_bypass st r h hash resource :
  r_promises (obj st r) = [] →
  _handlers st !! r_type (obj st r) = Some h →
  getHash st (r_canonical (obj st r)) = Some hash → hash ≠ "" →
  _cache st !! hash = Some resource → truthy resource = true →
  let p := (_request r st).1 in
  let st' := (_request r st).2 in
  (∀ T, r_Type (obj st r) = Some T → instanceof resource T = false →
     loading_request st' p = Some r ∧ state_of st' p = Pending ∧
     events st' = Call_load r :: Fire_request r :: events st) ∧
  (r_Type (obj st r) = None ∨
   (∃ T, r_Type (obj st r) = Some T ∧ instanceof resource T = true) →
     loading_request st' p = None ∧
     state_of st' p = Fulfilled (h_clone h resource (dispatched_obj st r)) ∧
     events st' =
       Fire_load r (h_clone h resource (dispatched_obj st r))
       :: Fire_progress (S (_loaded st)) (_requested st)
       :: Call_clone r resource :: Fire_request r :: events st).
Proof.
  intros Hnew Hsome Hhash Hne Hcache Htruthy p st'. subst p st'.
  assert (Hget : getFromCache st (r_canonical (obj st r)) = resource).
  { unfold getFromCache. by rewrite Hhash, (truthy_string_ne _ Hne), Hcache. }
  split.
  - intros T HT Hinst.
    destruct (_request_load r st h Hnew Hsome) as (-> & Hh & -> & _).
    { rewrite Hget, Htruthy, HT. simpl. done. }
    unfold loading_request. rewrite Hh, kind_at_app_new, state_at_app_new. done.
  - intros Hmatch.
    destruct (_request_cache_hit r st h Hnew Hsome) as (-> & Hh & Hev & _).
    { rewrite Hget, Htruthy. simpl.
      destruct Hmatch as [->|(T & -> & ?)]; done. }
    unfold loading_request.
    rewrite Hh, kind_at_app_new, state_at_app_new, Hev, Hget. done.
Qed.

End dispatch.

(** ** What a request leaves alone *)

Section config.
Implicit Types (st : ResourceLoader).

Lemma promises_only_refl st : promises_only st st.
Proof. unfold promises_only. by destruct st. Qed.

Lemma promises_only_trans st1 st2 st3 :
  promises_only st1 st2 → promises_only st2 st3 → promises_only st1 st3.
Proof.
  unfold promises_only. intros H1 H2. destruct st1, st2, st3.
  cbv in H1, H2 |- *. congruence.
Qed.

Lemma promises_only_fields st st' :
  promises_only st st' →
  objects st' = objects st ∧ _handlers st' = _handlers st ∧
  _requests st' = _requests st ∧ _cache st' = _cache st ∧
  _hashes st' = _hashes st ∧ _canonicals st' = _canonicals st ∧
  _requested st' = _requested st ∧ _loaded st' = _loaded st ∧
  events st' = events st.
Proof. intros ->. done. Qed.

Lemma promises_only_then p k st : promises_only st (then_ p k st).
Proof. unfold promises_only. by destruct st. Qed.

Lemma promises_only_settle p s st : promises_only st (settle p s st).
Proof. unfold promises_only. by destruct st. Qed.

Lemma promises_only_set_kind p k st : promises_only st (set_kind p k st).
Proof. unfold promises_only. by destruct st. Qed.

Lemma promises_only_new_promise k st : promises_only st (new_promise k st).2.
Proof. unfold promises_only. by destruct st. Qed.

Lemma all_subscribe_frame agg i ps st :
  promises_only st (all_subscribe agg i ps st) ∧
  length (heap (all_subscribe agg i ps st)) = length (heap st) ∧
  ∀ q, state_of (all_subscribe agg i ps st) q = state_of st q ∧
       kind_of (all_subscribe agg i ps st) q = kind_of st q.
Proof.
  revert i st. induction ps as [|p ps IH]; intros i st; simpl.
  { split; [apply promises_only_refl|done]. }
  destruct (IH (S i) (then_ p (KAll agg i) st)) as (H1 & H2 & H3).
  split_and!.
  - eapply promises_only_trans; [apply promises_only_then|done].
  - rewrite H2. proj. apply length_then.
  - intros q. destruct (H3 q) as [-> ->]. proj.
    by rewrite state_at_then, kind_at_then.
Qed.

Lemma all_frame ps st :
  (all ps st).1 = length (heap st) ∧
  promises_only st (all ps st).2 ∧
  ∀ q, q < length (heap st) →
    state_of (all ps st).2 q = state_of st q ∧
    kind_of (all ps st).2 q = kind_of st q.
Proof.
  unfold all. proj.
  set (k := KindAll _ _).
  set (st1 := match ps with [] => _ | _ => _ end).
  assert (H1 : promises_only st st1 ∧
               ∀ q, q < length (heap st) →
                 state_of st1 q = state_of st q ∧ kind_of st1 q = kind_of st q).
  { subst st1. destruct ps.
    - split.
      + eapply promises_only_trans; [apply (promises_only_new_promise k)|].
        apply promises_only_settle.
      + intros q Hq. proj.
        rewrite state_at_settle, kind_at_settle.
        rewrite decide_False by lia.
        by rewrite state_at_app_old, kind_at_app_old.
    - split; [apply (promises_only_new_promise k)|].
      intros q Hq. proj. by rewrite state_at_app_old, kind_at_app_old. }
  clearbody st1. destruct H1 as [H1 H2].
  destruct (all_subscribe_frame (length (heap st)) 0 ps st1) as (H3 & _ & H4).
  split_and!; [done| |].
  - by eapply promises_only_trans.
  - intros q Hq. destruct (H4 q) as [-> ->]. by apply H2.
Qed.

Lemma canonical_of_frame st st' :
  _hashes st' = _hashes st → _canonicals st' = _canonicals st →
  ∀ i, canonical_of st' i = canonical_of st i.
Proof. intros Hh Hc i. unfold canonical_of, getHash. by rewrite Hh, Hc. Qed.

Lemma config_kept_refl st : config_kept st st.
Proof. split; auto. Qed.

Lemma config_kept_trans st1 st2 st3 :
  config_kept st1 st2 → config_kept st2 st3 → config_kept st1 st3.
Proof.
  intros [A1 A2 A3 A4 A5 A6] [B1 B2 B3 B4 B5 B6]. split.
  - congruence.
  - congruence.
  - congruence.
  - lia.
  - intros r Hr. destruct (A5 r Hr) as (<- & <- & <-). apply B5. lia.
  - intros r Hr. destruct (A5 r Hr) as (Hi & _).
    destruct (B6 r) as [->| ->]; [lia|by apply A6|].
    right. rewrite Hi. by apply canonical_of_frame.
Qed.

Lemma config_kept_promises st st' : promises_only st st' → config_kept st st'.
Proof.
  intros H. destruct (promises_only_fields _ _ H) as (Ho & Hha & _ & _ & Hhs & Hcn & _).
  split; rewrite ?Ho; auto.
Qed.

(** Updating fields of one object. *)
Lemma config_kept_objects st st' :
  length (objects st') = length (objects st) →
  (∀ r, r_identifier (obj st' r) = r_identifier (obj st r) ∧
        r_type (obj st' r) = r_type (obj st r) ∧
        r_Type (obj st' r) = r_Type (obj st r)) →
  (∀ r, r_canonical (obj st' r) = r_canonical (obj st r) ∨
        r_canonical (obj st' r) = canonical_of st (r_identifier (obj st r))) →
  _handlers st' = _handlers st →
  _hashes st' = _hashes st → _canonicals st' = _canonicals st →
  config_kept st st'.
Proof. intros Hl Hf Hc Hha Hhs Hcn. split; auto. lia. Qed.

Lemma update_obj_config r f st :
  (∀ q, r_identifier (f q) = r_identifier q) →
  (∀ q, r_type (f q) = r_type q) → (∀ q, r_Type (f q) = r_Type q) →
  (∀ q, r_canonical (f q) = r_canonical q ∨
        r_canonical (f q) = canonical_of st (r_identifier q)) →
  config_kept st (update_obj r f st).
Proof.
  intros F1 F2 F3 F4. apply config_kept_objects; try done.
  - apply length_alter.
  - intros r'. proj. by rewrite !obj_at_alter_field.
  - intros r'. proj. rewrite obj_at_alter. case_decide as Hd; [|auto].
    destruct Hd as [-> _]. apply F4.
Qed.

Lemma _request_frame r st :
  _handlers (_request r st).2 = _handlers st ∧
  _hashes (_request r st).2 = _hashes st ∧
  _canonicals (_request r st).2 = _canonicals st.
Proof.
  unfold _request.
  pose proof (_request_begin r st) as H. cbv zeta in H.
  match type of H with objects ?s = _ ∧ _ => set (st1 := s) in *; clearbody st1 end.
  destruct H as (_ & _ & _ & Hha & _ & _ & Hhs & Hcn & _).
  destruct (r_promises (obj st1 r)) as [|p0 ps]; proj; [|done].
  destruct (_handlers st1 !! _); [destruct (_ && _)|]; proj; try done.
  unfold resolve_postOpen.
  match goal with |- context [_postOpen ?a ?b ?c] =>
    pose proof (_postOpen_frame a b c) as HF; cbv zeta in HF;
    destruct HF as (_ & _ & _ & HF1 & HF2 & HF3 & _);
    destruct (_postOpen a b c) as [[v|e] st2]
  end; cbn [fst snd] in *; proj; by rewrite HF1, HF2, HF3.
Qed.

Lemma _request_objects r st :
  ∃ f, objects (_request r st).2 = alter f r (objects_with_id r st) ∧
       (∀ q, r_identifier (f q) = r_identifier q) ∧
       (∀ q, r_type (f q) = r_type q) ∧ (∀ q, r_Type (f q) = r_Type q) ∧
       (∀ q, r_canonical (f q) = r_canonical q).
Proof.
  pose proof (_request_spec r st) as [_ Hspec]. cbv zeta in Hspec.
  destruct (r_promises (obj st r)) as [|p0 ps].
  - destruct Hspec as (s & l & _ & _ & _ & Ho). eauto 10.
  - destruct Hspec as (_ & _ & Ho). eauto 10.
Qed.

Lemma _request_config r st : config_kept st (_request r st).2.
Proof.
  destruct (_request_frame r st) as (Hha & Hhs & Hcn).
  destruct (_request_objects r st) as (f & Ho & F1 & F2 & F3 & F4).
  apply config_kept_objects; try done.
  - by rewrite Ho, length_alter, length_objects_with_id.
  - intros r'. rewrite Ho, !obj_at_alter_field by done.
    split_and!; by apply obj_at_objects_with_id.
  - intros r'. left. rewrite Ho, obj_at_alter_field by done.
    by apply (obj_at_objects_with_id r_canonical).
Qed.

Lemma _makeCanonical_config r st : config_kept st (_makeCanonical r st).
Proof.
  unfold _makeCanonical. apply config_kept_objects; try done.
  - apply length_alter.
  - intros r'. proj. by rewrite !obj_at_alter_field.
  - intros r'. proj. rewrite obj_at_alter. case_decide as Hd; [|auto].
    destruct Hd as [-> _]. by right.
Qed.

Lemma request_loop_config parent rs st :
  config_kept st (request_loop parent rs st).2.
Proof.
  revert st. induction rs as [|r0 rs IH]; intros st.
  { apply config_kept_refl. }
  cbn [request_loop].
  set (r := _findExistingRequest r0 st).
  set (sta := if decide (r = r0) then st else _).
  assert (Ha : config_kept st sta).
  { subst sta. case_decide; [apply config_kept_refl|].
    apply update_obj_config; auto. }
  clearbody sta.
  pose proof (_makeCanonical_config r sta) as Hb.
  set (stb := _makeCanonical r sta) in *. clearbody stb.
  pose proof (_request_config r stb) as Hc.
  destruct (_request r stb) as [p stc]. cbn [snd] in Hc.
  set (std := match parent with Some _ => _ | None => _ end).
  assert (Hd : config_kept stc std).
  { subst std. destruct parent; [|apply config_kept_refl].
    apply update_obj_config; auto. }
  clearbody std. specialize (IH std).
  destruct (request_loop parent rs std) as [[requested promises] ste].
  cbn [snd] in *.
  eauto using config_kept_trans.
Qed.

Lemma request_config rs parent st : config_kept st (request rs parent st).2.
Proof.
  unfold request.
  pose proof (promises_only_new_promise (KindOuter None) st) as H1.
  destruct (new_promise (KindOuter None) st) as [outer st1]. cbn [snd] in H1.
  pose proof (request_loop_config parent rs st1) as H2.
  destruct (request_loop parent rs st1) as [[requested promises] st2].
  cbn [snd] in H2.
  set (st3 := set_kind _ _ st2).
  destruct (all_frame promises st3) as (_ & H4 & _).
  destruct (all promises st3) as [agg st4]. cbn [snd] in *.
  eapply config_kept_trans; [by apply config_kept_promises|].
  eapply config_kept_trans; [done|].
  eapply config_kept_trans;
    [apply config_kept_promises, (promises_only_set_kind outer)|].
  eapply config_kept_trans; [by apply config_kept_promises|].
  apply config_kept_promises, promises_only_then.
Qed.

Lemma new_request_config s st : config_kept st (new_request s st).2.
Proof.
  split; try done; proj.
  - rewrite length_app. lia.
  - intros r Hr. by rewrite obj_at_app_old.
  - intros r Hr. left. by rewrite obj_at_app_old.
Qed.

Lemma new_requests_config ss st : config_kept st (new_requests ss st).2.
Proof.
  revert st. induction ss as [|s ss IH]; intros st.
  { apply config_kept_refl. }
  cbn [new_requests].
  pose proof (new_request_config s st) as H1.
  destruct (new_request s st) as [r st1].
  specialize (IH st1). destruct (new_requests ss st1) as [rs st2].
  cbn [snd] in *. by eapply config_kept_trans.
Qed.

Lemma nested_request_config parent st ss :
  config_kept st (nested_request parent st ss).
Proof.
  unfold nested_request.
  pose proof (new_requests_config ss st) as H1.
  destruct (new_requests ss st) as [rs st1]. cbn [snd] in H1.
  eapply config_kept_trans; [done|apply request_config].
Qed.

Lemma _open_config data r st : config_kept st (_open data r st).2.
Proof.
  unfold _open. destruct (_handlers st !! _) as [h|]; cbn [snd];
    [|apply config_kept_refl].
  set (st1 := fire _ st).
  assert (H1 : config_kept st st1) by (split; auto).
  clearbody st1. revert st1 H1.
  induction (o_nested _) as [|ss l IH]; intros st1 H1; [done|].
  simpl. apply IH. eapply config_kept_trans; [done|].
  apply nested_request_config.
Qed.

End config.

(** ** One new request *)

Section single_request.
Implicit Types (st : ResourceLoader).

(** [request] for one request that is not merged into another. *)
Lemma request_single r st :
  _requests st !! r_canonical (obj st r) = None →
  let outer := length (heap st) in
  let stb := _makeCanonical r (new_promise (KindOuter None) st).2 in
  let p := (_request r stb).1 in
  let stc := (_request r stb).2 in
  let st' := (request [r] None st).2 in
  (request [r] None st).1 = outer ∧
  promises_only stc st' ∧
  (outer < length (heap stc) → call_at (heap st') outer = Some ([r], [p])) ∧
  (∀ q, q < length (heap stc) →
     state_of st' q = state_of stc q ∧
     (q ≠ outer → kind_of st' q = kind_of stc q)).
Proof.
  intros Hnone outer stb p stc st'.
  assert (Hfind : _findExistingRequest r (new_promise (KindOuter None) st).2 = r).
  { unfold _findExistingRequest. proj. by rewrite Hnone. }
  subst st'. unfold request.
  destruct (new_promise (KindOuter None) st) as [o sta] eqn:E.
  assert (o = outer) as -> by (by injection E).
  cbn [snd] in *. cbn [request_loop]. rewrite Hfind.
  rewrite decide_True by done. fold stb.
  subst p stc. destruct (_request r stb) as [p stc]. cbn [fst snd].
  set (k := KindOuter _).
  destruct (all_frame [p] (set_kind outer k stc)) as (_ & H1 & H2).
  destruct (all [p] (set_kind outer k stc)) as [agg st4]. cbn [fst snd] in *.
  split_and!; [done| |intros Hlt|intros q Hq].
  - eapply promises_only_trans; [apply (promises_only_set_kind outer k)|].
    eapply promises_only_trans; [done|apply promises_only_then].
  - proj. unfold call_at. rewrite kind_at_then.
    destruct (H2 outer) as [_ ->]; [by rewrite length_alter|].
    rewrite kind_at_set_kind, decide_True by done. done.
  - proj. rewrite state_at_then, kind_at_then.
    destruct (H2 q) as [-> ->]; [by rewrite length_alter|].
    rewrite state_at_set_kind, kind_at_set_kind. split; [done|].
    intros Hne. by rewrite decide_False by tauto.
Qed.


(** [request(new ResourceRequest(...))] for an identifier under which no
    request is in flight, with a handler for its type. *)
Lemma request_fresh s st h :
  _requests st !! s_identifier s = None →
  _handlers st !! s_type s = Some h →
  let r := length (objects st) in
  let c := canonical_of st (s_identifier s) in
  let outer := length (heap st) in
  let p := S outer in
  let st' := (request [r] None (new_request s st).2).2 in
  let cached := getFromCache st c in
  config_kept st st' ∧
  length (objects st') = S (length (objects st)) ∧
  r_canonical (obj st' r) = c ∧ r_type (obj st' r) = s_type s ∧
  r_identifier (obj st' r) = s_identifier s ∧
  (request [r] None (new_request s st).2).1 = outer ∧
  call_at (heap st') outer = Some ([r], [p]) ∧
  state_of st' outer = Pending ∧
  (∀ q, q < length (heap st) →
     state_of st' q = state_of st q ∧ kind_of st' q = kind_of st q) ∧
  if truthy cached && type_matches cached (s_Type s) then
    ∃ q, r_identifier q = s_identifier s ∧
      state_of st' p = Fulfilled (h_clone h cached q) ∧
      kind_of st' p = Some (KindPrimary r false) ∧
      events st' =
        Fire_load r (h_clone h cached q)
        :: Fire_progress (S (_loaded st)) (_requested st)
        :: Call_clone r cached :: Fire_request r :: events st
  else
    state_of st' p = Pending ∧ kind_of st' p = Some (KindPrimary r true) ∧
    events st' = Call_load r :: Fire_request r :: events st ∧
    _cache st' = _cache st.
Proof.
  intros Hnone Hsome r c outer p st' cached.
  set (sta := (new_request s st).2) in *.
  assert (Hobj : obj sta r = new_ResourceRequest s).
  { subst sta. proj. apply obj_at_app_new. }
  assert (Hlen : length (objects sta) = S (length (objects st))).
  { subst sta. proj. rewrite length_app. simpl. lia. }
  pose proof (request_single r sta) as H. cbv zeta in H.
  rewrite Hobj in H. specialize (H Hnone).
  replace (length (heap sta)) with outer in H by done.
  set (stb := _makeCanonical r (new_promise (KindOuter None) sta).2) in *.
  assert (Hb : obj stb r = set_r_canonical c (new_ResourceRequest s)).
  { subst stb. unfold _makeCanonical. proj.
    rewrite obj_at_alter_eq by lia. by rewrite Hobj. }
  assert (Hbl : length (objects stb) = S (length (objects st))).
  { subst stb. unfold _makeCanonical. proj. by rewrite length_alter. }
  assert (Hbf : heap stb = heap st ++ [Promise Pending [] (KindOuter None)] ∧
                _handlers stb = _handlers st ∧ _hashes stb = _hashes st ∧
                _cache stb = _cache st ∧ events stb = events st ∧
                _loaded stb = _loaded st ∧ _requested stb = _requested st)
    by done.
  destruct Hbf as (Hbh & Hbha & Hbhs & Hbca & Hbev & Hbld & Hbrd).
  assert (Hbc : config_kept st stb).
  { eapply config_kept_trans; [apply (new_request_config s)|].
    eapply config_kept_trans;
      [apply config_kept_promises, (promises_only_new_promise (KindOuter None))|].
    apply _makeCanonical_config. }
  clearbody stb.
  pose proof (_request_config r stb) as Hcc.
  destruct (_request_objects r stb) as (f & Ho & F1 & F2 & F3 & F4).
  assert (Hget : getFromCache stb c = cached) by (by apply getFromCache_frame).
  assert (Hpr : r_promises (obj stb r) = []) by (by rewrite Hb).
  assert (Hty : _handlers stb !! r_type (obj stb r) = Some h)
    by (by rewrite Hb, Hbha).
  assert (Hcan : r_canonical (obj stb r) = c) by (by rewrite Hb).
  assert (HTy : r_Type (obj stb r) = s_Type s) by (by rewrite Hb).
  assert (Hid : r_identifier (dispatched_obj stb r) = s_identifier s).
  { rewrite (dispatched_obj_field r_identifier) by done. by rewrite Hb. }
  pose proof (_request_load r stb h Hpr Hty) as HL.
  pose proof (_request_cache_hit r stb h Hpr Hty) as HH.
  cbv zeta in HL, HH. rewrite Hcan, HTy, Hget in HL, HH.
  destruct H as (Hout & Hpo & Hcall & Hq).
  set (p' := (_request r stb).1) in *.
  set (stc := (_request r stb).2) in *.
  assert (Hp' : p' = p ∧ ∃ pr, heap stc = heap stb ++ [pr]).
  { destruct (truthy cached && type_matches cached (s_Type s)).
    - destruct HH as (-> & -> & _); [done|]. rewrite Hbh, length_app. simpl.
      split; [subst p outer; lia|eauto].
    - destruct HL as (-> & -> & _); [done|]. rewrite Hbh, length_app. simpl.
      split; [subst p outer; lia|eauto]. }
  destruct Hp' as [-> [pr Hpr']].
  assert (Hlc : length (heap stc) = S (S outer)).
  { rewrite Hpr', Hbh, !length_app. simpl. subst outer. lia. }
  destruct (promises_only_fields _ _ Hpo) as
    (HHo & HHha & _ & HHca & HHhs & HHcn & HHrd & HHld & HHev).
  fold st' in HHo, HHha, HHca, HHhs, HHcn, HHrd, HHld, HHev, Hq, Hcall, Hpo.
  split_and!.
  - eapply config_kept_trans; [done|].
    eapply config_kept_trans; [done|by apply config_kept_promises].
  - rewrite HHo, Ho, length_alter, length_objects_with_id. done.
  - rewrite HHo, Ho, obj_at_alter_field by done.
    by rewrite (obj_at_objects_with_id r_canonical).
  - rewrite HHo, Ho, obj_at_alter_field by done.
    rewrite (obj_at_objects_with_id r_type) by done. by rewrite Hb.
  - rewrite HHo, Ho, obj_at_alter_field by done.
    rewrite (obj_at_objects_with_id r_identifier) by done. by rewrite Hb.
  - done.
  - apply Hcall. lia.
  - destruct (Hq outer) as [-> _]; [lia|].
    rewrite Hpr', state_at_app_old, Hbh, state_at_app_new; [done|].
    rewrite Hbh, length_app. simpl. subst outer. lia.
  - intros q Hlt. destruct (Hq q) as [Hs Hk]; [subst outer; lia|].
    rewrite Hs, Hk by (subst outer; lia).
    rewrite Hpr', state_at_app_old, kind_at_app_old, Hbh
      by (rewrite Hbh, length_app; simpl; lia).
    by rewrite state_at_app_old, kind_at_app_old.
  - destruct (Hq p) as [Hs Hk]; [subst p; lia|].
    rewrite Hs, Hk, HHev, ?HHca by (subst p; lia).
    assert (Hpl : p = length (heap stb)).
    { rewrite Hbh, length_app. simpl. subst p outer. lia. }
    destruct (truthy cached && type_matches cached (s_Type s)).
    + destruct HH as (_ & -> & -> & _); [done|].
      exists (dispatched_obj stb r). rewrite Hpl, state_at_app_new, kind_at_app_new.
      by rewrite Hbev, Hbld, Hbrd.
    + destruct HL as (_ & -> & -> & _ & _ & ->); [done|].
      rewrite Hpl, state_at_app_new, kind_at_app_new. by rewrite Hbev.
Qed.

End single_request.

Section repeated.
Implicit Types (st : ResourceLoader).

Lemma _open_Return data r st h :
  _handlers st !! r_type (obj st r) = Some h →
  (_open data r st).1 = o_return (h_open h data (obj st r)).
Proof. intros H. unfold _open. by rewrite H. Qed.

(** C1 (what the code does).  While a load is outstanding for a request
    whose canonical identifier is [a], [request] for a new request with
    another identifier, which the registry maps to the canonical identifier
    [a] too, calls the handler's [load] again: the new request is looked up
    in the table of active requests under its own identifier, before it is
    made canonical, so it is not merged, and both loads are outstanding. *)
Theorem dedup_by_hash_loads_twice st sb h a ra pa :
  canonical_of st (s_identifier sb) = a → s_identifier sb ≠ a →
  r_canonical (obj st ra) = a → loading_request st pa = Some ra →
  _requests st !! a = Some ra →
  _requests st !! s_identifier sb = None →
  _handlers st !! s_type sb = Some h →
  truthy (getFromCache st a) = false →
  let rb := length (objects st) in
  let pb := S (length (heap st)) in
  let st' := (request [rb] None (new_request sb st).2).2 in
  r_canonical (obj st' rb) = a ∧
  loads st' = rb :: loads st ∧
  loading_request st' pa = Some ra ∧ loading_request st' pb = Some rb.
Proof.
  intros Hcan Hne Hra Hpa Hreq Hnone Hsome Hmiss rb pb st'.
  destruct (request_fresh sb st h Hnone Hsome)
    as (_ & _ & Hc & _ & _ & _ & _ & _ & Hold & Hnew).
  rewrite Hcan, Hmiss in Hnew. cbn [andb] in Hnew.
  destruct Hnew as (_ & Hk & Hev & _).
  fold rb st' in Hc, Hold, Hk, Hev.
  split_and!.
  - by rewrite Hc.
  - unfold loads. by rewrite Hev.
  - apply loading_request_Some in Hpa.
    unfold loading_request.
    destruct (Hold pa) as [_ ->]; [by eapply kind_at_valid|]. by rewrite Hpa.
  - unfold loading_request. subst pb. by rewrite Hk.
Qed.


End repeated.

(** ** Pending promises are waited for *)

Section live.
Implicit Types (os : list ResourceRequest) (h : list promise)
  (ts : list (reaction * pstate)) (E : reaction → Prop).

Lemma waits_mono h ts h' ts' E E' k :
  waits h ts E k →
  (E k → waits h' ts' E' k) →
  (∀ q, k ∈ reactions_at h q → waits h' ts' E' k) →
  (∀ s, (k, s) ∈ ts → waits h' ts' E' k) →
  waits h' ts' E' k.
Proof. intros [?|[[q ?]|[s ?]]] H1 H2 H3; eauto. Qed.



















End live.

Section live_requests.
Implicit Types (st : ResourceLoader) (E : reaction → Prop).








(** [_request] *)
Lemma _request_grows r st :
  let st' := (_request r st).2 in
  (∀ r', r_promises (obj st r') `prefix_of` r_promises (obj st' r')) ∧
  (∀ r', r_children (obj st' r') = r_children (obj st r')) ∧
  S (length (heap st)) = length (heap st') ∧
  (∀ q, q < length (heap st) →
     state_of st' q = state_of st q ∧ kind_of st' q = kind_of st q).
Proof.
  pose proof (_request_spec r st) as [_ Hspec]. cbv zeta in Hspec. cbv zeta.
  set (st' := (_request r st).2) in *. clearbody st'.
  assert (Hid : ∀ r', r_promises (obj_at (objects_with_id r st) r')
                      = r_promises (obj st r'))
    by (intros; by apply obj_at_objects_with_id).
  assert (Hic : ∀ r', r_children (obj_at (objects_with_id r st) r')
                      = r_children (obj st r'))
    by (intros; by apply obj_at_objects_with_id).
  destruct (r_promises (obj st r)) as [|p0 ps] eqn:Hpr.
  - destruct Hspec as (s & l & _ & Hh & _ & Ho). split_and!.
    + intros r'. rewrite Ho, obj_at_alter. case_decide as Hd.
      * destruct Hd as [-> _]. rewrite Hpr. apply prefix_nil.
      * by rewrite Hid.
    + intros r'. by rewrite Ho, obj_at_alter_field.
    + rewrite Hh, length_app. simpl. lia.
    + intros q Hq. by rewrite Hh, state_at_app_old, kind_at_app_old.
  - destruct Hspec as (Hh & _ & Ho). split_and!.
    + intros r'. rewrite Ho, obj_at_alter. case_decide as Hd.
      * destruct Hd as [-> _]. simpl. rewrite Hid. by apply prefix_app_r.
      * by rewrite Hid.
    + intros r'. by rewrite Ho, obj_at_alter_field.
    + rewrite Hh, length_then, length_app. simpl. lia.
    + intros q Hq.
      by rewrite Hh, state_at_then, kind_at_then, state_at_app_old,
        kind_at_app_old.
Qed.





















End live_requests.

Section live_steps.
Implicit Types (st : ResourceLoader).












End live_steps.

(** ** Runs of the loader *)

Section examples.

Lemma pack_run_runs : run pack_run new_ResourceLoader = Some (final pack_run).
Proof. vm_compute. reflexivity. Qed.

(** The call for the pack is not settled while the texture is loading,
    although the pack itself has been opened. *)
Example pack_waits_for_texture :
  let st := final pack_opened_run in
  state_of st 1 = Fulfilled (VObj ["Pack"] 2) ∧ state_of st 0 = Pending ∧
  loading_request st 4 = Some 1 ∧ r_children (obj st 0) = [1] ∧ tasks st = [].
Proof. vm_compute. repeat split. Qed.





(** C3 (what the code does).  In no run of the loader is a follow-on
    promise, the promise [_request] hands to a caller whose request was
    already made, ever rejected: its only callback on the primary promise is
    the one for fulfilment. *)
Theorem deduplicated_caller_never_rejected acts st p r e :
  run acts new_ResourceLoader = Some st → Forall top_level acts →
  kind_of st p = Some (KindFollow r) →
  state_of st p ≠ Rejected e.
Proof.
  intros Hrun Htop Hk.
  destruct (run_ok acts _ _ Htop loader_ok_new Hrun) as [I _].
  by destruct (inv_follow _ _ _ I p r Hk) as [_ H].
Qed.

(** The shared load fails: the promise of the first caller and the promise
    returned by its [request] call are rejected; the promise of the second
    caller and the promise returned by its [request] call stay pending, with
    no callback left to run and no load outstanding. *)
Lemma deduplicated_caller_never_rejected_witness :
  let st := final failed_load_run in
  (state_of st 1 = Rejected (VStr "404") ∧
   state_of st 0 = Rejected (VStr "404") ∧
   kind_of st 4 = Some (KindFollow 0) ∧
   call_at (heap st) 3 = Some ([0], [4]) ∧
   state_of st 4 = Pending ∧ state_of st 3 = Pending ∧
   tasks st = [] ∧ loads st = [0] ∧
   ∀ p, loading_request st p = None) ∧
  state_of st 4 ≠ Rejected (VStr "404").
Proof.
  intros st. split.
  - split_and!; try (vm_compute; reflexivity).
    intros p. do 6 (destruct p as [|p]; [vm_compute; reflexivity|]).
    vm_compute. reflexivity.
  - apply (deduplicated_caller_never_rejected failed_load_run st 4 0).
    + vm_compute. reflexivity.
    + repeat constructor.
    + vm_compute. reflexivity.
Defined.

(** The two identifiers of one hash, requested one after the other: [load]
    is called for each of the two requests, and both loads are outstanding,
    under one canonical identifier. *)
Lemma dedup_by_hash_loads_twice_witness :
  let st := final first_identifier_run in
  (getHash st "/a.png" = Some "h1" ∧ getHash st "/b.png" = Some "h1" ∧
   length (objects st) = 1 ∧ length (heap st) = 3 ∧ loads st = [0] ∧
   loads (final two_identifiers_run) = [1; 0]) ∧
  let rb := length (objects st) in
  let pb := S (length (heap st)) in
  let st' := (request [rb] None (new_request (image_request "/b.png") st).2).2 in
  r_canonical (obj st' rb) = "/a.png" ∧
  loads st' = rb :: loads st ∧
  loading_request st' 1 = Some 0 ∧ loading_request st' pb = Some rb.
Proof.
  intros st. split; [vm_compute; repeat split|].
  apply (dedup_by_hash_loads_twice st (image_request "/b.png") image_handler
           "/a.png" 0 1); first [discriminate|vm_compute; reflexivity].
Defined.

End examples.

(** ** Hash registry and cache *)

Section cache.
Implicit Types (st : ResourceLoader).

Lemma getFromCache_hashed st identifier hash :
  getHash st identifier = Some hash → hash ≠ "" →
  getFromCache st identifier = default VUndefined (_cache st !! hash).
Proof.
  intros Hh Hne. unfold getFromCache. by rewrite Hh, (truthy_string_ne _ Hne).
Qed.

Lemma addToCache_hashed st identifier hash resource :
  getHash st identifier = Some hash → hash ≠ "" →
  addToCache identifier resource st =
    set_cache (<[hash := resource]> (_cache st)) st.
Proof.
  intros Hh Hne. unfold addToCache. by rewrite Hh, (truthy_string_ne _ Hne).
Qed.

Lemma removeFromCache_hashed st identifier hash :
  getHash st identifier = Some hash → hash ≠ "" →
  removeFromCache identifier st = set_cache (delete hash (_cache st)) st.
Proof.
  intros Hh Hne. unfold removeFromCache.
  by rewrite Hh, (truthy_string_ne _ Hne).
Qed.

(** X1.  The cache is keyed by hash: a resource added under one identifier
    is what [getFromCache] returns for every identifier registered with the
    same hash, whatever was cached before; identifiers with another hash
    read what they read before. *)
Theorem addToCache_getFromCache st identifier hash resource :
  getHash st identifier = Some hash → hash ≠ "" →
  (∀ alias, getHash st alias = Some hash →
     getFromCache (addToCache identifier resource st) alias = resource) ∧
  (∀ other hash', getHash st other = Some hash' → hash' ≠ hash →
     getFromCache (addToCache identifier resource st) other
     = getFromCache st other).
Proof.
  intros Hh Hne. rewrite (addToCache_hashed _ _ _ _ Hh Hne). split.
  - intros alias Ha. rewrite (getFromCache_hashed _ alias hash) by done.
    simpl. by rewrite lookup_insert_eq.
  - intros other hash' Ho Hne'. unfold getFromCache, getHash in *. simpl.
    rewrite Ho. destruct (truthy_string hash'); [|done].
    by rewrite lookup_insert_ne.
Qed.

Lemma addToCache_getFromCache_witness :
  let st := registerHash "h1" "/b.png"
              (registerHash "h1" "/a.png" new_ResourceLoader) in
  getFromCache (addToCache "/a.png" (VObj ["Image"] 1) st) "/b.png"
  = VObj ["Image"] 1.
Proof.
  intros st.
  destruct (addToCache_getFromCache st "/a.png" "h1" (VObj ["Image"] 1))
    as [H _]; [reflexivity|discriminate|].
  apply H. reflexivity.
Defined.

(** X2.  An identifier without a hash (none registered, or the empty
    string, which is falsy) is ignored: [addToCache], [removeFromCache] and
    [unregisterHash] leave the loader as it is, and [getFromCache] returns
    [null]. *)
Theorem unhashed_identifier_ignored st identifier resource :
  truthy_entry (getHash st identifier) = false →
  addToCache identifier resource st = st ∧
  removeFromCache identifier st = st ∧
  unregisterHash identifier st = st ∧
  getFromCache st identifier = VNull.
Proof.
  unfold addToCache, removeFromCache, unregisterHash, getFromCache.
  destruct (getHash st identifier) as [hash|]; simpl; [|done].
  by intros ->.
Qed.

Lemma unhashed_identifier_ignored_witness :
  let st := registerHash "h1" "/a.png" new_ResourceLoader in
  addToCache "/b.png" (VObj ["Image"] 1) st = st ∧
  removeFromCache "/b.png" st = st ∧
  unregisterHash "/b.png" st = st ∧
  getFromCache st "/b.png" = VNull.
Proof.
  intros st. apply (unhashed_identifier_ignored st "/b.png"). reflexivity.
Defined.

(** X3.  [removeFromCache] evicts the entry of the identifier's hash: every
    identifier registered with that hash then reads [undefined] (not [null],
    which is what an identifier without hash reads), identifiers with
    another hash read what they read before, and removing again changes
    nothing. *)
Theorem removeFromCache_evicts_hash st identifier hash :
  getHash st identifier = Some hash → hash ≠ "" →
  (∀ alias, getHash st alias = Some hash →
     getFromCache (removeFromCache identifier st) alias = VUndefined) ∧
  (∀ other hash', getHash st other = Some hash' → hash' ≠ hash →
     getFromCache (removeFromCache identifier st) other
     = getFromCache st other) ∧
  removeFromCache identifier (removeFromCache identifier st)
  = removeFromCache identifier st.
Proof.
  intros Hh Hne. rewrite (removeFromCache_hashed _ _ _ Hh Hne). split_and!.
  - intros alias Ha. rewrite (getFromCache_hashed _ alias hash) by done.
    simpl. by rewrite lookup_delete_eq.
  - intros other hash' Ho Hne'. unfold getFromCache, getHash in *. simpl.
    rewrite Ho. destruct (truthy_string hash'); [|done].
    by rewrite lookup_delete_ne.
  - rewrite (removeFromCache_hashed _ identifier hash) by done.
    simpl. rewrite delete_delete_eq. by destruct st.
Qed.

Lemma removeFromCache_evicts_hash_witness :
  let st := addToCache "/a.png" (VObj ["Image"] 1)
              (registerHash "h1" "/b.png"
                 (registerHash "h1" "/a.png" new_ResourceLoader)) in
  getFromCache st "/a.png" = VObj ["Image"] 1 ∧
  getFromCache (removeFromCache "/b.png" st) "/a.png" = VUndefined.
Proof.
  intros st. split; [reflexivity|].
  destruct (removeFromCache_evicts_hash st "/b.png" "h1") as [H _];
    [reflexivity|discriminate|].
  apply H. reflexivity.
Defined.

(** X4.  [unregisterHash] does not evict: the identifier then reads [null],
    but the resource stays in the cache under its hash, and registering the
    identifier with that hash again makes [getFromCache] return it. *)
Theorem unregisterHash_keeps_cache st identifier hash resource :
  getHash st identifier = Some hash → hash ≠ "" →
  _cache st !! hash = Some resource →
  let st1 := unregisterHash identifier st in
  getFromCache st1 identifier = VNull ∧
  _cache st1 = _cache st ∧
  getFromCache (registerHash hash identifier st1) identifier = resource.
Proof.
  intros Hh Hne Hc st1. subst st1. unfold unregisterHash.
  rewrite Hh, (truthy_string_ne _ Hne). split_and!.
  - unfold getFromCache, getHash. simpl. by rewrite lookup_delete_eq.
  - done.
  - unfold getFromCache, getHash. rewrite registerHash_hashes. simpl.
    rewrite lookup_delete_eq. simpl. rewrite lookup_insert_eq.
    rewrite (truthy_string_ne _ Hne).
    assert (_cache (registerHash hash identifier
              (set_hashes (delete identifier (_hashes st))
                 (set_canonicals (delete hash (_canonicals st)) st)))
            = _cache st) as ->.
    { unfold registerHash.
      repeat match goal with |- context [truthy_entry ?o] =>
               destruct (truthy_entry o) end; reflexivity. }
    by rewrite Hc.
Qed.

Lemma unregisterHash_keeps_cache_witness :
  let st := addToCache "/a.png" (VObj ["Image"] 1)
              (registerHash "h1" "/a.png" new_ResourceLoader) in
  let st1 := unregisterHash "/a.png" st in
  getFromCache st1 "/a.png" = VNull ∧
  _cache st1 = _cache st ∧
  getFromCache (registerHash "h1" "/a.png" st1) "/a.png" = VObj ["Image"] 1.
Proof.
  intros st.
  apply (unregisterHash_keeps_cache st "/a.png" "h1" (VObj ["Image"] 1));
    [reflexivity|discriminate|reflexivity].
Defined.

(** X5.  Registering a hash for an identifier, when neither the identifier
    nor the hash has an entry, and unregistering the identifier again gives
    back the loader as it was. *)
Theorem registerHash_unregisterHash st hash identifier :
  hash ≠ "" → _hashes st !! identifier = None →
  _canonicals st !! hash = None →
  unregisterHash identifier (registerHash hash identifier st) = st.
Proof.
  intros Hne Hi Hh. unfold unregisterHash, getHash.
  rewrite registerHash_hashes, Hi. simpl. rewrite lookup_insert_eq.
  rewrite (truthy_string_ne _ Hne).
  apply loader_eq; simpl;
    rewrite ?registerHash_hashes, ?registerHash_canonicals, ?Hi, ?Hh; simpl;
    rewrite ?delete_insert_id by done;
    try done;
    unfold registerHash;
    repeat match goal with |- context [truthy_entry ?o] =>
             destruct (truthy_entry o) end; reflexivity.
Qed.

Lemma registerHash_unregisterHash_witness :
  unregisterHash "/a.png" (registerHash "h1" "/a.png" new_ResourceLoader)
  = new_ResourceLoader.
Proof.
  apply (registerHash_unregisterHash new_ResourceLoader "h1" "/a.png");
    [discriminate|reflexivity|reflexivity].
Defined.

End cache.

(** ** Calls of [request] *)

Section empty.
Implicit Types (st : ResourceLoader).

Lemma request_nil_form st :
  let o := length (heap st) in
  let h1 := heap st ++ [Promise Pending [] (KindOuter (Some ([], [])))] in
  request [] None st =
    (o, set_tasks (tasks st ++ [(KTop o [], Fulfilled (VArr []))])
          (set_heap (h1 ++ [Promise (Fulfilled (VArr [])) [] (KindAll [] [])])
             st)).
Proof.
  intros o h1. unfold request. cbn [new_promise request_loop].
  unfold set_kind. cbn [heap set_heap]. rewrite alter_app_new.
  cbn [p_state p_reactions]. fold h1.
  unfold all. cbn [new_promise heap set_heap length replicate all_subscribe].
  unfold resolve, settle. cbn [heap set_heap tasks set_tasks].
  rewrite settle_heap_new, settle_tasks_new by done.
  unfold then_. cbn [heap set_heap tasks set_tasks].
  unfold then_heap, then_tasks. rewrite state_at_app_new. simpl.
  rewrite app_nil_r. by destruct st.
Qed.

(** X6.  [request([])]: no request is dispatched and nothing is counted; the
    promise returned is pending until the one callback the call has queued
    has run, which fires [complete] with the empty array and fulfils the
    promise with it. *)
Theorem request_empty_list st :
  tasks st = [] →
  let o := length (heap st) in
  let st1 := (request [] None st).2 in
  (request [] None st).1 = o ∧ state_of st1 o = Pending ∧
  events st1 = events st ∧ _requested st1 = _requested st ∧
  objects st1 = objects st ∧
  ∃ st2, step Tick st1 = Some st2 ∧
    state_of st2 o = Fulfilled (VArr []) ∧
    events st2 = Fire_complete (VArr []) :: events st ∧
    tasks st2 = [] ∧ _loaded st2 = _loaded st.
Proof.
  intros Hts o st1. subst st1. rewrite request_nil_form. cbv zeta.
  cbn [fst snd]. proj. fold o. rewrite Hts. cbn [app].
  set (h1 := heap st ++ [Promise Pending [] (KindOuter (Some ([], [])))]).
  set (h2 := h1 ++ [Promise (Fulfilled (VArr [])) [] (KindAll [] [])]).
  assert (Hl1 : length h1 = S o).
  { subst h1 o. rewrite length_app. simpl. lia. }
  assert (Hs : state_at h2 o = Pending).
  { subst h2. rewrite state_at_app_old by lia. subst h1 o.
    by rewrite state_at_app_new. }
  assert (Hr : reactions_at h2 o = []).
  { subst h2. rewrite reactions_at_app_old by lia. subst h1 o.
    by rewrite reactions_at_app_new. }
  split_and!; try done.
  eexists. split; [reflexivity|]. cbn [run_reaction].
  unfold check, child_promises, child_requests. proj. simpl.
  rewrite state_at_settle. unfold settle_tasks. rewrite Hs, Hr. simpl.
  rewrite decide_True; [done|]. split_and!; [done| |done].
  subst h2. rewrite length_app. lia.
Qed.

Lemma request_empty_list_witness :
  let st1 := (request [] None new_ResourceLoader).2 in
  state_of st1 0 = Pending ∧
  ∃ st2, step Tick st1 = Some st2 ∧
    state_of st2 0 = Fulfilled (VArr []) ∧
    events st2 = [Fire_complete (VArr [])].
Proof.
  intros st1.
  destruct (request_empty_list new_ResourceLoader eq_refl)
    as (_ & H1 & _ & _ & _ & st2 & H2 & H3 & H4 & _).
  split; [exact H1|]. exists st2. by split_and!.
Defined.

End empty.

Section calls.
Implicit Types (st : ResourceLoader).

Lemma _request_fields r st :
  let st' := (_request r st).2 in
  length (objects st') = length (objects st) ∧
  (∀ r', r_data (obj st' r') = r_data (obj st r')) ∧
  (∀ r', r_result (obj st' r') = r_result (obj st r')) ∧
  (∀ r', r_canonical (obj st' r') = r_canonical (obj st r')) ∧
  (∀ r', r_identifier (obj st' r') = r_identifier (obj st r')) ∧
  (∀ r', r_type (obj st' r') = r_type (obj st r')).
Proof.
  pose proof (_request_spec r st) as [_ Hspec]. cbv zeta in Hspec. cbv zeta.
  assert (∃ f, objects (_request r st).2 = alter f r (objects_with_id r st) ∧
               ∀ q, r_data (f q) = r_data q ∧ r_result (f q) = r_result q ∧
                    r_canonical (f q) = r_canonical q ∧
                    r_identifier (f q) = r_identifier q ∧
                    r_type (f q) = r_type q) as (f & Ho & Hf).
  { destruct (r_promises (obj st r)) as [|p0 ps].
    - destruct Hspec as (s & l & _ & _ & _ & Ho). eauto 10.
    - destruct Hspec as (_ & _ & Ho). eauto 10. }
  rewrite Ho. split_and!.
  - by rewrite length_alter, length_objects_with_id.
  - intros r'. rewrite obj_at_alter_field by (intros; apply Hf).
    by apply obj_at_objects_with_id.
  - intros r'. rewrite obj_at_alter_field by (intros; apply Hf).
    by apply obj_at_objects_with_id.
  - intros r'. rewrite obj_at_alter_field by (intros; apply Hf).
    by apply obj_at_objects_with_id.
  - intros r'. rewrite obj_at_alter_field by (intros; apply Hf).
    by apply obj_at_objects_with_id.
  - intros r'. rewrite obj_at_alter_field by (intros; apply Hf).
    by apply obj_at_objects_with_id.
Qed.

(** The promises that exist before the loop of [request] are as they were
    after it. *)
Lemma request_loop_frame parent rs st :
  let st' := (request_loop parent rs st).2 in
  length (heap st) ≤ length (heap st') ∧
  length (objects st') = length (objects st) ∧
  (∀ q, q < length (heap st) →
     state_of st' q = state_of st q ∧ kind_of st' q = kind_of st q).
Proof.
  revert st. induction rs as [|r0 rs IH]; intros st.
  { simpl. split_and!; done. }
  cbn [request_loop].
  set (r := _findExistingRequest r0 st).
  set (sta := if decide (r = r0) then st else _).
  assert (Ha : heap sta = heap st ∧ length (objects sta) = length (objects st)).
  { subst sta. case_decide; [done|]. proj. by rewrite length_alter. }
  clearbody sta. destruct Ha as [Hha Hla].
  set (stb := _makeCanonical r sta).
  assert (Hb : heap stb = heap st ∧ length (objects stb) = length (objects st)).
  { subst stb. unfold _makeCanonical. proj. by rewrite length_alter. }
  clearbody stb. destruct Hb as [Hhb Hlb].
  destruct (_request_grows r stb) as (_ & _ & Hlc & Holdc).
  destruct (_request_fields r stb) as (Hloc & _).
  cbv zeta in Hlc, Holdc, Hloc.
  destruct (_request r stb) as [p stc]. cbn [fst snd] in *.
  set (std := match parent with Some _ => _ | None => _ end).
  assert (Hd : heap std = heap stc ∧ length (objects std) = length (objects stc)).
  { subst std. destruct parent; [|done]. proj. by rewrite length_alter. }
  clearbody std. destruct Hd as [Hhd Hld].
  destruct (IH std) as (Hl' & Hlo' & Hold').
  destruct (request_loop parent rs std) as [[requested promises] ste].
  cbn [fst snd] in *. rewrite Hhd in *. rewrite Hhb in *.
  split_and!.
  - lia.
  - lia.
  - intros q Hq. destruct (Hold' q) as [-> ->]; [lia|]. by apply Holdc.
Qed.

(** [request] records the requests and promises its loop returns. *)
Lemma request_call rs parent st :
  let o := length (heap st) in
  let res := request_loop parent rs (new_promise (KindOuter None) st).2 in
  let st' := (request rs parent st).2 in
  (request rs parent st).1 = o ∧
  promises_only res.2 st' ∧
  call_at (heap st') o = Some (res.1.1, res.1.2) ∧
  state_of st' o = Pending ∧
  (∀ q, q < length (heap res.2) → q ≠ o →
     state_of st' q = state_of res.2 q ∧ kind_of st' q = kind_of res.2 q).
Proof.
  intros o res st'. subst res st'. unfold request. proj. fold o.
  set (st0 := set_heap _ st).
  assert (Hk0 : kind_of st0 o = Some (KindOuter None) ∧
                state_of st0 o = Pending ∧ o < length (heap st0)).
  { subst st0 o. proj. rewrite kind_at_app_new, state_at_app_new, length_app.
    simpl. split_and!; [done..|lia]. }
  clearbody st0. destruct Hk0 as (Hk0 & Hs0 & Hv0).
  destruct (request_loop_frame parent rs st0) as (Hl1 & _ & Hold1).
  destruct (request_loop parent rs st0) as [[R P] st1]. cbn [fst snd] in *.
  destruct (Hold1 o Hv0) as [Hs1 Hk1]. rewrite Hk0 in Hk1. rewrite Hs0 in Hs1.
  set (k := KindOuter _).
  destruct (all_frame P (set_kind o k st1)) as (_ & H1 & H2).
  destruct (all P (set_kind o k st1)) as [agg st4]. cbn [fst snd] in *.
  assert (Hlk : length (heap (set_kind o k st1)) = length (heap st1)).
  { proj. apply length_alter. }
  split_and!; [done| | | |intros q Hq Hne].
  - eapply promises_only_trans; [apply (promises_only_set_kind o k)|].
    eapply promises_only_trans; [done|apply promises_only_then].
  - proj. unfold call_at. rewrite kind_at_then.
    destruct (H2 o) as [_ ->]; [rewrite length_alter; lia|].
    rewrite kind_at_set_kind, decide_True; [done|]. split; [done|lia].
  - proj. rewrite state_at_then.
    destruct (H2 o) as [-> _]; [rewrite length_alter; lia|].
    by rewrite state_at_set_kind.
  - proj. rewrite state_at_then, kind_at_then.
    destruct (H2 q) as [-> ->]; [by rewrite length_alter|].
    rewrite state_at_set_kind, kind_at_set_kind.
    by rewrite decide_False by tauto.
Qed.




(** The request [e] has been dispatched before: [_request] makes a
    follow-on promise for it, and looks neither at the handlers nor at the
    cache. *)
Lemma _request_follow r st p0 ps :
  r_promises (obj st r) = p0 :: ps →
  let p := length (heap st) in
  let st' := (_request r st).2 in
  (_request r st).1 = p ∧
  kind_of st' p = Some (KindFollow r) ∧ state_of st' p = Pending ∧
  events st' = Fire_request r :: events st ∧
  _cache st' = _cache st ∧ _handlers st' = _handlers st ∧
  _loaded st' = _loaded st ∧ _requested st' = S (_requested st) ∧
  _requests st' = <[r_canonical (obj st r) := r]> (_requests st) ∧
  (r < length (objects st) → r_promises (obj st' r) = p0 :: ps ++ [p]).
Proof.
  intros Hpr p st'. subst p st'.
  pose proof (_request_spec r st) as [Hp Hspec]. cbv zeta in Hspec, Hp.
  rewrite Hpr in Hspec. destruct Hspec as (Hh & _ & Hobj).
  assert (Hrest : events (_request r st).2 = Fire_request r :: events st ∧
            _cache (_request r st).2 = _cache st ∧
            _handlers (_request r st).2 = _handlers st ∧
            _loaded (_request r st).2 = _loaded st ∧
            _requested (_request r st).2 = S (_requested st) ∧
            _requests (_request r st).2
            = <[r_canonical (obj st r) := r]> (_requests st)).
  { clear Hh Hobj Hp. unfold _request.
    pose proof (_request_begin r st) as H. cbv zeta in H.
    match type of H with objects ?s = _ ∧ _ => set (st1 := s) in *; clearbody st1 end.
    destruct H as (Ho & Hh & Ht & Hha & Hrq & Hca & Hhs & Hcn & Hrd & Hld & Hev).
    assert (Hpr1 : r_promises (obj st1 r) = p0 :: ps).
    { rewrite Ho, <- Hpr. by apply obj_at_objects_with_id. }
    assert (Hc1 : r_canonical (obj st1 r) = r_canonical (obj st r)).
    { rewrite Ho. by apply obj_at_objects_with_id. }
    rewrite Hpr1. proj. rewrite obj_at_alter_field by done.
    by rewrite Hev, Hca, Hha, Hld, Hrd, Hrq, Hc1. }
  destruct Hrest as (Hev & Hca & Hha & Hld & Hrd & Hrq).
  split_and!; try done.
  - rewrite Hh, kind_at_then. by rewrite kind_at_app_new.
  - rewrite Hh, state_at_then. by rewrite state_at_app_new.
  - intros Hr. rewrite Hobj, obj_at_alter_eq
      by (by rewrite length_objects_with_id).
    simpl. rewrite (obj_at_objects_with_id r_promises) by done.
    by rewrite Hpr.
Qed.

(** [request] for one request that is merged into a request in flight. *)
Lemma request_merged r0 st e p0 ps :
  _findExistingRequest r0 st = e → e ≠ r0 →
  r_promises (obj st e) = p0 :: ps →
  let o := length (heap st) in
  let q := S o in
  let st' := (request [r0] None st).2 in
  call_at (heap st') o = Some ([e], [q]) ∧
  kind_of st' q = Some (KindFollow e) ∧ state_of st' q = Pending ∧
  events st' = Fire_request e :: events st ∧
  _cache st' = _cache st ∧ _loaded st' = _loaded st ∧
  _requested st' = S (_requested st) ∧
  r_data (obj st' e) =
    (if decide (e < length (objects st)) then r_data (obj st r0)
     else r_data (obj st e)) ∧
  (e < length (objects st) → r_promises (obj st' e) = p0 :: ps ++ [q]) ∧
  (∀ p, p < length (heap st) →
     state_of st' p = state_of st p ∧ kind_of st' p = kind_of st p).
Proof.
  intros Hfind Hne Hpr o q st'.
  destruct (request_call [r0] None st) as (_ & Hpo & Hcall & _ & Hold).
  cbv zeta in Hpo, Hcall, Hold. fold st' o in Hpo, Hcall, Hold.
  cbn [request_loop] in Hpo, Hcall, Hold.
  set (st0 := (new_promise (KindOuter None) st).2) in *.
  assert (Hfind0 : _findExistingRequest r0 st0 = e) by done.
  rewrite Hfind0 in Hpo, Hcall, Hold.
  rewrite decide_False in Hpo, Hcall, Hold by done.
  set (sta := update_obj e (set_r_data (r_data (obj st0 r0))) st0) in *.
  set (stb := _makeCanonical e sta) in *.
  assert (Hb : r_promises (obj stb e) = p0 :: ps ∧
               heap stb = heap st ++ [Promise Pending [] (KindOuter None)] ∧
               events stb = events st ∧ _cache stb = _cache st ∧
               _loaded stb = _loaded st ∧ _requested stb = _requested st ∧
               length (objects stb) = length (objects st) ∧
               r_data (obj stb e) =
                 (if decide (e < length (objects st)) then r_data (obj st r0)
                  else r_data (obj st e))).
  { subst stb sta st0. unfold _makeCanonical. proj.
    rewrite !length_alter.
    rewrite !obj_at_alter_field by done. split_and!; try done.
    rewrite obj_at_alter. case_decide as Hd.
    - rewrite decide_True by tauto. done.
    - rewrite decide_False by tauto. done. }
  clearbody stb. clear sta.
  destruct Hb as (Hprb & Hhb & Hevb & Hcab & Hldb & Hrdb & Hlob & Hdb).
  destruct (_request_follow e stb p0 ps Hprb)
    as (Hp & Hk & Hs & Hev & Hca & _ & Hld & Hrd & _ & Hprc).
  destruct (_request_fields e stb) as (_ & Hdata & _).
  destruct (_request_grows e stb) as (_ & _ & Hlc & Holdc).
  cbv zeta in Hp, Hk, Hs, Hev, Hca, Hld, Hrd, Hprc, Hdata, Hlc, Holdc.
  assert (Hq : length (heap stb) = q).
  { rewrite Hhb, length_app. simpl. subst q o. lia. }
  rewrite Hq in *.
  destruct (_request e stb) as [p stc]. cbn [fst snd] in *. subst p.
  destruct (promises_only_fields _ _ Hpo) as
    (HHo & _ & _ & HHca & _ & _ & HHrd & HHld & HHev).
  assert (Hlq : q < length (heap stc)) by lia.
  assert (Hqo : q ≠ o) by (subst q; lia).
  destruct (Hold q Hlq Hqo) as [Hsq Hkq].
  split_and!.
  - done.
  - by rewrite Hkq.
  - by rewrite Hsq.
  - by rewrite HHev, Hev, Hevb.
  - by rewrite HHca, Hca.
  - by rewrite HHld, Hld.
  - by rewrite HHrd, Hrd, Hrdb.
  - by rewrite HHo, Hdata.
  - intros He. rewrite HHo. apply Hprc. by rewrite Hlob.
  - intros p Hp. assert (p < q) as Hpq by (subst q o; lia).
    destruct (Hold p) as [-> ->]; [lia|subst o; lia|].
    destruct (Holdc p Hpq) as [-> ->].
    by rewrite Hhb, state_at_app_old, kind_at_app_old.
Qed.

(** X8.  A request that is merged into a request in flight hands its [data]
    to that request: the request in flight, which will be opened, carries
    the [data] of the latest caller from then on, and [load] is not called
    again. *)
Theorem merged_request_takes_data r0 st e p0 ps :
  _findExistingRequest r0 st = e → e ≠ r0 →
  r_promises (obj st e) = p0 :: ps →
  let st' := (request [r0] None st).2 in
  r_data (obj st' e) = r_data (obj st r0) ∧
  loads st' = loads st ∧
  ∃ q, call_at (heap st') (length (heap st)) = Some ([e], [q]) ∧
       kind_of st' q = Some (KindFollow e).
Proof.
  intros Hfind Hne Hpr st'.
  destruct (request_merged r0 st e p0 ps Hfind Hne Hpr)
    as (Hcall & Hk & _ & Hev & _ & _ & _ & Hdata & _).
  fold st' in Hcall, Hk, Hev, Hdata.
  assert (He : e < length (objects st)).
  { apply obj_at_valid. by rewrite Hpr. }
  rewrite decide_True in Hdata by done.
  split_and!; [done| |eauto].
  unfold loads. by rewrite Hev.
Qed.

End calls.

(** ** Outcomes of a load *)

Section outcomes.
Implicit Types (st : ResourceLoader).

Lemma reachable_ok acts st :
  run acts new_ResourceLoader = Some st → Forall top_level acts →
  loader_ok st.
Proof. intros Hrun Htop. by eapply run_ok; [|apply loader_ok_new|]. Qed.

(** What is known of a request whose load is outstanding. *)
Lemma loading_request_facts st p r :
  loader_ok st → loading_request st p = Some r →
  kind_of st p = Some (KindPrimary r true) ∧
  head (r_promises (obj st r)) = Some p ∧ state_of st p = Pending ∧
  r < length (objects st) ∧ p < length (heap st).
Proof.
  intros [I T] Hl. apply loading_request_Some in Hl.
  destruct (inv_primary _ _ _ I p r true Hl) as [Hhead Hpend].
  split_and!; [done|done|by apply Hpend| |by eapply kind_at_valid].
  apply obj_at_valid. by destruct (r_promises (obj st r)).
Qed.

Lemma state_at_settle_pending h p s :
  p < length h → state_at h p = Pending →
  state_at (settle_heap p s h) p = s.
Proof.
  intros Hp Hs. rewrite state_at_settle, decide_True; [done|].
  split_and!; [done..|]. by rewrite Hs.
Qed.

(** X9.  When a load fails, the promise of the request is rejected and an
    [error] event is fired, but the request stays in the table of active
    requests: a later request for the same identifier and type is merged
    into the failed request, so that [load] is not called again, and the
    caller gets a follow-on promise of the failed request. *)
Theorem failed_request_absorbs_retry acts st p r e s :
  run acts new_ResourceLoader = Some st → Forall top_level acts →
  loading_request st p = Some r →
  _requests st !! s_identifier s = Some r →
  s_type s = r_type (obj st r) →
  truthy (r_result (obj st r)) = false → truthy (s_result s) = false →
  ∃ st1, load_rejected p e st = Some st1 ∧
    state_of st1 p = Rejected e ∧ _requests st1 = _requests st ∧
    events st1 = Fire_error r e :: events st ∧
    let st2 := (request [length (objects st1)] None (new_request s st1).2).2 in
    loads st2 = loads st1 ∧ state_of st2 p = Rejected e ∧
    ∃ q, call_at (heap st2) (length (heap st1)) = Some ([r], [q]) ∧
         kind_of st2 q = Some (KindFollow r) ∧ state_of st2 q = Pending.
Proof.
  intros Hrun Htop Hl Hreq Hty Hres Hres'.
  pose proof (reachable_ok _ _ Hrun Htop) as OK.
  destruct (loading_request_facts st p r OK Hl) as (Hk & Hhead & Hs & Hr & Hp).
  unfold load_rejected. rewrite Hl. simpl. eexists. split; [reflexivity|].
  set (st1 := reject p e _).
  assert (H1 : state_of st1 p = Rejected e ∧ _requests st1 = _requests st ∧
               events st1 = Fire_error r e :: events st ∧
               objects st1 = objects st).
  { subst st1. proj. split_and!; try done.
    apply state_at_settle_pending.
    - by rewrite length_alter.
    - by rewrite state_at_set_kind. }
  clearbody st1. destruct H1 as (Hs1 & Hrq1 & Hev1 & Ho1).
  set (sta := (new_request s st1).2).
  set (r2 := length (objects st1)).
  assert (Hobj2 : obj sta r2 = new_ResourceRequest s).
  { subst sta r2. proj. apply obj_at_app_new. }
  assert (Hobjr : obj sta r = obj st r).
  { subst sta. proj. rewrite obj_at_app_old by (by rewrite Ho1).
    by rewrite Ho1. }
  assert (Hfind : _findExistingRequest r2 sta = r).
  { assert (Hrqa : _requests sta = _requests st) by (by rewrite <- Hrq1).
    unfold _findExistingRequest. rewrite Hrqa, Hobj2.
    cbn [r_canonical r_type r_result new_ResourceRequest].
    rewrite Hreq, Hobjr, Hty, Hres, Hres'.
    by rewrite bool_decide_eq_true_2. }
  destruct (r_promises (obj st r)) as [|p0 ps] eqn:Hpr; [done|].
  simpl in Hhead. injection Hhead as ->.
  destruct (request_merged r2 sta r p ps Hfind) as
    (Hcall & Hkq & Hsq & Hev & _ & _ & _ & _ & _ & Hold).
  { subst r2. rewrite Ho1. lia. }
  { by rewrite Hobjr. }
  replace (length (heap sta)) with (length (heap st1)) in * by done.
  clear Hobj2 Hobjr Hfind. subst sta r2. proj.
  split_and!; try done.
  - unfold loads. by rewrite Hev.
  - destruct (Hold p) as [-> _]; [|done]. by apply state_at_valid; rewrite Hs1.
  - eauto.
Qed.

(** X10.  In every run of the loader, a follow-on promise of a request
    whose primary promise has been rejected is pending: it is neither
    rejected nor fulfilled. *)
Theorem follow_on_of_failed_request_pending acts st q r p0 e :
  run acts new_ResourceLoader = Some st → Forall top_level acts →
  kind_of st q = Some (KindFollow r) →
  head (r_promises (obj st r)) = Some p0 →
  state_of st p0 = Rejected e →
  state_of st q = Pending.
Proof.
  intros Hrun Htop Hk Hhead Hrej.
  destruct (reachable_ok _ _ Hrun Htop) as [I _].
  destruct (inv_follow _ _ _ I q r Hk) as [Hful Hnrej].
  destruct (state_of st q) as [|v|e'] eqn:Hs; [done| |by destruct (Hnrej e')].
  destruct (Hful v eq_refl) as (p1 & v1 & Hh1 & Hv1). congruence.
Qed.

(** X11.  When the data of a request arrives and the handler opens it into
    a truthy resource: the promise of the request is fulfilled with the
    clone of the resource, while the cache keeps the resource itself under
    the hash of the canonical identifier; the request leaves the table of
    active requests, and [clone], [progress] and [load] are the latest
    events.  This holds provided the canonical identifier of the request is
    still the one the registry gives for its identifier. *)
Theorem loaded_resource_cached_uncloned acts st p r h data resource hash :
  run acts new_ResourceLoader = Some st → Forall top_level acts →
  loading_request st p = Some r →
  _handlers st !! r_type (obj st r) = Some h →
  o_return (h_open h data (obj st r)) = Return resource →
  truthy resource = true →
  r_canonical (obj st r) = canonical_of st (r_identifier (obj st r)) →
  getHash st (r_canonical (obj st r)) = Some hash → hash ≠ "" →
  ∃ st' q, load_fulfilled p data st = Some st' ∧
    r_identifier q = r_identifier (obj st r) ∧
    state_of st' p = Fulfilled (h_clone h resource q) ∧
    _cache st' !! hash = Some resource ∧
    _requests st' !! r_canonical (obj st r) = None ∧
    ∃ l n evs, events st' =
      Fire_load r (h_clone h resource q) :: Fire_progress l n
      :: Call_clone r resource :: evs.
Proof.
  intros Hrun Htop Hl Hsome Hopen Htruthy Hcan Hhash Hne.
  pose proof (reachable_ok _ _ Hrun Htop) as OK.
  destruct (loading_request_facts st p r OK Hl) as (Hk & Hhead & Hs & Hr & Hp).
  unfold load_fulfilled. rewrite Hl. simpl.
  destruct (set_kind_primary_effects p r true false st) as (OK1 & Hk1 & Hs1 & Ho1);
    [done..|].
  assert (Hck1 : config_kept st (set_kind p (KindPrimary r false) st))
    by apply config_kept_promises, promises_only_set_kind.
  set (st1 := set_kind p (KindPrimary r false) st) in *.
  assert (Hv1 : p < length (heap st1)) by (by eapply kind_at_valid).
  clearbody st1.
  assert (Hop : opening st1 r).
  { split; [by rewrite Ho1|]. left. exists p, false. split; [done|].
    by rewrite Hs1. }
  destruct (_open_effects data r st1 OK1 Hop) as (OK2 & _ & Hlen & Hq & _).
  destruct (Hq p Hv1) as [Hs2 Hk2].
  assert (Hha1 : _handlers st1 !! r_type (obj st1 r) = Some h).
  { rewrite Ho1. by rewrite (ck_handlers _ _ Hck1). }
  pose proof (_open_Return data r st1 h Hha1) as Hret.
  rewrite Ho1, Hopen in Hret.
  pose proof (_open_config data r st1) as Hcko.
  destruct (_open data r st1) as [cmp sto]. cbn [fst snd] in *. subst cmp.
  rewrite Htruthy.
  assert (Hr1 : r < length (objects st1)) by (by rewrite Ho1).
  assert (Hck : config_kept st sto) by (by eapply config_kept_trans).
  destruct (ck_fields _ _ Hcko r Hr1) as (Hid & Hty & _).
  rewrite Ho1 in Hid, Hty.
  assert (Hco : r_canonical (obj sto r) = r_canonical (obj st r)).
  { destruct (ck_canonical _ _ Hcko r Hr1) as [->| ->]; [by rewrite Ho1|].
    rewrite Ho1, Hcan. apply canonical_of_frame.
    - apply (ck_hashes _ _ Hck1).
    - apply (ck_canonicals _ _ Hck1). }
  assert (Hhao : _handlers sto !! r_type (obj sto r) = Some h).
  { by rewrite Hty, (ck_handlers _ _ Hck). }
  unfold resolve_postOpen.
  pose proof (_postOpen_Return resource r sto h Hhao) as HP.
  pose proof (_postOpen_frame resource r sto) as HF.
  cbv zeta in HP, HF.
  destruct HP as (HP1 & HP2 & _ & _ & HP5 & HP6).
  destruct HF as (_ & HF2 & _ & _ & HF5 & _).
  destruct (_postOpen resource r sto) as [cmp stp]. cbn [fst snd] in *.
  subst cmp. eexists _, (obj sto r). split; [reflexivity|]. proj.
  split_and!.
  - done.
  - apply state_at_settle_pending; rewrite HF2; [lia|].
    by rewrite Hs2, Hs1.
  - rewrite HP5, Hco. unfold addToCache, getHash.
    rewrite (ck_hashes _ _ Hck). unfold getHash in Hhash.
    rewrite Hhash, (truthy_string_ne _ Hne). proj. apply lookup_insert_eq.
  - rewrite HP6, Hco. apply lookup_delete_eq.
  - rewrite HP2. eauto.
Qed.

(** X12.  When the handler opens the data into a falsy value (and makes no
    request of its own), the promise of the request is fulfilled with that
    value and nothing else happens: [clone] is not called, no [progress] or
    [load] event is fired, nothing is cached or counted, and the request
    stays in the table of active requests. *)
Theorem falsy_resource_skips_post_open acts st p r h data v :
  run acts new_ResourceLoader = Some st → Forall top_level acts →
  loading_request st p = Some r →
  _handlers st !! r_type (obj st r) = Some h →
  h_open h data (obj st r) = Opened [] (Return v) → truthy v = false →
  ∃ st', load_fulfilled p data st = Some st' ∧
    state_of st' p = Fulfilled v ∧
    events st' = Call_open r data :: events st ∧
    _cache st' = _cache st ∧ _requests st' = _requests st ∧
    _loaded st' = _loaded st ∧ _requested st' = _requested st.
Proof.
  intros Hrun Htop Hl Hsome Hopen Hfalsy.
  pose proof (reachable_ok _ _ Hrun Htop) as OK.
  destruct (loading_request_facts st p r OK Hl) as (Hk & Hhead & Hs & Hr & Hp).
  unfold load_fulfilled. rewrite Hl. simpl. unfold _open. proj.
  rewrite Hsome, Hopen. cbn [o_return o_nested foldl]. rewrite Hfalsy.
  eexists. split; [reflexivity|]. proj. split_and!; try done.
  apply state_at_settle_pending.
  - by rewrite length_alter.
  - by rewrite state_at_set_kind.
Qed.

(** Running the callbacks of [all] changes promises only; it settles no
    follow-on promise and leaves settled promises as they are. *)
Lemma all_fulfilled_frame agg i v st t r :
  kind_of st t = Some (KindFollow r) →
  let st' := all_fulfilled agg i v st in
  promises_only st st' ∧ (∃ more, tasks st' = tasks st ++ more) ∧
  state_of st' t = state_of st t ∧ kind_of st' t = kind_of st t ∧
  (∀ q, state_of st q ≠ Pending → state_of st' q = state_of st q) ∧
  length (heap st') = length (heap st).
Proof.
  intros Hk. unfold all_fulfilled.
  destruct (kind_of st agg) as [[| |ps res|]|] eqn:Hka;
    try (split_and!; [apply promises_only_refl|by exists []; rewrite app_nil_r
                     |done..]).
  assert (Hne : t ≠ agg) by (intros ->; congruence).
  set (st1 := set_kind agg _ st).
  assert (H1 : promises_only st st1 ∧ tasks st1 = tasks st ∧
               (∀ q, state_of st1 q = state_of st q) ∧
               kind_of st1 t = kind_of st t ∧
               length (heap st1) = length (heap st)).
  { subst st1. split_and!; [apply promises_only_set_kind|done|..]; proj.
    - intros q. by rewrite state_at_set_kind.
    - rewrite kind_at_set_kind, decide_False; [done|]. by intros [? _].
    - apply length_alter. }
  clearbody st1. destruct H1 as (Hpo & Hts & Hs & Hk1 & Hl).
  destruct (all_results _) as [vs|].
  - split_and!.
    + eapply promises_only_trans; [done|apply promises_only_settle].
    + proj. rewrite Hts. eauto.
    + proj. rewrite state_at_settle, decide_False; [done|]. by intros [? _].
    + proj. by rewrite kind_at_settle.
    + intros q Hq. proj. rewrite state_at_settle. case_decide as Hd; [|done].
      destruct Hd as (-> & _ & Hp). rewrite Hs in Hp.
      by destruct (state_of st agg).
    + proj. by rewrite length_settle.
  - split_and!; try done. exists []. by rewrite app_nil_r.
Qed.

Lemma ticks_all ks v t r rest st :
  Forall (λ k, ∃ agg i, k = KAll agg i) ks →
  tasks st = ((λ k, (k, Fulfilled v)) <$> ks) ++ rest →
  kind_of st t = Some (KindFollow r) →
  ∃ st', run (replicate (length ks) Tick) st = Some st' ∧
    promises_only st st' ∧ (∃ more, tasks st' = rest ++ more) ∧
    state_of st' t = state_of st t ∧ kind_of st' t = kind_of st t ∧
    (∀ q, state_of st q ≠ Pending → state_of st' q = state_of st q) ∧
    length (heap st') = length (heap st).
Proof.
  intros Hks. revert st rest.
  induction Hks as [|k ks (agg & i & ->) _ IH]; intros st rest Hts Hk.
  { exists st. simpl in *. split_and!; try done; [apply promises_only_refl|].
    exists []. by rewrite app_nil_r. }
  cbn [length replicate run]. unfold step at 1. rewrite Hts.
  cbn [fmap list_fmap app mbind option_bind run_reaction].
  set (st0 := set_tasks _ st).
  assert (Hpo0 : promises_only st st0).
  { subst st0. unfold promises_only. by destruct st. }
  destruct (all_fulfilled_frame agg i v st0 t r Hk)
    as (Hpo & (more & Hts1) & Hs1 & Hk1 & Hq1 & Hl1).
  set (st1 := all_fulfilled agg i v st0) in *. clearbody st1.
  destruct (IH st1 (rest ++ more)) as (st' & Hrun & Hpo' & (more' & Hts')
                                        & Hs' & Hk' & Hq' & Hl').
  { rewrite Hts1. subst st0. proj. by rewrite <- app_assoc. }
  { by rewrite Hk1. }
  exists st'. split_and!.
  - done.
  - eapply promises_only_trans; [done|]. by eapply promises_only_trans.
  - exists (more ++ more'). by rewrite Hts', <- app_assoc.
  - by rewrite Hs', Hs1.
  - by rewrite Hk', Hk1.
  - intros q Hq. rewrite Hq'; [by apply Hq1|]. by rewrite Hq1.
  - by rewrite Hl', Hl1.
Qed.

Lemma run_app acts1 acts2 st st1 :
  run acts1 st = Some st1 → run (acts1 ++ acts2) st = run acts2 st1.
Proof.
  revert st. induction acts1 as [|a acts1 IH]; intros st; simpl.
  { by intros [= ->]. }
  destruct (step a st) as [st0|]; simpl; [apply IH|done].
Qed.

(** X13.  A caller merged into a request in flight gets a clone of the
    clone: when the data arrives, the first caller's promise is fulfilled
    with the clone [v1] of the opened resource; once the callbacks of [all]
    attached before it have run, the follow-on callback of the merged caller
    runs the post-open pass on [v1], which puts [v1] (not the opened
    resource) in the cache and fulfils the merged caller's promise with the
    clone of [v1].  [load] is called for neither of them. *)
Theorem merged_caller_gets_clone_of_clone
    acts st p r t ks1 ks2 h data resource hash :
  run acts new_ResourceLoader = Some st → Forall top_level acts →
  tasks st = [] →
  loading_request st p = Some r →
  reactions_at (heap st) p = ks1 ++ KDedup r t :: ks2 →
  Forall (λ k, ∃ agg i, k = KAll agg i) ks1 →
  _handlers st !! r_type (obj st r) = Some h →
  h_open h data (obj st r) = Opened [] (Return resource) →
  truthy resource = true →
  getHash st (r_canonical (obj st r)) = Some hash → hash ≠ "" →
  let v1 := h_clone h resource (obj st r) in
  ∃ st', run (Load_done p data :: replicate (S (length ks1)) Tick) st
         = Some st' ∧
    state_of st' p = Fulfilled v1 ∧
    state_of st' t = Fulfilled (h_clone h v1 (obj st r)) ∧
    _cache st' !! hash = Some v1 ∧
    clones st' = r :: r :: clones st ∧ loads st' = loads st.
Proof.
  intros Hrun Htop Hts Hl Hre Hks1 Hsome Hopen Htruthy Hhash Hne v1.
  pose proof (reachable_ok _ _ Hrun Htop) as OK.
  destruct (loading_request_facts st p r OK Hl) as (Hk & Hhead & Hs & Hr & Hp).
  destruct OK as [I T].
  assert (Hkt : kind_of st t = Some (KindFollow r)).
  { destruct (inv_attached _ _ _ I p (KDedup r t)) as [? _]; [|done].
    rewrite Hre. apply elem_of_app. right. by left. }
  assert (Hst : state_of st t = Pending).
  { destruct (inv_follow _ _ _ I t r Hkt) as [Hful Hnrej].
    destruct (state_of st t) as [|v|e'] eqn:Hs'; [done| |by destruct (Hnrej e')].
    destruct (Hful v eq_refl) as (p1 & w & Hh1 & Hv1). congruence. }
  assert (Hvt : t < length (heap st)) by (by eapply kind_at_valid).
  assert (Hne' : t ≠ p) by (intros ->; congruence).
  assert (Hlf : ∃ st2, load_fulfilled p data st = Some st2 ∧
            objects st2 = objects st ∧ _handlers st2 = _handlers st ∧
            _hashes st2 = _hashes st ∧
            tasks st2 = ((λ k, (k, Fulfilled v1)) <$> ks1)
                        ++ (KDedup r t, Fulfilled v1)
                        :: ((λ k, (k, Fulfilled v1)) <$> ks2) ∧
            (∃ l n, events st2 = Fire_load r v1 :: Fire_progress l n
               :: Call_clone r resource :: Call_open r data :: events st) ∧
            state_of st2 p = Fulfilled v1 ∧ state_of st2 t = Pending ∧
            kind_of st2 t = Some (KindFollow r) ∧
            length (heap st2) = length (heap st)).
  { unfold load_fulfilled. rewrite Hl. simpl.
    unfold _open. proj. rewrite Hsome, Hopen. cbn [o_return o_nested foldl].
    rewrite Htruthy. unfold resolve_postOpen.
    set (st1 := fire (Call_open r data) (set_kind p (KindPrimary r false) st)).
    assert (H1 : objects st1 = objects st ∧ _handlers st1 = _handlers st ∧
                 _hashes st1 = _hashes st ∧ tasks st1 = [] ∧
                 events st1 = Call_open r data :: events st ∧
                 state_of st1 p = Pending ∧ state_of st1 t = Pending ∧
                 kind_of st1 t = Some (KindFollow r) ∧
                 reactions_at (heap st1) p = ks1 ++ KDedup r t :: ks2 ∧
                 length (heap st1) = length (heap st)).
    { subst st1. proj.
      rewrite !state_at_set_kind, reactions_at_set_kind, length_alter.
      rewrite kind_at_set_kind, decide_False by (by intros [? _]). done. }
    clearbody st1.
    destruct H1 as (Ho1 & Hha1 & Hhs1 & Hts1 & Hev1 & Hsp1 & Hst1 & Hkt1
                    & Hre1 & Hl1).
    assert (Hha1' : _handlers st1 !! r_type (obj st1 r) = Some h)
      by (by rewrite Ho1, Hha1).
    pose proof (_postOpen_Return resource r st1 h Hha1') as HP.
    pose proof (_postOpen_frame resource r st1) as HF.
    cbv zeta in HP, HF.
    destruct HP as (HP1 & HP2 & _ & _ & HP5 & _).
    destruct HF as (HF1 & HF2 & HF3 & HF4 & HF5 & _).
    destruct (_postOpen resource r st1) as [cmp stp]. cbn [fst snd] in *.
    subst cmp. rewrite Ho1. fold v1.
    eexists. split; [reflexivity|]. proj.
    rewrite HF1, HF2, HF3, HF4, HF5, HP2, Ho1, Hev1.
    unfold settle_tasks. rewrite Hsp1, Hre1, Hts1. simpl.
    rewrite length_settle, kind_at_settle, fmap_app. split_and!; try done.
    - eauto.
    - apply state_at_settle_pending; [lia|done].
    - rewrite state_at_settle, decide_False; [done|]. intros [? _]. done. }
  destruct Hlf as (st2 & Hlf & Ho2 & Hha2 & Hhs2 & Hts2 & (l & n & Hev2)
                   & Hsp2 & Hst2 & Hkt2 & Hl2).
  destruct (ticks_all ks1 v1 t r _ st2 Hks1 Hts2 Hkt2)
    as (st3 & Hrun3 & Hpo3 & (more & Hts3) & Hst3 & Hkt3 & Hq3 & Hl3).
  destruct (promises_only_fields _ _ Hpo3) as
    (Ho3 & Hha3 & _ & _ & Hhs3 & _ & _ & _ & Hev3).
  assert (Hsp3 : state_of st3 p = Fulfilled v1).
  { rewrite Hq3; [done|]. by rewrite Hsp2. }
  cbn [run]. change (step (Load_done p data) st) with (load_fulfilled p data st).
  rewrite Hlf. cbn [mbind option_bind].
  rewrite replicate_S_end, (run_app _ _ _ _ Hrun3).
  cbn [run]. unfold step. rewrite Hts3.
  cbn [app mbind option_bind run_reaction].
  set (st4 := set_tasks _ st3).
  assert (Hha4 : _handlers st4 !! r_type (obj st4 r) = Some h)
    by (subst st4; proj; by rewrite Ho3, Ho2, Hha3, Hha2).
  pose proof (_postOpen_Return v1 r st4 h Hha4) as HP.
  pose proof (_postOpen_frame v1 r st4) as HF.
  cbv zeta in HP, HF.
  destruct HP as (HP1 & HP2 & _ & _ & HP5 & _).
  destruct HF as (HF1 & HF2 & _).
  destruct (_postOpen v1 r st4) as [cmp stp]. cbn [fst snd] in *.
  subst cmp. eexists. split; [reflexivity|].
  replace (obj st4 r) with (obj st r) in *
    by (subst st4; proj; by rewrite Ho3, Ho2).
  subst st4. proj. split_and!.
  - rewrite HF2, state_at_settle, decide_False; [done|]. intros [? _]. done.
  - rewrite HF2. apply state_at_settle_pending; [lia|].
    by rewrite Hst3.
  - rewrite HP5. unfold addToCache, getHash. proj. rewrite Hhs3, Hhs2.
    unfold getHash in Hhash. rewrite Hhash, (truthy_string_ne _ Hne). proj.
    apply lookup_insert_eq.
  - unfold clones. proj. by rewrite HP2, Hev3, Hev2.
  - unfold loads. proj. by rewrite HP2, Hev3, Hev2.
Qed.

End outcomes.

(** ** Sequence numbers and registry over runs *)

Section untouched.
Implicit Types (st : ResourceLoader).

Lemma untouched_refl st : untouched st st.
Proof. by split. Qed.

Lemma untouched_trans st1 st2 st3 :
  untouched st1 st2 → untouched st2 st3 → untouched st1 st3.
Proof.
  intros [A1 A2 A3 A4 A5] [B1 B2 B3 B4 B5]. split; try congruence; auto.
Qed.

Lemma untouched_same st st' :
  objects st' = objects st → _sequence st' = _sequence st →
  _handlers st' = _handlers st → _hashes st' = _hashes st →
  _canonicals st' = _canonicals st → untouched st st'.
Proof.
  intros Ho Hs Hha Hhs Hcn. split; try done.
  - intros r i. by rewrite Ho.
  - unfold ids_ok. by rewrite Ho, Hs.
Qed.

Lemma untouched_promises st st' : promises_only st st' → untouched st st'.
Proof. intros ->. by apply untouched_same. Qed.

Lemma untouched_update_obj r f st :
  (∀ q, r_id (f q) = r_id q) → untouched st (update_obj r f st).
Proof.
  intros Hf. split; try done; proj.
  - intros r' i. by rewrite obj_at_alter_field.
  - unfold ids_ok. proj. intros H r' i. rewrite obj_at_alter_field by done.
    intros Hi. destruct (H r' i Hi) as [? Hu]. split; [done|].
    intros r''. rewrite obj_at_alter_field by done. apply Hu.
Qed.

Lemma untouched_new_request s st : untouched st (new_request s st).2.
Proof.
  assert (Hobj : ∀ r i, r_id (obj (new_request s st).2 r) = Some i ↔
                        r_id (obj st r) = Some i).
  { intros r i. proj. destruct (decide (r < length (objects st))) as [Hr|Hr].
    - by rewrite obj_at_app_old.
    - rewrite (obj_at_invalid (objects st)) by lia.
      destruct (decide (r = length (objects st))) as [->|Hne].
      + by rewrite obj_at_app_new.
      + rewrite obj_at_invalid; [done|]. rewrite length_app. simpl. lia. }
  split; try done.
  - intros r i. apply Hobj.
  - intros H r i Hi%Hobj. destruct (H r i Hi) as [? Hu]. split; [done|].
    intros r' Hi'%Hobj. by apply Hu.
Qed.

Lemma _postOpen_untouched resource r st :
  untouched st (_postOpen resource r st).2.
Proof.
  destruct (_postOpen_frame resource r st) as (? & _ & _ & ? & ? & ? & _ & ?).
  by apply untouched_same.
Qed.

Lemma _request_sequence r st :
  _sequence (_request r st).2 =
    match r_id (obj st r) with
    | None => S (_sequence st)
    | Some _ => _sequence st
    end.
Proof.
  unfold _request.
  set (st1 := fire _ _).
  assert (H1 : _sequence st1 = match r_id (obj st r) with
                               | None => S (_sequence st)
                               | Some _ => _sequence st
                               end).
  { subst st1. by destruct (r_id (obj st r)). }
  clearbody st1. rewrite <- H1.
  destruct (r_promises (obj st1 r)) as [|p0 ps]; proj; [|done].
  destruct (_handlers st1 !! _); [destruct (_ && _)|]; proj; try done.
  unfold resolve_postOpen.
  match goal with |- context [_postOpen ?a ?b ?c] =>
    pose proof (_postOpen_frame a b c) as HF; cbv zeta in HF;
    destruct HF as (_ & _ & _ & _ & _ & _ & _ & HF);
    destruct (_postOpen a b c) as [[v|e] st2]
  end; cbn [fst snd] in *; proj; by rewrite HF.
Qed.

Lemma _request_ids r st r' :
  r_id (obj (_request r st).2 r') =
    if decide (r' = r ∧ r < length (objects st) ∧ r_id (obj st r) = None)
    then Some (_sequence st) else r_id (obj st r').
Proof.
  pose proof (_request_spec r st) as [_ Hspec]. cbv zeta in Hspec.
  assert (∃ f, objects (_request r st).2 = alter f r (objects_with_id r st) ∧
               ∀ q, r_id (f q) = r_id q) as (f & -> & Hf).
  { destruct (r_promises (obj st r)) as [|p0 ps].
    - destruct Hspec as (s & l & _ & _ & _ & Ho). eauto.
    - destruct Hspec as (_ & _ & Ho). eauto. }
  rewrite obj_at_alter_field by done. unfold objects_with_id.
  destruct (r_id (obj st r)) as [i|] eqn:Hi.
  - rewrite decide_False; [done|]. by intros (_ & _ & ?).
  - rewrite obj_at_alter. case_decide as Hd.
    + destruct Hd as [-> Hr]. by rewrite decide_True.
    + rewrite decide_False; [done|]. intros (? & ? & _). tauto.
Qed.

Lemma _request_untouched r st : untouched st (_request r st).2.
Proof.
  destruct (_request_frame r st) as (Hha & Hhs & Hcn).
  split; try done.
  - intros r' i Hi. rewrite _request_ids. rewrite decide_False; [done|].
    intros (-> & _ & ?). congruence.
  - intros H r' i. rewrite _request_ids, _request_sequence.
    case_decide as Hd.
    + destruct Hd as (-> & Hr & Hnone). rewrite Hnone. intros [= <-].
      split; [lia|]. intros r'. rewrite _request_ids.
      case_decide as Hd'; [by destruct Hd'|].
      intros Hi. destruct (H r' _ Hi). lia.
    + intros Hi. destruct (H r' i Hi) as [Hlt Hu]. split.
      * destruct (r_id (obj st r)); lia.
      * intros r''. rewrite _request_ids. case_decide as Hd'; [|by apply Hu].
        intros [= <-]. lia.
Qed.

Lemma request_loop_untouched parent rs st :
  untouched st (request_loop parent rs st).2.
Proof.
  revert st. induction rs as [|r0 rs IH]; intros st.
  { apply untouched_refl. }
  cbn [request_loop].
  set (r := _findExistingRequest r0 st).
  set (sta := if decide (r = r0) then st else _).
  assert (Ha : untouched st sta).
  { subst sta. case_decide; [apply untouched_refl|].
    by apply untouched_update_obj. }
  clearbody sta.
  assert (Hb : untouched sta (_makeCanonical r sta))
    by (by apply untouched_update_obj).
  set (stb := _makeCanonical r sta) in *. clearbody stb.
  pose proof (_request_untouched r stb) as Hc.
  destruct (_request r stb) as [p stc]. cbn [snd] in Hc.
  set (std := match parent with Some _ => _ | None => _ end).
  assert (Hd : untouched stc std).
  { subst std. destruct parent; [|apply untouched_refl].
    by apply untouched_update_obj. }
  clearbody std. specialize (IH std).
  destruct (request_loop parent rs std) as [[requested promises] ste].
  cbn [snd] in *. eauto using untouched_trans.
Qed.

Lemma request_untouched rs parent st : untouched st (request rs parent st).2.
Proof.
  destruct (request_call rs parent st) as (_ & Hpo & _).
  cbv zeta in Hpo.
  eapply untouched_trans; [|by apply untouched_promises].
  eapply untouched_trans; [|apply request_loop_untouched].
  apply untouched_promises, (promises_only_new_promise (KindOuter None)).
Qed.

Lemma new_requests_untouched ss st : untouched st (new_requests ss st).2.
Proof.
  revert st. induction ss as [|s ss IH]; intros st.
  { apply untouched_refl. }
  cbn [new_requests].
  pose proof (untouched_new_request s st) as H1.
  destruct (new_request s st) as [r st1].
  specialize (IH st1). destruct (new_requests ss st1) as [rs st2].
  cbn [snd] in *. by eapply untouched_trans.
Qed.

Lemma nested_request_untouched parent st ss :
  untouched st (nested_request parent st ss).
Proof.
  unfold nested_request.
  pose proof (new_requests_untouched ss st) as H1.
  destruct (new_requests ss st) as [rs st1]. cbn [snd] in H1.
  eapply untouched_trans; [done|apply request_untouched].
Qed.

Lemma _open_untouched data r st : untouched st (_open data r st).2.
Proof.
  unfold _open. destruct (_handlers st !! _) as [h|]; cbn [snd];
    [|apply untouched_refl].
  set (st1 := fire _ st).
  assert (H1 : untouched st st1) by (by apply untouched_same).
  clearbody st1. revert st1 H1.
  induction (o_nested _) as [|ss l IH]; intros st1 H1; [done|].
  simpl. apply IH. eapply untouched_trans; [done|].
  apply nested_request_untouched.
Qed.

Lemma settle_untouched p s st : untouched st (settle p s st).
Proof. apply untouched_promises, promises_only_settle. Qed.

Lemma resolve_postOpen_untouched p resource r st :
  untouched st (resolve_postOpen p resource r st).
Proof.
  unfold resolve_postOpen.
  pose proof (_postOpen_untouched resource r st) as H.
  destruct (_postOpen resource r st) as [[v|e] st1]; cbn [snd] in H;
    (eapply untouched_trans; [done|apply settle_untouched]).
Qed.

Lemma load_fulfilled_untouched p data st st' :
  load_fulfilled p data st = Some st' → untouched st st'.
Proof.
  unfold load_fulfilled. destruct (loading_request st p) as [r|]; [|done].
  simpl. intros [= <-].
  set (st1 := set_kind p _ st).
  assert (H1 : untouched st st1)
    by (apply untouched_promises, promises_only_set_kind).
  clearbody st1.
  pose proof (_open_untouched data r st1) as H2.
  destruct (_open data r st1) as [[resource|e] st2]; cbn [snd] in H2.
  - destruct (truthy resource).
    + eauto using untouched_trans, resolve_postOpen_untouched.
    + eauto using untouched_trans, settle_untouched.
  - eauto using untouched_trans, settle_untouched.
Qed.

Lemma load_rejected_untouched p error st st' :
  load_rejected p error st = Some st' → untouched st st'.
Proof.
  unfold load_rejected. destruct (loading_request st p) as [r|]; [|done].
  simpl. intros [= <-]. by apply untouched_same.
Qed.

Lemma check_untouched o v R st : untouched st (check o v R st).
Proof.
  unfold check. cbv zeta. destruct (child_promises st R) as [|p ps] eqn:E.
  - by apply untouched_same.
  - rewrite <- E. destruct (all_frame (child_promises st R) st) as (_ & Hpo & _).
    set (cs := child_requests st R).
    destruct (all (child_promises st R) st) as [agg st1]. cbn [snd] in Hpo.
    apply untouched_promises.
    eapply promises_only_trans; [done|apply promises_only_then].
Qed.

Lemma all_fulfilled_untouched agg i v st :
  untouched st (all_fulfilled agg i v st).
Proof.
  unfold all_fulfilled.
  destruct (kind_of st agg) as [[| |ps res|]|]; try apply untouched_refl.
  destruct (all_results _); by apply untouched_same.
Qed.

Lemma run_reaction_untouched k s st : untouched st (run_reaction k s st).
Proof.
  destruct k as [r t|agg i|o R|o w R], s as [|v|e]; simpl;
    try apply untouched_refl; try (by apply untouched_same).
  - pose proof (_postOpen_untouched v r st) as H.
    destruct (_postOpen v r st) as [[v'|e'] st1]; cbn [snd] in H; [|done].
    eapply untouched_trans; [done|apply settle_untouched].
  - apply all_fulfilled_untouched.
  - apply check_untouched.
  - apply check_untouched.
Qed.

Lemma open_untouched type Type_ data st :
  untouched st (open type Type_ data st).2.
Proof.
  unfold open.
  pose proof (untouched_new_request
                (RequestSpec "undefined" type Type_ VUndefined VUndefined) st)
    as H1.
  destruct (new_request _ st) as [r st1]. cbn [snd] in H1.
  eapply untouched_trans; [done|apply _open_untouched].
Qed.

Lemma step_untouched a st st' :
  registers a = false → step a st = Some st' → untouched st st'.
Proof.
  intros Hreg. destruct a; simpl in *; try discriminate.
  - intros [= <-]. apply untouched_same; rewrite addToCache_eq; reflexivity.
  - intros [= <-]. apply untouched_same; unfold removeFromCache;
      destruct (getHash st identifier); try reflexivity;
      destruct (truthy_string _); reflexivity.
  - intros [= <-]. by apply untouched_same.
  - intros [= <-]. apply untouched_new_request.
  - destruct (_ && _); [|done]. intros [= <-]. apply request_untouched.
  - pose proof (open_untouched type Type_ data st) as H.
    destruct (open type Type_ data st) as [[v|e] st1]; [|done].
    by intros [= <-].
  - apply load_fulfilled_untouched.
  - apply load_rejected_untouched.
  - destruct (tasks st) as [|[k s] rest]; [done|]. intros [= <-].
    eapply untouched_trans; [|apply run_reaction_untouched].
    by apply untouched_same.
Qed.

(** The calls that change the registry leave the requests alone. *)
Lemma step_ids a st st' :
  step a st = Some st' →
  (∀ r i, r_id (obj st r) = Some i → r_id (obj st' r) = Some i) ∧
  (ids_ok st → ids_ok st') ∧
  (∀ type, is_Some (_handlers st !! type) → is_Some (_handlers st' !! type)).
Proof.
  intros Hstep.
  assert (Hsame : objects st' = objects st → _sequence st' = _sequence st →
            (∀ r i, r_id (obj st r) = Some i → r_id (obj st' r) = Some i) ∧
            (ids_ok st → ids_ok st')).
  { intros Ho Hs. unfold ids_ok. by rewrite Ho, Hs. }
  destruct (registers a) eqn:Hreg.
  - destruct a; simpl in *; try done.
    + unfold registerHandler in Hstep. case_decide; [done|].
      injection Hstep as <-. split_and!; try (by apply Hsame).
      intros type' [h' Hh']. simpl.
      destruct (decide (type = type')) as [->|Hne].
      * rewrite lookup_insert_eq. eauto.
      * rewrite lookup_insert_ne by done. eauto.
    + injection Hstep as <-.
      assert (objects (registerHash hash identifier st) = objects st ∧
              _sequence (registerHash hash identifier st) = _sequence st ∧
              _handlers (registerHash hash identifier st) = _handlers st)
        as (Ho & Hs & Hha).
      { unfold registerHash.
        repeat match goal with |- context [truthy_entry ?o] =>
                 destruct (truthy_entry o) end; done. }
      rewrite Hha. destruct (Hsame Ho Hs). done.
    + injection Hstep as <-.
      assert (objects (unregisterHash identifier st) = objects st ∧
              _sequence (unregisterHash identifier st) = _sequence st ∧
              _handlers (unregisterHash identifier st) = _handlers st)
        as (Ho & Hs & Hha).
      { unfold unregisterHash. destruct (getHash st identifier); [|done].
        by destruct (truthy_string _). }
      rewrite Hha. destruct (Hsame Ho Hs). done.
  - destruct (step_untouched a st st' Hreg Hstep) as [Hha _ _ Hids Hok].
    rewrite Hha. done.
Qed.

End untouched.

Section sequence.
Implicit Types (st : ResourceLoader).

Lemma run_ids acts st st' :
  run acts st = Some st' →
  (∀ r i, r_id (obj st r) = Some i → r_id (obj st' r) = Some i) ∧
  (ids_ok st → ids_ok st') ∧
  (∀ type, is_Some (_handlers st !! type) → is_Some (_handlers st' !! type)).
Proof.
  revert st. induction acts as [|a acts IH]; intros st; simpl.
  { by intros [= ->]. }
  destruct (step a st) as [st1|] eqn:Hstep; simpl; [|done].
  intros Hrun. destruct (step_ids _ _ _ Hstep) as (A1 & A2 & A3).
  destruct (IH _ Hrun) as (B1 & B2 & B3). split_and!; auto.
Qed.

Lemma run_untouched acts st st' :
  Forall (λ a, registers a = false) acts →
  run acts st = Some st' → untouched st st'.
Proof.
  intros Hacts. revert st.
  induction Hacts as [|a acts Ha _ IH]; intros st; simpl.
  { intros [= ->]. apply untouched_refl. }
  destruct (step a st) as [st1|] eqn:Hstep; simpl; [|done].
  intros Hrun. eapply untouched_trans; [by eapply step_untouched|by apply IH].
Qed.

(** X14.  Sequence numbers identify requests: in every state the loader
    reaches, the number of a request is below the loader's counter, no two
    requests have the same number, and a request keeps its number through
    whatever the loader does afterwards. *)
Theorem sequence_numbers_unique acts st :
  run acts new_ResourceLoader = Some st →
  (∀ r i, r_id (obj st r) = Some i → i < _sequence st) ∧
  (∀ r r' i, r_id (obj st r) = Some i → r_id (obj st r') = Some i → r = r') ∧
  (∀ more st' r i,
     run more st = Some st' →
     r_id (obj st r) = Some i → r_id (obj st' r) = Some i).
Proof.
  intros Hrun.
  assert (Hok : ids_ok st).
  { destruct (run_ids _ _ _ Hrun) as (_ & H & _). apply H.
    intros r i. by rewrite (obj_at_invalid []) by (simpl; lia). }
  split_and!.
  - intros r i Hi. by destruct (Hok r i Hi).
  - intros r r' i Hi Hi'. destruct (Hok r' i Hi') as [_ Hu]. by apply Hu.
  - intros more st' r i Hmore. destruct (run_ids _ _ _ Hmore) as (H & _).
    apply H.
Qed.

(** X15.  Only registration changes the registry: a handler, once
    registered for a type, stays registered (possibly replaced) through any
    run, and a run without [registerHandler], [registerHash] and
    [unregisterHash] leaves the handlers, the hashes and the canonical
    identifiers exactly as they were. *)
Theorem registry_changed_only_by_registration acts st st' :
  run acts st = Some st' →
  (∀ type, is_Some (_handlers st !! type) →
           is_Some (_handlers st' !! type)) ∧
  (Forall (λ a, registers a = false) acts →
     _handlers st' = _handlers st ∧ _hashes st' = _hashes st ∧
     _canonicals st' = _canonicals st).
Proof.
  intros Hrun. split.
  - by destruct (run_ids _ _ _ Hrun) as (_ & _ & H).
  - intros Hacts. by destruct (run_untouched _ _ _ Hacts Hrun) as [? ? ? _ _].
Qed.

End sequence.

(** ** Progress counters over runs *)

Section counters.
Implicit Types (st : ResourceLoader).

Lemma sum_alter {A} (f : A → nat) (g : A → A) i l x :
  l !! i = Some x →
  sum_list_with f (alter g i l) + f x = sum_list_with f l + f (g x).
Proof.
  revert i. induction l as [|y l IH]; intros [|i]; simpl; try done.
  - intros [= ->]. lia.
  - intros H. specialize (IH i H). change (list_alter g i l) with (alter g i l). lia.
Qed.

Lemma alter_None {A} (g : A → A) i (l : list A) :
  l !! i = None → alter g i l = l.
Proof.
  revert i. induction l as [|y l IH]; intros [|i]; simpl; try done.
  intros H. f_equal. by apply IH.
Qed.

Lemma tasks_weight_fmap s ks :
  tasks_weight ((λ k, (k, s)) <$> ks) = sum_list_with follow_weight ks.
Proof.
  unfold tasks_weight. induction ks as [|k ks IH]; [done|].
  rewrite fmap_cons. cbn [sum_list_with fst]. by rewrite IH.
Qed.

Lemma tasks_weight_app ts1 ts2 :
  tasks_weight (ts1 ++ ts2) = tasks_weight ts1 + tasks_weight ts2.
Proof. apply sum_list_with_app. Qed.

Lemma heap_weight_app h1 h2 :
  heap_weight (h1 ++ h2) = heap_weight h1 + heap_weight h2.
Proof. apply sum_list_with_app. Qed.

Lemma heap_weight_new h s k :
  heap_weight (h ++ [Promise s [] k]) = heap_weight h + loading_weight k.
Proof.
  rewrite heap_weight_app. unfold heap_weight, promise_weight. simpl. lia.
Qed.

Lemma weight_settle p s h :
  heap_weight (settle_heap p s h) + tasks_weight (settle_tasks p s h)
  = heap_weight h.
Proof.
  unfold settle_heap, settle_tasks, state_at, reactions_at.
  destruct (h !! p) as [pr|] eqn:E.
  - destruct (is_pending (p_state pr)); [|simpl; lia].
    pose proof (sum_alter promise_weight (λ pr, Promise s [] (p_kind pr))
                  p h pr E) as H.
    rewrite tasks_weight_fmap. unfold heap_weight, promise_weight in *.
    simpl in *. lia.
  - simpl. rewrite alter_None by done. lia.
Qed.

Lemma weight_then p k h :
  heap_weight (then_heap p k h) + tasks_weight (then_tasks p k h)
  ≤ heap_weight h + follow_weight k.
Proof.
  unfold then_heap, then_tasks, state_at.
  destruct (h !! p) as [pr|] eqn:E.
  - destruct (is_pending (p_state pr)); [|simpl; lia].
    pose proof (sum_alter promise_weight
                  (λ pr, Promise (p_state pr) (p_reactions pr ++ [k])
                           (p_kind pr)) p h pr E) as H.
    unfold heap_weight, promise_weight in *. simpl in *.
    rewrite sum_list_with_app in H. simpl in H. lia.
  - simpl. rewrite alter_None by done. lia.
Qed.

Lemma weight_set_kind p k h :
  heap_weight (alter (λ pr, Promise (p_state pr) (p_reactions pr) k) p h)
  + from_option loading_weight 0 (kind_at h p)
  = heap_weight h + match h !! p with Some _ => loading_weight k | None => 0 end.
Proof.
  unfold kind_at. destruct (h !! p) as [pr|] eqn:E; simpl.
  - pose proof (sum_alter promise_weight
                  (λ pr, Promise (p_state pr) (p_reactions pr) k) p h pr E)
      as H.
    unfold heap_weight, promise_weight in *. simpl in *. lia.
  - rewrite alter_None by done. lia.
Qed.

Lemma spends_refl st : spends st st.
Proof. unfold spends. lia. Qed.

Lemma spends_trans st1 st2 st3 :
  spends st1 st2 → spends st2 st3 → spends st1 st3.
Proof. unfold spends. lia. Qed.

Lemma spends_same st st' :
  heap st' = heap st → tasks st' = tasks st → _loaded st' = _loaded st →
  _requested st' = _requested st → spends st st'.
Proof. unfold spends, outstanding. intros -> -> -> ->. lia. Qed.

Lemma spends_settle p s st : spends st (settle p s st).
Proof.
  unfold spends, outstanding. proj. rewrite tasks_weight_app.
  pose proof (weight_settle p s (heap st)). lia.
Qed.

Lemma spends_then p k st : follow_weight k = 0 → spends st (then_ p k st).
Proof.
  intros Hk. unfold spends, outstanding. proj. rewrite tasks_weight_app.
  pose proof (weight_then p k (heap st)). lia.
Qed.

Lemma spends_set_kind p k st :
  loading_weight k = 0 → spends st (set_kind p k st).
Proof.
  intros Hk. unfold spends, outstanding. proj.
  pose proof (weight_set_kind p k (heap st)) as H. rewrite Hk in H.
  destruct (heap st !! p); lia.
Qed.

Lemma spends_new_promise k st :
  loading_weight k = 0 → spends st (new_promise k st).2.
Proof.
  intros Hk. unfold spends, outstanding. proj. rewrite heap_weight_new. lia.
Qed.

Lemma _postOpen_loaded resource r st :
  _loaded (_postOpen resource r st).2 ≤ S (_loaded st).
Proof.
  unfold _postOpen. rewrite addToCache_eq. proj.
  destruct (_handlers st !! _); proj; lia.
Qed.

(** The post-open pass counts one request as loaded. *)
Lemma _postOpen_cost resource r st :
  let st' := (_postOpen resource r st).2 in
  _loaded st' + outstanding st' ≤ S (_loaded st + outstanding st) ∧
  _requested st' = _requested st.
Proof.
  intros st'. subst st'.
  destruct (_postOpen_frame resource r st) as (_ & Hh & Ht & _ & _ & _ & Hr & _).
  pose proof (_postOpen_loaded resource r st). unfold outstanding.
  rewrite Hh, Ht. split; [lia|done].
Qed.

Lemma resolve_postOpen_cost p resource r st :
  let st' := resolve_postOpen p resource r st in
  _loaded st' + outstanding st' ≤ S (_loaded st + outstanding st) ∧
  _requested st' = _requested st.
Proof.
  intros st'. subst st'. unfold resolve_postOpen.
  pose proof (_postOpen_cost resource r st) as [H1 H2]. cbv zeta in H1, H2.
  destruct (_postOpen resource r st) as [[v|e] st1]; cbn [snd] in *.
  - pose proof (spends_settle p (Fulfilled v) st1) as H. unfold spends in H.
    unfold resolve.
    assert (_requested (settle p (Fulfilled v) st1) = _requested st1) by done.
    split; [lia|congruence].
  - pose proof (spends_settle p (Rejected e) st1) as H. unfold spends in H.
    unfold reject.
    assert (_requested (settle p (Rejected e) st1) = _requested st1) by done.
    split; [lia|congruence].
Qed.

Lemma _request_spends r st : spends st (_request r st).2.
Proof.
  unfold _request.
  pose proof (_request_begin r st) as H. cbv zeta in H.
  match type of H with objects ?s = _ ∧ _ => set (st1 := s) in *; clearbody st1 end.
  destruct H as (_ & Hh & Ht & _ & _ & _ & _ & _ & Hrq & Hld & _).
  assert (H1 : _loaded st1 + outstanding st1 = _loaded st + outstanding st).
  { unfold outstanding. by rewrite Hh, Ht, Hld. }
  unfold spends. rewrite <- H1, <- Hrq. clear Hh Ht Hrq Hld H1.
  destruct (r_promises (obj st1 r)) as [|p0 ps]; proj.
  - destruct (_handlers st1 !! _) as [h|].
    + destruct (_ && _); proj.
      * match goal with |- context [resolve_postOpen ?p ?v ?r ?s] =>
          pose proof (resolve_postOpen_cost p v r s) as [H1 H2];
          cbv zeta in H1, H2; set (st2 := resolve_postOpen p v r s) in *;
          clearbody st2
        end.
        unfold outstanding in *. proj. rewrite heap_weight_new in H1.
        simpl in H1. lia.
      * unfold outstanding. proj.
        match goal with |- context [alter ?f ?p ?h] =>
          pose proof (weight_set_kind (length (heap st1))
                        (KindPrimary r true) (heap st1 ++ [Promise Pending [] (KindPrimary r false)])) as H
        end.
        rewrite heap_weight_new, kind_at_app_new in H.
        simpl in H. destruct (_ !! _); simpl in H; lia.
    + proj. unfold outstanding. proj. rewrite tasks_weight_app.
      match goal with |- context [settle_heap ?p ?s ?h] =>
        pose proof (weight_settle p s h) as H end.
      rewrite heap_weight_new in H. simpl in H. lia.
  - unfold outstanding. proj. rewrite tasks_weight_app.
    match goal with |- context [then_heap ?p ?k ?h] =>
      pose proof (weight_then p k h) as H end.
    rewrite heap_weight_new in H. simpl in H. lia.
Qed.

Lemma all_subscribe_spends agg i ps st : spends st (all_subscribe agg i ps st).
Proof.
  revert i st. induction ps as [|p ps IH]; intros i st; simpl.
  { apply spends_refl. }
  eapply spends_trans; [|apply IH]. by apply spends_then.
Qed.

Lemma all_spends ps st : spends st (all ps st).2.
Proof.
  unfold all. cbn [new_promise snd].
  eapply spends_trans; [|apply all_subscribe_spends].
  eapply spends_trans;
    [apply (spends_new_promise (KindAll ps (replicate (length ps) None)));
     done|].
  cbn [new_promise snd].
  destruct ps; [apply spends_settle|apply spends_refl].
Qed.

Lemma request_loop_spends parent rs st :
  spends st (request_loop parent rs st).2.
Proof.
  revert st. induction rs as [|r0 rs IH]; intros st.
  { apply spends_refl. }
  cbn [request_loop].
  set (r := _findExistingRequest r0 st).
  set (sta := if decide (r = r0) then st else _).
  assert (Ha : spends st sta).
  { subst sta. case_decide; [apply spends_refl|]. by apply spends_same. }
  clearbody sta.
  assert (Hb : spends sta (_makeCanonical r sta)) by (by apply spends_same).
  set (stb := _makeCanonical r sta) in *. clearbody stb.
  pose proof (_request_spends r stb) as Hc.
  destruct (_request r stb) as [p stc]. cbn [snd] in Hc.
  set (std := match parent with Some _ => _ | None => _ end).
  assert (Hd : spends stc std).
  { subst std. destruct parent; [|apply spends_refl]. by apply spends_same. }
  clearbody std. specialize (IH std).
  destruct (request_loop parent rs std) as [[requested promises] ste].
  cbn [snd] in *. eauto using spends_trans.
Qed.

Lemma request_spends rs parent st : spends st (request rs parent st).2.
Proof.
  unfold request.
  pose proof (spends_new_promise (KindOuter None) st eq_refl) as H0.
  destruct (new_promise (KindOuter None) st) as [outer st0]. cbn [snd] in H0.
  pose proof (request_loop_spends parent rs st0) as H1.
  destruct (request_loop parent rs st0) as [[requested promises] st1].
  cbn [snd] in H1.
  pose proof (spends_set_kind outer (KindOuter (Some (requested, promises)))
                st1 eq_refl) as H2.
  set (st2 := set_kind _ _ st1) in *. clearbody st2.
  pose proof (all_spends promises st2) as H3.
  destruct (all promises st2) as [agg st3]. cbn [snd] in *.
  pose proof (spends_then agg (KTop outer requested) st3 eq_refl).
  eauto using spends_trans.
Qed.

Lemma new_requests_spends ss st : spends st (new_requests ss st).2.
Proof.
  revert st. induction ss as [|s ss IH]; intros st.
  { apply spends_refl. }
  cbn [new_requests].
  assert (H1 : spends st (new_request s st).2) by (by apply spends_same).
  destruct (new_request s st) as [r st1].
  specialize (IH st1). destruct (new_requests ss st1) as [rs st2].
  cbn [snd] in *. by eapply spends_trans.
Qed.

Lemma nested_request_spends parent st ss :
  spends st (nested_request parent st ss).
Proof.
  unfold nested_request.
  pose proof (new_requests_spends ss st) as H1.
  destruct (new_requests ss st) as [rs st1]. cbn [snd] in H1.
  eapply spends_trans; [done|apply request_spends].
Qed.

Lemma _open_spends data r st : spends st (_open data r st).2.
Proof.
  unfold _open. destruct (_handlers st !! _) as [h|]; cbn [snd];
    [|apply spends_refl].
  set (st1 := fire _ st).
  assert (H1 : spends st st1) by (by apply spends_same).
  clearbody st1. revert st1 H1.
  induction (o_nested _) as [|ss l IH]; intros st1 H1; [done|].
  simpl. apply IH. eapply spends_trans; [done|].
  apply nested_request_spends.
Qed.

(** Once the load behind [p] is over, it is no longer outstanding. *)
Lemma loaded_cost p r st :
  loading_request st p = Some r →
  let st' := set_kind p (KindPrimary r false) st in
  S (outstanding st') = outstanding st ∧ _loaded st' = _loaded st ∧
  _requested st' = _requested st.
Proof.
  unfold loading_request. intros Hk. split; [|done].
  unfold outstanding. proj.
  pose proof (weight_set_kind p (KindPrimary r false) (heap st)) as H.
  destruct (kind_of st p) as [[r' [|]| | |]|] eqn:E; try done.
  unfold kind_at in E. destruct (heap st !! p); [|done].
  simpl in H. lia.
Qed.

Lemma load_fulfilled_spends p data st st' :
  load_fulfilled p data st = Some st' → spends st st'.
Proof.
  unfold load_fulfilled.
  destruct (loading_request st p) as [r|] eqn:Hl; [|done].
  simpl. intros [= <-].
  destruct (loaded_cost p r st Hl) as (H1 & H1l & H1').
  cbv zeta in H1, H1l, H1'.
  set (st1 := set_kind p _ st) in *. clearbody st1.
  pose proof (_open_spends data r st1) as H2.
  destruct (_open data r st1) as [[resource|e] st2]; cbn [snd] in H2.
  - destruct (truthy resource).
    + destruct (resolve_postOpen_cost p resource r st2) as [H3 H3'].
      cbv zeta in H3, H3'. unfold spends in *. lia.
    + pose proof (spends_settle p (Fulfilled resource) st2) as H3.
      unfold resolve, spends in *. lia.
  - pose proof (spends_settle p (Rejected e) st2) as H3.
    unfold reject, spends in *. lia.
Qed.

Lemma load_rejected_spends p error st st' :
  load_rejected p error st = Some st' → spends st st'.
Proof.
  unfold load_rejected.
  destruct (loading_request st p) as [r|] eqn:Hl; [|done].
  simpl. intros [= <-].
  destruct (loaded_cost p r st Hl) as (H1 & H1l & H1').
  cbv zeta in H1, H1l, H1'.
  set (st1 := set_kind p _ st) in *. clearbody st1.
  assert (H2 : spends st1 (fire (Fire_error r error) st1))
    by (by apply spends_same).
  pose proof (spends_settle p (Rejected error)
                (fire (Fire_error r error) st1)) as H3.
  unfold reject, spends in *. lia.
Qed.

Lemma check_spends o v R st : spends st (check o v R st).
Proof.
  unfold check. cbv zeta. destruct (child_promises st R) as [|p ps] eqn:E.
  - eapply spends_trans; [|apply spends_settle]. by apply spends_same.
  - rewrite <- E. pose proof (all_spends (child_promises st R) st) as H.
    set (cs := child_requests st R).
    destruct (all (child_promises st R) st) as [agg st1]. cbn [snd] in H.
    eapply spends_trans; [done|by apply spends_then].
Qed.

Lemma all_fulfilled_spends agg i v st : spends st (all_fulfilled agg i v st).
Proof.
  unfold all_fulfilled.
  destruct (kind_of st agg) as [[| |ps res|]|]; try apply spends_refl.
  pose proof (spends_set_kind agg (KindAll ps (<[i:=Some v]> res)) st eq_refl).
  destruct (all_results _); [|done].
  eapply spends_trans; [done|apply spends_settle].
Qed.

(** Running a callback: a follow-on callback is no longer outstanding, and
    counts at most one request as loaded. *)
Lemma run_reaction_cost k s st :
  let st' := run_reaction k s st in
  _loaded st' + outstanding st' + _requested st
  ≤ follow_weight k + _loaded st + outstanding st + _requested st'.
Proof.
  assert (Hsp : ∀ st', spends st st' →
            _loaded st' + outstanding st' + _requested st
            ≤ follow_weight k + _loaded st + outstanding st + _requested st').
  { unfold spends. lia. }
  intros st'. subst st'.
  destruct k as [r t|agg i|o R|o w R], s as [|v|e]; cbn [run_reaction];
    try (apply Hsp, spends_refl).
  - destruct (_postOpen_cost v r st) as [H1 H2]. cbv zeta in H1, H2.
    destruct (_postOpen v r st) as [[v'|e'] st1]; cbn [snd] in *.
    + pose proof (spends_settle t (Fulfilled v') st1) as H3.
      unfold resolve, spends in *. cbn [follow_weight].
      change (_loaded (settle t (Fulfilled v') st1)) with (_loaded st1) in *.
      change (_requested (settle t (Fulfilled v') st1))
        with (_requested st1) in *.
      lia.
    + cbn [follow_weight]. lia.
  - apply Hsp, all_fulfilled_spends.
  - apply Hsp, spends_settle.
  - apply Hsp, check_spends.
  - apply Hsp, spends_settle.
  - apply Hsp, check_spends.
  - apply Hsp, spends_settle.
Qed.

Lemma open_spends type Type_ data st : spends st (open type Type_ data st).2.
Proof.
  unfold open.
  assert (H1 : spends st
            (new_request
               (RequestSpec "undefined" type Type_ VUndefined VUndefined)
               st).2) by (by apply spends_same).
  destruct (new_request _ st) as [r st1]. cbn [snd] in H1.
  eapply spends_trans; [done|apply _open_spends].
Qed.

Lemma step_spends a st st' :
  resets a = false → step a st = Some st' → spends st st'.
Proof.
  intros Hres. destruct a; simpl in *; try discriminate.
  - unfold registerHandler. case_decide; [done|]. intros [= <-].
    by apply spends_same.
  - intros [= <-]. apply spends_same; unfold registerHash;
      repeat match goal with |- context [truthy_entry ?o] =>
               destruct (truthy_entry o) end; done.
  - intros [= <-]. apply spends_same; unfold unregisterHash;
      destruct (getHash st identifier); try reflexivity;
      destruct (truthy_string _); reflexivity.
  - intros [= <-]. apply spends_same; rewrite addToCache_eq; reflexivity.
  - intros [= <-]. apply spends_same; unfold removeFromCache;
      destruct (getHash st identifier); try reflexivity;
      destruct (truthy_string _); reflexivity.
  - intros [= <-]. by apply spends_same.
  - destruct (_ && _); [|done]. intros [= <-]. apply request_spends.
  - pose proof (open_spends type Type_ data st) as H.
    destruct (open type Type_ data st) as [[v|e] st1]; [|done].
    by intros [= <-].
  - apply load_fulfilled_spends.
  - apply load_rejected_spends.
  - destruct (tasks st) as [|[k s] rest] eqn:Ht; [done|]. intros [= <-].
    pose proof (run_reaction_cost k s (set_tasks rest st)) as H.
    cbv zeta in H. unfold spends, outstanding in *. rewrite Ht. proj.
    change (tasks_weight ((k, s) :: rest))
      with (follow_weight k + tasks_weight rest).
    lia.
Qed.

Lemma run_spends acts st st' :
  Forall (λ a, resets a = false) acts →
  run acts st = Some st' → spends st st'.
Proof.
  intros Hacts. revert st.
  induction Hacts as [|a acts Ha _ IH]; intros st; simpl.
  { intros [= ->]. apply spends_refl. }
  destruct (step a st) as [st1|] eqn:Hstep; simpl; [|done].
  intros Hrun. eapply spends_trans; [by eapply step_spends|by apply IH].
Qed.

Lemma fair_refl st : fair st st.
Proof. by intros ? ?. Qed.

Lemma fair_trans st1 st2 st3 : fair st1 st2 → fair st2 st3 → fair st1 st3.
Proof. intros H1 H2 B P. destruct (H1 B P). by apply H2. Qed.

Lemma spends_balanced st st' : spends st st' → balanced st → balanced st'.
Proof. unfold spends, balanced. lia. Qed.

(** Steps that fire no [progress] event. *)
Lemma fair_quiet st st' :
  spends st st' →
  (∀ l n, Fire_progress l n ∈ events st' → Fire_progress l n ∈ events st) →
  fair st st'.
Proof.
  intros Hs He B P. split; [by eapply spends_balanced|].
  intros l n Hin. by apply P, He.
Qed.

Lemma fair_promises st st' :
  promises_only st st' → spends st st' → fair st st'.
Proof.
  intros Hpo Hs. apply fair_quiet; [done|].
  destruct (promises_only_fields _ _ Hpo) as (_ & _ & _ & _ & _ & _ & _ & _ & ->).
  done.
Qed.

Lemma _postOpen_progress resource r st :
  _loaded st ≤ _requested st → progress_ok st →
  progress_ok (_postOpen resource r st).2.
Proof.
  intros Hle P. unfold _postOpen. rewrite addToCache_eq. proj.
  destruct (_handlers st !! _); unfold progress_ok in *; proj; [|done].
  intros l n. rewrite !elem_of_cons.
  intros [[=]|[[= -> ->]|[[=]|Hin]]]; [lia|by apply P].
Qed.

Lemma resolve_postOpen_progress p resource r st :
  _loaded st ≤ _requested st → progress_ok st →
  progress_ok (resolve_postOpen p resource r st).
Proof.
  intros Hle P. unfold resolve_postOpen.
  pose proof (_postOpen_progress resource r st Hle P) as H.
  by destruct (_postOpen resource r st) as [[v|e] st1].
Qed.

Lemma _request_fair r st : fair st (_request r st).2.
Proof.
  intros B P. split; [by eapply spends_balanced; [apply _request_spends|]|].
  assert (Hle : _loaded st ≤ _requested st) by (unfold balanced in B; lia).
  destruct (r_promises (obj st r)) as [|p0 ps] eqn:Hpr.
  - destruct (_handlers st !! r_type (obj st r)) as [h|] eqn:Hh.
    + destruct (truthy (getFromCache st (r_canonical (obj st r)))
                && type_matches (getFromCache st (r_canonical (obj st r)))
                     (r_Type (obj st r))) eqn:Hhit.
      * destruct (_request_cache_hit r st h Hpr Hh Hhit) as (_ & _ & Hev & _).
        intros l n. rewrite Hev, !elem_of_cons.
        intros [[=]|[[= -> ->]|[[=]|[[=]|Hin]]]]; [lia|by apply P].
      * destruct (_request_load r st h Hpr Hh Hhit) as (_ & _ & Hev & _).
        intros l n. rewrite Hev, !elem_of_cons.
        intros [[=]|[[=]|Hin]]. by apply P.
    + destruct (_request_missing_handler r st Hpr Hh) as (_ & _ & Hev & _).
      intros l n. rewrite Hev, !elem_of_cons.
      intros [[=]|[[=]|Hin]]. by apply P.
  - destruct (_request_follow r st p0 ps Hpr) as (_ & _ & _ & Hev & _).
    intros l n. rewrite Hev, !elem_of_cons.
    intros [[=]|Hin]. by apply P.
Qed.

Lemma fair_same st st' :
  heap st' = heap st → tasks st' = tasks st → _loaded st' = _loaded st →
  _requested st' = _requested st → events st' = events st → fair st st'.
Proof.
  intros Hh Ht Hl Hr He. apply fair_quiet; [by apply spends_same|].
  by rewrite He.
Qed.

Lemma request_loop_fair parent rs st :
  fair st (request_loop parent rs st).2.
Proof.
  revert st. induction rs as [|r0 rs IH]; intros st.
  { apply fair_refl. }
  cbn [request_loop].
  set (r := _findExistingRequest r0 st).
  set (sta := if decide (r = r0) then st else _).
  assert (Ha : fair st sta).
  { subst sta. case_decide; [apply fair_refl|]. by apply fair_same. }
  clearbody sta.
  assert (Hb : fair sta (_makeCanonical r sta)) by (by apply fair_same).
  set (stb := _makeCanonical r sta) in *. clearbody stb.
  pose proof (_request_fair r stb) as Hc.
  destruct (_request r stb) as [p stc]. cbn [snd] in Hc.
  set (std := match parent with Some _ => _ | None => _ end).
  assert (Hd : fair stc std).
  { subst std. destruct parent; [|apply fair_refl]. by apply fair_same. }
  clearbody std. specialize (IH std).
  destruct (request_loop parent rs std) as [[requested promises] ste].
  cbn [snd] in *. eauto using fair_trans.
Qed.

Lemma request_fair rs parent st : fair st (request rs parent st).2.
Proof.
  intros B P. split; [by eapply spends_balanced; [apply request_spends|]|].
  destruct (request_call rs parent st) as (_ & Hpo & _). cbv zeta in Hpo.
  destruct (promises_only_fields _ _ Hpo) as (_ & _ & _ & _ & _ & _ & _ & _ & Hev).
  unfold progress_ok. rewrite Hev.
  apply (request_loop_fair parent rs (new_promise (KindOuter None) st).2).
  - eapply spends_balanced; [|done]. by apply spends_new_promise.
  - done.
Qed.

Lemma new_requests_fair ss st : fair st (new_requests ss st).2.
Proof.
  revert st. induction ss as [|s ss IH]; intros st.
  { apply fair_refl. }
  cbn [new_requests].
  assert (H1 : fair st (new_request s st).2) by (by apply fair_same).
  destruct (new_request s st) as [r st1].
  specialize (IH st1). destruct (new_requests ss st1) as [rs st2].
  cbn [snd] in *. by eapply fair_trans.
Qed.

Lemma nested_request_fair parent st ss : fair st (nested_request parent st ss).
Proof.
  unfold nested_request.
  pose proof (new_requests_fair ss st) as H1.
  destruct (new_requests ss st) as [rs st1]. cbn [snd] in H1.
  eapply fair_trans; [done|apply request_fair].
Qed.

Lemma fire_fair e st :
  (∀ l n, e ≠ Fire_progress l n) → fair st (fire e st).
Proof.
  intros He. apply fair_quiet; [by apply spends_same|].
  intros l n. proj. rewrite elem_of_cons. intros [Heq|?]; [|done].
  by destruct (He l n).
Qed.

Lemma _open_fair data r st : fair st (_open data r st).2.
Proof.
  unfold _open. destruct (_handlers st !! _) as [h|]; cbn [snd];
    [|apply fair_refl].
  set (st1 := fire _ st).
  assert (H1 : fair st st1) by (by apply fire_fair).
  clearbody st1. revert st1 H1.
  induction (o_nested _) as [|ss l IH]; intros st1 H1; [done|].
  simpl. apply IH. eapply fair_trans; [done|].
  apply nested_request_fair.
Qed.

Lemma settle_fair p s st : fair st (settle p s st).
Proof. apply fair_promises; [apply promises_only_settle|apply spends_settle]. Qed.

Lemma load_fulfilled_fair p data st st' :
  load_fulfilled p data st = Some st' → fair st st'.
Proof.
  intros Hload B P.
  split; [by eapply spends_balanced; [eapply load_fulfilled_spends|]|].
  revert Hload. unfold load_fulfilled.
  destruct (loading_request st p) as [r|] eqn:Hl; [|done].
  simpl. intros [= <-].
  destruct (loaded_cost p r st Hl) as (H1 & H1l & H1').
  cbv zeta in H1, H1l, H1'.
  set (st1 := set_kind p _ st) in *.
  assert (B1 : balanced st1) by (unfold balanced in *; lia).
  assert (P1 : progress_ok st1) by done.
  clearbody st1.
  destruct (_open_fair data r st1 B1 P1) as [B2 P2].
  destruct (_open data r st1) as [[resource|e] st2]; cbn [snd] in *.
  - destruct (truthy resource); [|done].
    apply resolve_postOpen_progress; [unfold balanced in B2; lia|done].
  - done.
Qed.

Lemma load_rejected_fair p error st st' :
  load_rejected p error st = Some st' → fair st st'.
Proof.
  intros Hload. apply fair_quiet; [by eapply load_rejected_spends|].
  revert Hload. unfold load_rejected.
  destruct (loading_request st p) as [r|]; [|done].
  simpl. intros [= <-]. intros l n. proj. rewrite elem_of_cons.
  by intros [[=]|?].
Qed.

Lemma check_fair o v R st : fair st (check o v R st).
Proof.
  apply fair_quiet; [apply check_spends|].
  unfold check. cbv zeta. destruct (child_promises st R) as [|p ps] eqn:E.
  - intros l n. proj. rewrite elem_of_cons. by intros [[=]|?].
  - rewrite <- E.
    destruct (all_frame (child_promises st R) st) as (_ & Hpo & _).
    set (cs := child_requests st R).
    destruct (all (child_promises st R) st) as [agg st1]. cbn [snd] in Hpo.
    destruct (promises_only_fields _ _ Hpo) as (_ & _ & _ & _ & _ & _ & _ & _ & Hev).
    intros l n. proj. by rewrite Hev.
Qed.

Lemma all_fulfilled_fair agg i v st : fair st (all_fulfilled agg i v st).
Proof.
  apply fair_quiet; [apply all_fulfilled_spends|].
  unfold all_fulfilled.
  destruct (kind_of st agg) as [[| |ps res|]|]; try done.
  by destruct (all_results _).
Qed.

(** Running a callback that has been taken off the queue. *)
Lemma run_reaction_fair k s rest st :
  tasks st = (k, s) :: rest →
  fair st (run_reaction k s (set_tasks rest st)).
Proof.
  intros Hts B P.
  pose proof (run_reaction_cost k s (set_tasks rest st)) as Hc.
  cbv zeta in Hc.
  assert (Ho : outstanding st
               = follow_weight k + outstanding (set_tasks rest st)).
  { unfold outstanding. rewrite Hts. proj.
    change (tasks_weight ((k, s) :: rest))
      with (follow_weight k + tasks_weight rest). lia. }
  assert (B1 : _loaded st + outstanding (set_tasks rest st) ≤ _requested st).
  { unfold balanced in B. lia. }
  split.
  { unfold balanced in *.
    change (_loaded (set_tasks rest st)) with (_loaded st) in Hc.
    change (_requested (set_tasks rest st)) with (_requested st) in Hc. lia. }
  set (st0 := set_tasks rest st) in *.
  assert (B0 : balanced st0) by done.
  assert (P0 : progress_ok st0) by done.
  clearbody st0.
  destruct k as [r t|agg i|o R|o w R], s as [|v|e]; cbn [run_reaction];
    try done.
  - pose proof (_postOpen_progress v r st0) as HP.
    destruct (_postOpen v r st0) as [[v'|e'] st1]; cbn [snd] in HP;
      apply HP; try done; unfold balanced in B0; lia.
  - by apply all_fulfilled_fair.
  - by apply check_fair.
  - by apply check_fair.
Qed.

Lemma open_fair type Type_ data st : fair st (open type Type_ data st).2.
Proof.
  unfold open.
  assert (H1 : fair st
            (new_request
               (RequestSpec "undefined" type Type_ VUndefined VUndefined)
               st).2) by (by apply fair_same).
  destruct (new_request _ st) as [r st1]. cbn [snd] in H1.
  eapply fair_trans; [done|apply _open_fair].
Qed.

Lemma step_fair a st st' :
  resets a = false → step a st = Some st' → fair st st'.
Proof.
  intros Hres. destruct a; simpl in *; try discriminate.
  - unfold registerHandler. case_decide; [done|]. intros [= <-].
    by apply fair_same.
  - intros [= <-]. apply fair_same; unfold registerHash;
      repeat match goal with |- context [truthy_entry ?o] =>
               destruct (truthy_entry o) end; done.
  - intros [= <-]. apply fair_same; unfold unregisterHash;
      destruct (getHash st identifier); try reflexivity;
      destruct (truthy_string _); reflexivity.
  - intros [= <-]. apply fair_same; rewrite addToCache_eq; reflexivity.
  - intros [= <-]. apply fair_same; unfold removeFromCache;
      destruct (getHash st identifier); try reflexivity;
      destruct (truthy_string _); reflexivity.
  - intros [= <-]. by apply fair_same.
  - destruct (_ && _); [|done]. intros [= <-]. apply request_fair.
  - pose proof (open_fair type Type_ data st) as H.
    destruct (open type Type_ data st) as [[v|e] st1]; [|done].
    by intros [= <-].
  - apply load_fulfilled_fair.
  - apply load_rejected_fair.
  - destruct (tasks st) as [|[k s] rest] eqn:Ht; [done|]. intros [= <-].
    by apply run_reaction_fair.
Qed.

Lemma run_fair acts st st' :
  Forall (λ a, resets a = false) acts → run acts st = Some st' → fair st st'.
Proof.
  intros Hacts. revert st.
  induction Hacts as [|a acts Ha _ IH]; intros st; simpl.
  { intros [= ->]. apply fair_refl. }
  destruct (step a st) as [st1|] eqn:Hstep; simpl; [|done].
  intros Hrun. eapply fair_trans; [by eapply step_fair|by apply IH].
Qed.

(** X16.  As long as [resetProgress] is not called, between two actions
    [_loaded] never overtakes [_requested]; while the load of some request
    is outstanding, [_loaded] is strictly below [_requested], so that the
    progress of the loader is below one; and every [progress] event that
    has been fired, also those fired in the middle of a call, reports a
    [_loaded] that is at most one above the [_requested] it reports. *)
Theorem loaded_at_most_requested acts st :
  run acts new_ResourceLoader = Some st →
  Forall (λ a, resets a = false) acts →
  _loaded st ≤ _requested st ∧
  (∀ p r, loading_request st p = Some r → _loaded st < _requested st) ∧
  ∀ l n, Fire_progress l n ∈ events st → l ≤ S n.
Proof.
  intros Hrun Hacts. pose proof (run_spends _ _ _ Hacts Hrun) as H.
  unfold spends in H. change (_loaded new_ResourceLoader) with 0 in H.
  change (_requested new_ResourceLoader) with 0 in H.
  change (outstanding new_ResourceLoader) with 0 in H.
  split; [lia|]. split.
  - intros p r Hl.
    destruct (loaded_cost p r st Hl) as [H1 _]. cbv zeta in H1. lia.
  - destruct (run_fair _ _ _ Hacts Hrun) as [_ HP]; [| |done].
    + unfold balanced. change (_loaded new_ResourceLoader) with 0.
      change (outstanding new_ResourceLoader) with 0. lia.
    + intros l n Hin. change (events new_ResourceLoader) with (@nil event) in Hin.
      by apply elem_of_nil in Hin.
Qed.

End counters.

(** ** Further examples *)

Section witnesses.

Lemma merged_request_takes_data_witness :
  let st := (new_request
               (RequestSpec "/a.png" "image" None (VStr "second") VUndefined)
               (final (take 5 two_callers_run))).2 in
  let st' := (request [2] None st).2 in
  r_data (obj st 0) = VUndefined ∧
  r_data (obj st' 0) = r_data (obj st 2) ∧
  loads st' = loads st ∧
  ∃ q, call_at (heap st') (length (heap st)) = Some ([0], [q]) ∧
       kind_of st' q = Some (KindFollow 0).
Proof.
  intros st. split; [reflexivity|].
  apply (merged_request_takes_data 2 st 0 1 []); [reflexivity|lia|reflexivity].
Defined.

Lemma failed_request_absorbs_retry_witness :
  let st := final (take 5 two_callers_run) in
  ∃ st1, load_rejected 1 (VStr "404") st = Some st1 ∧
    state_of st1 1 = Rejected (VStr "404") ∧ _requests st1 = _requests st ∧
    events st1 = Fire_error 0 (VStr "404") :: events st ∧
    let st2 := (request [length (objects st1)] None
                  (new_request (image_request "/a.png") st1).2).2 in
    loads st2 = loads st1 ∧ state_of st2 1 = Rejected (VStr "404") ∧
    ∃ q, call_at (heap st2) (length (heap st1)) = Some ([0], [q]) ∧
         kind_of st2 q = Some (KindFollow 0) ∧ state_of st2 q = Pending.
Proof.
  intros st.
  apply (failed_request_absorbs_retry (take 5 two_callers_run) st 1 0
           (VStr "404") (image_request "/a.png"));
    first [by vm_compute|repeat constructor].
Defined.

Lemma follow_on_of_failed_request_pending_witness :
  let st := final failed_load_run in
  state_of st 1 = Rejected (VStr "404") ∧ state_of st 4 = Pending.
Proof.
  intros st. split; [reflexivity|].
  apply (follow_on_of_failed_request_pending failed_load_run st 4 0 1
           (VStr "404")); first [by vm_compute|repeat constructor].
Defined.

Lemma loaded_resource_cached_uncloned_witness :
  let st := final (take 5 two_copies_run) in
  ∃ st' q, load_fulfilled 1 (VStr "pixels") st = Some st' ∧
    r_identifier q = r_identifier (obj st 0) ∧
    state_of st' 1 = Fulfilled (h_clone copying_handler (VObj ["Image"] 1) q) ∧
    _cache st' !! "h1" = Some (VObj ["Image"] 1) ∧
    _requests st' !! r_canonical (obj st 0) = None ∧
    ∃ l n evs, events st' =
      Fire_load 0 (h_clone copying_handler (VObj ["Image"] 1) q)
      :: Fire_progress l n :: Call_clone 0 (VObj ["Image"] 1) :: evs.
Proof.
  intros st.
  apply (loaded_resource_cached_uncloned (take 5 two_copies_run) st 1 0
           copying_handler (VStr "pixels") (VObj ["Image"] 1) "h1");
    first [by vm_compute|repeat constructor].
Defined.

Lemma falsy_resource_skips_post_open_witness :
  let st := final blank_run in
  ∃ st', load_fulfilled 1 (VStr "text") st = Some st' ∧
    state_of st' 1 = Fulfilled VUndefined ∧
    events st' = Call_open 0 (VStr "text") :: events st ∧
    _cache st' = _cache st ∧ _requests st' = _requests st ∧
    _loaded st' = _loaded st ∧ _requested st' = _requested st.
Proof.
  intros st.
  apply (falsy_resource_skips_post_open blank_run st 1 0 blank_handler
           (VStr "text") VUndefined);
    first [by vm_compute|repeat constructor].
Defined.

Lemma merged_caller_gets_clone_of_clone_witness :
  let st := final two_copies_run in
  let v1 := h_clone copying_handler (VObj ["Image"] 1) (obj st 0) in
  v1 = VObj ["Image"] 2 ∧
  h_clone copying_handler v1 (obj st 0) = VObj ["Image"] 3 ∧
  ∃ st', run (Load_done 1 (VStr "pixels")
              :: replicate (S (length [KAll 2 0])) Tick) st = Some st' ∧
    state_of st' 1 = Fulfilled v1 ∧
    state_of st' 4 = Fulfilled (h_clone copying_handler v1 (obj st 0)) ∧
    _cache st' !! "h1" = Some v1 ∧
    clones st' = 0 :: 0 :: clones st ∧ loads st' = loads st.
Proof.
  intros st v1. split; [reflexivity|]. split; [reflexivity|].
  apply (merged_caller_gets_clone_of_clone two_copies_run st 1 0 4
           [KAll 2 0] [] copying_handler (VStr "pixels") (VObj ["Image"] 1)
           "h1").
  - vm_compute. reflexivity.
  - repeat constructor.
  - vm_compute. reflexivity.
  - vm_compute. reflexivity.
  - vm_compute. reflexivity.
  - constructor; [by exists 2, 0|constructor].
  - vm_compute. reflexivity.
  - vm_compute. reflexivity.
  - reflexivity.
  - vm_compute. reflexivity.
  - discriminate.
Defined.

End witnesses.

Section more_witnesses.

Lemma sequence_numbers_unique_witness :
  let st := final pack_opened_run in
  (r_id (obj st 0) = Some 0 ∧ r_id (obj st 1) = Some 1 ∧ _sequence st = 2) ∧
  (∀ r i, r_id (obj st r) = Some i → i < _sequence st) ∧
  (∀ r r' i, r_id (obj st r) = Some i → r_id (obj st r') = Some i → r = r') ∧
  (∀ more st' r i,
     run more st = Some st' →
     r_id (obj st r) = Some i → r_id (obj st' r) = Some i).
Proof.
  intros st. split; [by vm_compute|].
  apply (sequence_numbers_unique pack_opened_run st).
  vm_compute. reflexivity.
Defined.

Lemma registry_changed_only_by_registration_witness :
  let st := final registered_run in
  let st' := default st (run one_load_run st) in
  (_loaded st' = 1 ∧ _cache st' !! "h1" = Some (VObj ["Image"] 1)) ∧
  (∀ type, is_Some (_handlers st !! type) →
           is_Some (_handlers st' !! type)) ∧
  _handlers st' = _handlers st ∧ _hashes st' = _hashes st ∧
  _canonicals st' = _canonicals st.
Proof.
  intros st st'. split; [by vm_compute|].
  destruct (registry_changed_only_by_registration one_load_run st st')
    as [H1 H2].
  - vm_compute. reflexivity.
  - split; [exact H1|]. apply H2. repeat constructor.
Defined.

Lemma loaded_at_most_requested_witness :
  let st := final pack_opened_run in
  let st' := final stale_hit_run in
  (_loaded st = 1 ∧ _requested st = 2 ∧ loading_request st 4 = Some 1 ∧
   _loaded st' = 2 ∧ _requested st' = 2 ∧
   events st' !! 7 = Some (Fire_progress 1 0)) ∧
  (_loaded st ≤ _requested st ∧
   (∀ p r, loading_request st p = Some r → _loaded st < _requested st) ∧
   ∀ l n, Fire_progress l n ∈ events st → l ≤ S n) ∧
  (_loaded st' ≤ _requested st' ∧
   (∀ p r, loading_request st' p = Some r → _loaded st' < _requested st') ∧
   ∀ l n, Fire_progress l n ∈ events st' → l ≤ S n).
Proof.
  intros st st'. split; [by vm_compute|]. split.
  - apply (loaded_at_most_requested pack_opened_run st).
    + vm_compute. reflexivity.
    + repeat constructor.
  - apply (loaded_at_most_requested stale_hit_run st').
    + vm_compute. reflexivity.
    + repeat constructor.
Defined.

End more_witnesses.

(** ** A request resolved from the cache stays in the table *)

Section stale.
Implicit Types (st : ResourceLoader).

(** [_request] files the request in the table of active requests last,
    whatever happened to it before. *)
Lemma _request_registers r st :
  _requests (_request r st).2 !! r_canonical (obj st r) = Some r.
Proof.
  unfold _request.
  pose proof (_request_begin r st) as H. cbv zeta in H.
  match type of H with objects ?s = _ ∧ _ => set (st1 := s) in *; clearbody st1 end.
  destruct H as (Ho & _).
  assert (Hc1 : r_canonical (obj st1 r) = r_canonical (obj st r)).
  { rewrite Ho. by apply obj_at_objects_with_id. }
  rewrite <- Hc1. clear Ho Hc1.
  destruct (r_promises (obj st1 r)) as [|p0 ps]; proj.
  - destruct (_handlers st1 !! _); [destruct (_ && _)|]; proj;
      rewrite ?obj_at_alter_field by done.
    + unfold resolve_postOpen.
      match goal with |- context [_postOpen ?a ?b ?c] =>
        pose proof (_postOpen_frame a b c) as HF; cbv zeta in HF;
        destruct HF as (HF & _);
        destruct (_postOpen a b c) as [[v|e] st2]
      end; cbn [fst snd] in *; proj; rewrite HF; proj;
        apply lookup_insert_eq.
    + apply lookup_insert_eq.
    + apply lookup_insert_eq.
  - rewrite obj_at_alter_field by done. apply lookup_insert_eq.
Qed.

(** [_request] changes the cache only by a post-open pass on the resource
    it found there. *)
Lemma _request_cache r st :
  _cache (_request r st).2 = _cache st ∨
  _cache (_request r st).2
  = _cache (addToCache (r_canonical (obj st r))
              (getFromCache st (r_canonical (obj st r))) st).
Proof.
  unfold _request.
  pose proof (_request_begin r st) as H. cbv zeta in H.
  match type of H with objects ?s = _ ∧ _ => set (st1 := s) in *; clearbody st1 end.
  destruct H as (Ho & _ & _ & _ & _ & Hca & Hhs & _).
  assert (Hc1 : r_canonical (obj st1 r) = r_canonical (obj st r)).
  { rewrite Ho. by apply obj_at_objects_with_id. }
  destruct (r_promises (obj st1 r)) as [|p0 ps]; proj; [|by left].
  destruct (_handlers st1 !! _); [destruct (_ && _)|]; proj; try (by left).
  right. unfold resolve_postOpen.
  assert (HP : _cache (_postOpen (getFromCache st1 (r_canonical (obj st1 r))) r
                         (set_heap (heap st1 ++ [Promise Pending [] (KindPrimary r false)]) st1)).2
               = _cache (addToCache (r_canonical (obj st r))
                           (getFromCache st (r_canonical (obj st r))) st)).
  { unfold _postOpen. rewrite addToCache_eq. proj.
    assert (Hadd : ∀ i v, _cache (addToCache i v
                      (set_heap (heap st1 ++ [Promise Pending [] (KindPrimary r false)]) st1))
                    = _cache (addToCache i v st)).
    { intros i v. unfold addToCache, getHash. proj. rewrite Hhs.
      destruct (_hashes st !! i) as [x|]; [|done].
      destruct (truthy_string x); proj; by rewrite Hca. }
    rewrite Hc1, (getFromCache_frame st st1) by done.
    destruct (_handlers st1 !! _); proj; apply Hadd. }
  match goal with |- context [_postOpen ?a ?b ?c] =>
    change (_cache (_postOpen a b c).2 = _cache (addToCache (r_canonical (obj st r))
                           (getFromCache st (r_canonical (obj st r))) st)) in HP;
    destruct (_postOpen a b c) as [[v|e] st2]
  end; cbn [fst snd] in *; proj; done.
Qed.

Lemma request_fresh_table s st :
  _requests st !! s_identifier s = None →
  let r := length (objects st) in
  let st' := (request [r] None (new_request s st).2).2 in
  _requests st' !! canonical_of st (s_identifier s) = Some r ∧
  r_promises (obj st' r) = [S (length (heap st))] ∧
  r_result (obj st' r) = s_result s ∧
  (_cache st' = _cache st ∨
   _cache st'
   = _cache (addToCache (canonical_of st (s_identifier s))
               (getFromCache st (canonical_of st (s_identifier s))) st)).
Proof.
  intros Hnone r st'.
  set (sta := (new_request s st).2) in *.
  assert (Hobj : obj sta r = new_ResourceRequest s).
  { subst sta. proj. apply obj_at_app_new. }
  pose proof (request_single r sta) as H. cbv zeta in H.
  rewrite Hobj in H. specialize (H Hnone).
  set (stb := _makeCanonical r (new_promise (KindOuter None) sta).2) in *.
  assert (Hb : obj stb r
               = set_r_canonical (canonical_of st (s_identifier s))
                   (new_ResourceRequest s)).
  { subst stb. unfold _makeCanonical. proj.
    rewrite obj_at_alter_eq by (subst sta r; proj; rewrite length_app; simpl; lia).
    by rewrite Hobj. }
  assert (Hbl : r < length (objects stb)).
  { subst stb sta r. unfold _makeCanonical. proj.
    rewrite length_alter, length_app. simpl. lia. }
  assert (Hbh : length (heap stb) = S (length (heap st))).
  { subst stb sta. unfold _makeCanonical. proj. rewrite length_app. simpl. lia. }
  assert (Hbc : _cache stb = _cache st ∧ _hashes stb = _hashes st) by done.
  clearbody stb. destruct Hbc as [Hbca Hbhs].
  destruct H as (_ & Hpo & _).
  destruct (promises_only_fields _ _ Hpo) as (Ho & _ & Hrq & Hca & _).
  fold st' in Ho, Hrq, Hca. rewrite Ho, Hrq, Hca.
  pose proof (_request_registers r stb) as Hreg. rewrite Hb in Hreg.
  pose proof (_request_spec r stb) as [Hp Hspec]. cbv zeta in Hp, Hspec.
  rewrite Hb in Hspec. cbn [r_promises set_r_canonical new_ResourceRequest] in Hspec.
  destruct Hspec as (s0 & l & _ & _ & _ & Hobjs).
  destruct (_request_fields r stb) as (_ & _ & Hres & _). cbv zeta in Hres.
  split_and!.
  - done.
  - rewrite Hobjs, obj_at_alter_eq by (by rewrite length_objects_with_id).
    cbn [r_promises set_r_promises]. by rewrite Hbh.
  - rewrite Hres, Hb. done.
  - destruct (_request_cache r stb) as [->| ->]; [left; done|right].
    rewrite Hb. cbn [r_canonical set_r_canonical].
    rewrite (getFromCache_frame st stb) by done.
    unfold addToCache, getHash. rewrite Hbhs.
    destruct (_hashes st !! _) as [x|]; [|done].
    destruct (truthy_string x); proj; by rewrite Hbca.
Qed.

End stale.

Section stale_hit.
Implicit Types (st : ResourceLoader).

(** C8 (what the code does).  A request that is resolved from the cache
    stays in the table of active requests: [_postOpen] removes it before
    [_request] files it.  A later request for the same identifier and type
    is merged into it, whatever [Type] it declares: [load] is not called
    although the cached resource is not an instance of that [Type], and
    the caller gets a follow-on promise of the request that was resolved
    from the cache. *)
Theorem cache_hit_request_stays_active st s1 s2 h hash resource :
  let id := s_identifier s1 in
  s_identifier s2 = id → s_type s2 = s_type s1 →
  canonical_of st id = id →
  _handlers st !! s_type s1 = Some h →
  getHash st id = Some hash → hash ≠ "" →
  _cache st !! hash = Some resource → truthy resource = true →
  type_matches resource (s_Type s1) = true →
  type_matches resource (s_Type s2) = false →
  truthy (s_result s1) = false → truthy (s_result s2) = false →
  _requests st !! id = None →
  let r1 := length (objects st) in
  let p1 := S (length (heap st)) in
  let st1 := (request [r1] None (new_request s1 st).2).2 in
  let r2 := length (objects st1) in
  let o2 := length (heap st1) in
  let q := S o2 in
  let st2 := (request [r2] None (new_request s2 st1).2).2 in
  (∃ v, state_of st1 p1 = Fulfilled v) ∧ loads st1 = loads st ∧
  _requests st1 !! id = Some r1 ∧
  canonical_of st1 id = id ∧ getFromCache st1 id = resource ∧
  _findExistingRequest r2 (new_request s2 st1).2 = r1 ∧
  call_at (heap st2) o2 = Some ([r1], [q]) ∧
  kind_of st2 q = Some (KindFollow r1) ∧
  loads st2 = loads st ∧ events st2 = Fire_request r1 :: events st1.
Proof.
  intros id Hid2 Hty2 Hcan Hsome Hhash Hne Hcache Htruthy Hm1 Hm2 Hres1 Hres2
    Hnone r1 p1 st1 r2 o2 q st2.
  assert (Hget : getFromCache st id = resource).
  { unfold getFromCache. by rewrite Hhash, (truthy_string_ne _ Hne), Hcache. }
  (* the first request is resolved from the cache *)
  destruct (request_fresh s1 st h Hnone Hsome)
    as (Hck1 & Hlen1 & _ & Hty1 & _ & _ & _ & _ & _ & Hnew).
  fold id r1 p1 st1 in Hck1, Hlen1, Hty1, Hnew.
  rewrite Hcan, Hget, Htruthy, Hm1 in Hnew. cbn [andb] in Hnew.
  destruct Hnew as (x & _ & Hs1 & _ & Hev1).
  destruct (request_fresh_table s1 st Hnone) as (Htab & Hpr1 & Hrs1 & Hca1).
  fold id r1 st1 in Htab, Hpr1, Hrs1, Hca1. rewrite Hcan in Htab, Hca1.
  fold p1 in Hpr1.
  assert (Hca : _cache st1 = _cache st).
  { destruct Hca1 as [->| ->]; [done|]. rewrite Hget.
    unfold addToCache. rewrite Hhash, (truthy_string_ne _ Hne). proj.
    by apply insert_id. }
  assert (Hget1 : getFromCache st1 id = resource).
  { rewrite (getFromCache_frame st st1); [done|apply (ck_hashes _ _ Hck1)|done]. }
  assert (Hcan1 : canonical_of st1 id = id).
  { rewrite (canonical_of_frame st st1); [done|..].
    - apply (ck_hashes _ _ Hck1).
    - apply (ck_canonicals _ _ Hck1). }
  (* the second request finds the first one in the table *)
  set (sta := (new_request s2 st1).2) in *.
  assert (Hr1 : r1 < length (objects st1)) by (rewrite Hlen1; subst r1; lia).
  assert (Ho1 : obj sta r1 = obj st1 r1).
  { subst sta. proj. by rewrite obj_at_app_old. }
  assert (Ho2 : obj sta r2 = new_ResourceRequest s2).
  { subst sta r2. proj. apply obj_at_app_new. }
  assert (Hfind : _findExistingRequest r2 sta = r1).
  { unfold _findExistingRequest. rewrite Ho2.
    cbn [r_canonical r_type r_result new_ResourceRequest].
    replace (_requests sta) with (_requests st1) by done.
    rewrite Hid2, Htab, Ho1, Hty1, Hrs1, Hty2, Hres1, Hres2.
    by rewrite bool_decide_eq_true_2. }
  assert (Hne12 : r1 ≠ r2) by (subst r2; lia).
  assert (Hpra : r_promises (obj sta r1) = [p1]) by (by rewrite Ho1).
  destruct (request_merged r2 sta r1 p1 [] Hfind Hne12 Hpra)
    as (Hcall & Hk & _ & Hev & _).
  replace (length (heap sta)) with o2 in Hcall, Hk by done.
  fold q st2 in Hcall, Hk, Hev.
  replace (events sta) with (events st1) in Hev by done.
  split_and!; try done.
  - eauto.
  - unfold loads. by rewrite Hev1.
  - unfold loads. by rewrite Hev, Hev1.
Qed.

End stale_hit.

(** ** Counting requests and loads *)

Section counting.
Implicit Types (st : ResourceLoader).

Lemma counted_refl st : counted 0 st st.
Proof. unfold counted. lia. Qed.

Lemma counted_trans n m st1 st2 st3 :
  counted n st1 st2 → counted m st2 st3 → counted (n + m) st1 st3.
Proof. unfold counted. lia. Qed.

Lemma counted_same st st' :
  _requested st' = _requested st → _loaded st' = _loaded st →
  counted 0 st st'.
Proof. unfold counted. lia. Qed.

Lemma counted_promises st st' : promises_only st st' → counted 0 st st'.
Proof. intros ->. by apply counted_same. Qed.

Lemma _postOpen_counted resource r st :
  counted 0 st (_postOpen resource r st).2.
Proof.
  unfold counted, _postOpen. rewrite addToCache_eq. proj.
  destruct (_handlers st !! _); proj; lia.
Qed.

Lemma resolve_postOpen_counted p resource r st :
  counted 0 st (resolve_postOpen p resource r st).
Proof.
  unfold resolve_postOpen.
  pose proof (_postOpen_counted resource r st) as H.
  destruct (_postOpen resource r st) as [[v|e] st1]; cbn [snd] in H;
    (apply (counted_trans 0 0 _ st1); [done|]);
    apply counted_promises, promises_only_settle.
Qed.

(** Every call of [_request] counts one request, merged or not; it counts
    the request as loaded when it resolves its promise from the cache. *)
Lemma _request_counts r st :
  let p := (_request r st).1 in
  let st' := (_request r st).2 in
  _requested st' = S (_requested st) ∧
  _loaded st' =
    _loaded st + match state_of st' p with Fulfilled _ => 1 | _ => 0 end.
Proof.
  intros p st'. subst p st'.
  destruct (r_promises (obj st r)) as [|p0 ps] eqn:Hpr.
  - destruct (_handlers st !! r_type (obj st r)) as [h|] eqn:Hh.
    + destruct (truthy (getFromCache st (r_canonical (obj st r)))
                && type_matches (getFromCache st (r_canonical (obj st r)))
                     (r_Type (obj st r))) eqn:Hhit.
      * destruct (_request_cache_hit r st h Hpr Hh Hhit)
          as (-> & -> & _ & -> & ->).
        rewrite state_at_app_new. simpl. split; lia.
      * destruct (_request_load r st h Hpr Hh Hhit)
          as (-> & -> & _ & -> & -> & _).
        rewrite state_at_app_new. simpl. split; lia.
    + destruct (_request_missing_handler r st Hpr Hh)
        as (-> & -> & _ & -> & ->).
      rewrite state_at_app_new. simpl. split; lia.
  - destruct (_request_follow r st p0 ps Hpr)
      as (-> & _ & -> & _ & _ & _ & -> & -> & _).
    split; lia.
Qed.

Lemma _request_counted r st : counted 1 st (_request r st).2.
Proof.
  destruct (_request_counts r st) as [H1 H2]. cbv zeta in H1, H2.
  unfold counted. lia.
Qed.

Lemma request_loop_counted parent rs st :
  counted (length rs) st (request_loop parent rs st).2.
Proof.
  revert st. induction rs as [|r0 rs IH]; intros st.
  { apply counted_refl. }
  cbn [request_loop length].
  set (r := _findExistingRequest r0 st).
  set (sta := if decide (r = r0) then st else _).
  assert (Ha : counted 0 st sta).
  { subst sta. case_decide; [apply counted_refl|]. by apply counted_same. }
  clearbody sta.
  assert (Hb : counted 0 sta (_makeCanonical r sta)) by (by apply counted_same).
  set (stb := _makeCanonical r sta) in *. clearbody stb.
  pose proof (_request_counted r stb) as Hc.
  destruct (_request r stb) as [p stc]. cbn [snd] in Hc.
  set (std := match parent with Some _ => _ | None => _ end).
  assert (Hd : counted 0 stc std).
  { subst std. destruct parent; [|apply counted_refl]. by apply counted_same. }
  clearbody std. specialize (IH std).
  destruct (request_loop parent rs std) as [[requested promises] ste].
  cbn [snd] in *. unfold counted in *. lia.
Qed.

Lemma request_counted rs parent st :
  counted (length rs) st (request rs parent st).2.
Proof.
  destruct (request_call rs parent st) as (_ & Hpo & _).
  cbv zeta in Hpo.
  pose proof (request_loop_counted parent rs
                (new_promise (KindOuter None) st).2) as H1.
  pose proof (counted_promises _ _ Hpo) as H2.
  assert (H0 : counted 0 st (new_promise (KindOuter None) st).2)
    by (by apply counted_same).
  unfold counted in *. lia.
Qed.

Lemma new_requests_counted ss st :
  counted 0 st (new_requests ss st).2 .
Proof.
  revert st. induction ss as [|s ss IH]; intros st.
  { apply counted_refl. }
  cbn [new_requests].
  assert (H1 : counted 0 st (new_request s st).2) by (by apply counted_same).
  destruct (new_request s st) as [r st1].
  specialize (IH st1). destruct (new_requests ss st1) as [rs st2].
  cbn [snd] in *. unfold counted in *. lia.
Qed.

Lemma new_requests_length ss st : length (new_requests ss st).1 = length ss.
Proof.
  revert st. induction ss as [|s ss IH]; intros st; [done|].
  cbn [new_requests].
  destruct (new_request s st) as [r st1].
  specialize (IH st1). destruct (new_requests ss st1) as [rs st2].
  simpl in *. by rewrite IH.
Qed.

Lemma nested_request_counted parent st ss :
  counted (length ss) st (nested_request parent st ss).
Proof.
  unfold nested_request.
  pose proof (new_requests_counted ss st) as H1.
  pose proof (new_requests_length ss st) as H2.
  destruct (new_requests ss st) as [rs st1]. cbn [fst snd] in *.
  pose proof (request_counted rs (Some parent) st1) as H3.
  unfold counted in *. lia.
Qed.

Lemma nested_requests_counted parent l st :
  counted (length (concat l)) st (foldl (nested_request parent) st l).
Proof.
  revert st. induction l as [|ss l IH]; intros st.
  { apply counted_refl. }
  cbn [foldl concat]. rewrite length_app.
  eapply counted_trans; [apply nested_request_counted|apply IH].
Qed.

Lemma _open_counted data r st :
  counted
    match _handlers st !! r_type (obj st r) with
    | Some h => length (concat (o_nested (h_open h data (obj st r))))
    | None => 0
    end st (_open data r st).2.
Proof.
  unfold _open. destruct (_handlers st !! _) as [h|]; cbn [snd];
    [|apply counted_refl].
  apply (counted_trans 0 _ _ (fire (Call_open r data) st)).
  - by apply counted_same.
  - apply nested_requests_counted.
Qed.

Lemma load_fulfilled_counted p data st st' :
  load_fulfilled p data st = Some st' →
  counted (nested_count st p data) st st'.
Proof.
  unfold load_fulfilled, nested_count.
  destruct (loading_request st p) as [r|]; [|done].
  simpl. intros [= <-].
  set (st1 := set_kind p _ st).
  pose proof (_open_counted data r st1) as H2.
  change (_handlers st1) with (_handlers st) in H2.
  change (objects st1) with (objects st) in H2.
  assert (H1 : counted 0 st st1) by (by apply counted_same).
  clearbody st1.
  destruct (_open data r st1) as [[resource|e] st2]; cbn [snd] in H2.
  - destruct (truthy resource).
    + pose proof (resolve_postOpen_counted p resource r st2).
      unfold counted in *. lia.
    + unfold counted in *. unfold resolve. proj. lia.
  - unfold counted in *. unfold reject. proj. lia.
Qed.

Lemma load_rejected_counted p error st st' :
  load_rejected p error st = Some st' →
  _requested st' = _requested st ∧ _loaded st' = _loaded st.
Proof.
  unfold load_rejected. destruct (loading_request st p) as [r|]; [|done].
  simpl. by intros [= <-].
Qed.

Lemma check_counted o v R st : counted 0 st (check o v R st).
Proof.
  unfold check. cbv zeta. destruct (child_promises st R) as [|p ps] eqn:E.
  - by apply counted_same.
  - rewrite <- E.
    destruct (all_frame (child_promises st R) st) as (_ & Hpo & _).
    set (cs := child_requests st R).
    destruct (all (child_promises st R) st) as [agg st1]. cbn [snd] in Hpo.
    apply counted_promises.
    eapply promises_only_trans; [done|apply promises_only_then].
Qed.

Lemma all_fulfilled_counted agg i v st : counted 0 st (all_fulfilled agg i v st).
Proof.
  unfold all_fulfilled.
  destruct (kind_of st agg) as [[| |ps res|]|]; try apply counted_refl.
  destruct (all_results _); by apply counted_same.
Qed.

(** A callback counts no request; only the follow-on callback of a merged
    request counts a request as loaded. *)
Lemma run_reaction_counts k s st :
  let st' := run_reaction k s st in
  _requested st' = _requested st ∧
  _loaded st ≤ _loaded st' ∧ _loaded st' ≤ S (_loaded st).
Proof.
  assert (H0 : ∀ st', counted 0 st st' → _loaded st' = _loaded st →
            _requested st' = _requested st ∧
            _loaded st ≤ _loaded st' ∧ _loaded st' ≤ S (_loaded st)).
  { unfold counted. lia. }
  destruct k as [r t|agg i|o R|o w R], s as [|v|e]; cbn [run_reaction];
    try (apply H0; [apply counted_refl|done]).
  - unfold _postOpen. rewrite addToCache_eq. proj.
    destruct (_handlers st !! _); proj; lia.
  - pose proof (all_fulfilled_counted agg i v st) as H.
    assert (_loaded (all_fulfilled agg i v st) = _loaded st).
    { unfold all_fulfilled.
      destruct (kind_of st agg) as [[| |ps res|]|]; try done.
      by destruct (all_results _). }
    by apply H0.
  - apply H0; [by apply counted_same|done].
  - pose proof (check_counted o v R st) as H.
    assert (_loaded (check o v R st) = _loaded st).
    { unfold check. cbv zeta. destruct (child_promises st R) as [|p ps] eqn:E; [done|].
      rewrite <- E.
      destruct (all_frame (child_promises st R) st) as (_ & Hpo & _).
      destruct (all (child_promises st R) st) as [agg st1]. cbn [snd] in Hpo.
      destruct (promises_only_fields _ _ Hpo) as (_ & _ & _ & _ & _ & _ & _ & Hl & _).
      done. }
    by apply H0.
  - apply H0; [by apply counted_same|done].
  - pose proof (check_counted o w R st) as H.
    assert (_loaded (check o w R st) = _loaded st).
    { unfold check. cbv zeta. destruct (child_promises st R) as [|p ps] eqn:E; [done|].
      rewrite <- E.
      destruct (all_frame (child_promises st R) st) as (_ & Hpo & _).
      destruct (all (child_promises st R) st) as [agg st1]. cbn [snd] in Hpo.
      destruct (promises_only_fields _ _ Hpo) as (_ & _ & _ & _ & _ & _ & _ & Hl & _).
      done. }
    by apply H0.
  - apply H0; [by apply counted_same|done].
Qed.

Lemma step_counted a st st' :
  is_completion a = true → step a st = Some st' →
  counted (match a with Load_done p data => nested_count st p data | _ => 0 end)
    st st'.
Proof.
  intros Hc. destruct a; simpl in *; try discriminate.
  - apply load_fulfilled_counted.
  - intros H. apply load_rejected_counted in H as [H1 H2].
    by apply counted_same.
  - destruct (tasks st) as [|[k s] rest]; [done|]. intros [= <-].
    pose proof (run_reaction_counts k s (set_tasks rest st)) as (H1 & H2 & _).
    cbv zeta in H1, H2. split; [rewrite H1; proj; lia|done].
Qed.

Lemma run_counted acts st st' :
  Forall (λ a, is_completion a = true) acts → run acts st = Some st' →
  _requested st ≤ _requested st' ∧ _loaded st ≤ _loaded st'.
Proof.
  intros Hacts. revert st.
  induction Hacts as [|a acts Ha _ IH]; intros st; simpl.
  { intros [= ->]. lia. }
  destruct (step a st) as [st1|] eqn:Hstep; simpl; [|done].
  intros Hrun. destruct (step_counted _ _ _ Ha Hstep) as [H1 H2].
  destruct (IH _ Hrun). lia.
Qed.

End counting.

Section c5.
Implicit Types (st : ResourceLoader).

Lemma load_fulfilled_plain p data st st' r h resource :
  load_fulfilled p data st = Some st' →
  loading_request st p = Some r →
  _handlers st !! r_type (obj st r) = Some h →
  h_open h data (obj st r) = Opened [] (Return resource) →
  _requested st' = _requested st ∧
  _loaded st' = _loaded st + (if truthy resource then 1 else 0).
Proof.
  unfold load_fulfilled. intros Hload Hl Hh Hopen. rewrite Hl in Hload.
  simpl in Hload. unfold _open in Hload. proj. rewrite Hh, Hopen in Hload.
  cbn [o_return o_nested foldl] in Hload.
  destruct (truthy resource).
  - unfold resolve_postOpen, _postOpen in Hload.
    rewrite addToCache_eq in Hload. proj. rewrite Hh in Hload. proj.
    injection Hload as <-. proj. split; lia.
  - injection Hload as <-. proj. split; lia.
Qed.

(** C5 (as the code has it).  Every call of [_request] adds one to
    [_requested], also when the request is merged into a request in flight,
    so that [request] adds the number of requests it is given; [_loaded] is
    incremented once for each promise of a caller that a post-open pass
    fulfils: by [_request] when it resolves the promise from the cache, by
    the follow-on callback of a merged request, and when the data of a load
    arrives and is opened into a truthy resource; not when the promise is
    rejected.  Over a completion [_loaded] does not decrease and
    [_requested] grows by the number of requests the handler's [open]
    makes; hence [_loaded / _requested] does not decrease over a sequence
    of completions that leaves [_requested] as it is. *)
Theorem progress_counters :
  (∀ r st,
     let p := (_request r st).1 in
     let st' := (_request r st).2 in
     _requested st' = S (_requested st) ∧
     _loaded st' =
       _loaded st + match state_of st' p with Fulfilled _ => 1 | _ => 0 end) ∧
  (∀ rs parent st,
     _requested (request rs parent st).2 = _requested st + length rs) ∧
  (∀ r t v st h,
     _handlers st !! r_type (obj st r) = Some h →
     let st' := run_reaction (KDedup r t) (Fulfilled v) st in
     _requested st' = _requested st ∧ _loaded st' = S (_loaded st) ∧
     (t < length (heap st) → state_of st t = Pending →
      state_of st' t = Fulfilled (h_clone h v (obj st r)))) ∧
  (∀ p data st st' r h resource,
     load_fulfilled p data st = Some st' →
     loading_request st p = Some r →
     _handlers st !! r_type (obj st r) = Some h →
     h_open h data (obj st r) = Opened [] (Return resource) →
     _requested st' = _requested st ∧
     _loaded st' = _loaded st + (if truthy resource then 1 else 0)) ∧
  (∀ a st st',
     step a st = Some st' → is_completion a = true →
     _loaded st ≤ _loaded st' ∧
     _requested st' =
       _requested st + match a with
                       | Load_done p data => nested_count st p data
                       | _ => 0
                       end ∧
     match a with
     | Load_failed _ _ => _loaded st' = _loaded st
     | Tick => _loaded st' ≤ S (_loaded st)
     | _ => True
     end) ∧
  (∀ acts st st',
     run acts st = Some st' → Forall (λ a, is_completion a = true) acts →
     _loaded st ≤ _loaded st' ∧ _requested st ≤ _requested st' ∧
     (_requested st' = _requested st →
      _loaded st * _requested st' ≤ _loaded st' * _requested st)).
Proof.
  split_and!.
  - apply _request_counts.
  - intros rs parent st. by destruct (request_counted rs parent st).
  - intros r t v st h Hh. cbn [run_reaction].
    pose proof (_postOpen_Return v r st h Hh) as (HP1 & _ & HP3 & HP4 & _).
    pose proof (_postOpen_frame v r st) as (_ & HF2 & _).
    cbv zeta in HP1, HP3, HP4, HF2.
    destruct (_postOpen v r st) as [cmp st1]. cbn [fst snd] in *. subst cmp.
    unfold resolve. proj. split_and!; [done..|].
    intros Ht Hs. rewrite HF2. by apply state_at_settle_pending.
  - apply load_fulfilled_plain.
  - intros a st st' Hstep Hc.
    destruct (step_counted a st st' Hc Hstep) as [H1 H2].
    split_and!; [done..|].
    destruct a; try done; simpl in Hstep.
    + by apply load_rejected_counted in Hstep as [_ ?].
    + destruct (tasks st) as [|[k s] rest]; [done|]. injection Hstep as <-.
      by pose proof (run_reaction_counts k s (set_tasks rest st)) as (_ & _ & ?).
  - intros acts st st' Hrun Hacts.
    destruct (run_counted acts st st' Hacts Hrun) as [H1 H2].
    split_and!; [done..|]. intros ->. nia.
Qed.

(** C5, refuted as stated.  A request merged into a request in flight is
    counted as requested: the second request for ["/a.png"] is merged into
    the first, [load] is called once, and [_requested] goes from 1 to 2.
    A promise settled by rejection is not counted as loaded: the load
    fails, the promise of the request is rejected, and [_loaded] stays 0.
    The ratio decreases over a completion: when the data of the pack
    arrives, its [open] requests two children, and [_loaded / _requested]
    goes from 2/3 to 3/5. *)
Lemma counters_not_as_claimed :
  (let st1 := final (take 5 two_callers_run) in
   let st2 := final two_callers_run in
   _findExistingRequest 1 st1 = 0 ∧ state_of st1 1 = Pending ∧
   _requested st1 = 1 ∧ _requested st2 = 2 ∧ loads st2 = [0] ∧
   ¬ (_requested st2 = _requested st1)) ∧
  (let st1 := final two_callers_run in
   let st2 := final (two_callers_run ++ [Load_failed 1 (VStr "404")]) in
   step (Load_failed 1 (VStr "404")) st1 = Some st2 ∧
   kind_of st1 1 = Some (KindPrimary 0 true) ∧ state_of st1 1 = Pending ∧
   state_of st2 1 = Rejected (VStr "404") ∧
   _loaded st1 = 0 ∧ _loaded st2 = 0 ∧ ¬ (_loaded st2 = S (_loaded st1))) ∧
  (let st1 := final progress_before_run in
   let st2 := final progress_run in
   step (Load_done 3 (VStr "root data")) st1 = Some st2 ∧
   _loaded st1 = 2 ∧ _requested st1 = 3 ∧
   _loaded st2 = 3 ∧ _requested st2 = 5 ∧
   ¬ (_loaded st1 * _requested st2 ≤ _loaded st2 * _requested st1)).
Proof.
  split; [|split]; intros st1 st2; subst st1 st2.
  - split_and!; try (vm_compute; reflexivity). vm_compute. discriminate.
  - split_and!; try (vm_compute; reflexivity). vm_compute. discriminate.
  - split_and!; try (vm_compute; reflexivity). vm_compute. lia.
Qed.

End c5.

(** ** Further runs *)

Section more_examples.

Lemma progress_counters_witness :
  (let st1 := final progress_before_run in
   let st2 := final progress_run in
   nested_count st1 3 (VStr "root data") = 2 ∧
   _loaded st1 ≤ _loaded st2 ∧
   _requested st2 = _requested st1 + nested_count st1 3 (VStr "root data") ∧
   True) ∧
  (let st := final two_callers_run in
   let st' := final failed_load_run in
   _loaded st ≤ _loaded st' ∧ _requested st ≤ _requested st' ∧
   (_requested st' = _requested st →
    _loaded st * _requested st' ≤ _loaded st' * _requested st)).
Proof.
  destruct progress_counters as (_ & _ & _ & _ & HC & HD). split.
  - intros st1 st2. split; [vm_compute; reflexivity|].
    apply (HC (Load_done 3 (VStr "root data")) st1 st2);
      vm_compute; reflexivity.
  - intros st st'.
    apply (HD [Load_failed 1 (VStr "404"); Tick; Tick; Tick] st st').
    + vm_compute. reflexivity.
    + repeat constructor.
Defined.



(** The image is resolved from the cache and stays in the table of active
    requests; the texture is merged into it, and the promise of its caller
    is fulfilled with the image, which is not an instance of [Texture];
    [load] is never called. *)
Lemma cache_hit_request_stays_active_witness :
  let st := final cached_setup_run in
  let s1 := image_request "/a.png" in
  let s2 := texture_request "/a.png" in
  let id := s_identifier s1 in
  let r1 := length (objects st) in
  let p1 := S (length (heap st)) in
  let st1 := (request [r1] None (new_request s1 st).2).2 in
  let r2 := length (objects st1) in
  let o2 := length (heap st1) in
  let q := S o2 in
  let st2 := (request [r2] None (new_request s2 st1).2).2 in
  (run (drop 3 stale_hit_run) st = Some (final stale_hit_run) ∧
   call_at (heap (final stale_hit_run)) 3 = Some ([0], [4]) ∧
   state_of (final stale_hit_run) 3 = Fulfilled (VArr [VObj ["Image"] 1]) ∧
   r_Type (obj (final stale_hit_run) 1) = Some "Texture" ∧
   instanceof (VObj ["Image"] 1) "Texture" = false ∧
   loads (final stale_hit_run) = [] ∧ tasks (final stale_hit_run) = []) ∧
  (∃ v, state_of st1 p1 = Fulfilled v) ∧ loads st1 = loads st ∧
  _requests st1 !! id = Some r1 ∧
  canonical_of st1 id = id ∧ getFromCache st1 id = VObj ["Image"] 1 ∧
  _findExistingRequest r2 (new_request s2 st1).2 = r1 ∧
  call_at (heap st2) o2 = Some ([r1], [q]) ∧
  kind_of st2 q = Some (KindFollow r1) ∧
  loads st2 = loads st ∧ events st2 = Fire_request r1 :: events st1.
Proof.
  intros st s1 s2 id r1 p1 st1 r2 o2 q st2.
  split; [split_and!; vm_compute; reflexivity|].
  apply (cache_hit_request_stays_active st s1 s2 image_handler "h1"
           (VObj ["Image"] 1));
    first [discriminate|vm_compute; reflexivity].
Defined.

End more_examples.
